(** * Resilient dispatch and transfer scheduling of the web-browser downloader

    A shallow embedding of the three JavaScript classes that form the core of
    the application:

    - [ErrorHandler] (ErrorHandler.js, here src/unnamed/part_003): error
      classification and retry;
    - [ProxyService] (ProxyService.js, here the second class of
      src/js/modules/UIController.js): endpoint registry, circuit breaker,
      rate limiter and the [proxyGet] dispatch loop;
    - [DownloadManager] (src/js/modules/DownloadManager.js): the
      bounded-concurrency download scheduler.

    JavaScript objects become records, [Map]s become [gmap]s, thrown errors
    become the [Err] branch of [Outcome], and everything an [await] can
    observe (network, timers, the clock) is an explicit world that is
    threaded through the calls. *)

From Stdlib Require Import ZArith String Ascii List Bool Lia DecimalString Sorted.
From stdpp Require Import base option gmap strings list.

Local Open Scope string_scope.
Local Open Scope nat_scope.

(** ** JavaScript helpers *)

Module Js.

(** [s.includes(sub)]: [sub] occurs in [s] as a contiguous substring.
    Strings are sequences of UTF-8 bytes; every pattern the program searches
    for is ASCII, for which byte-wise and code-unit-wise search agree. *)
Fixpoint includes (s sub : string) : bool :=
  String.prefix sub s ||
  match s with
  | EmptyString => false
  | String _ s' => includes s' sub
  end.

(** Template-literal rendering of an integer, [`${n}`]. *)
Definition show (n : Z) : string := NilZero.string_of_int (Z.to_int n).

(** A JavaScript [Error] object: its [name] and [message]. *)
Record Error := mkError { name : string; message : string }.

(** [new Error(msg)] and [new TypeError(msg)]. *)
Definition newError (msg : string) : Error := mkError "Error" msg.
Definition newTypeError (msg : string) : Error := mkError "TypeError" msg.

(** The settlement of a promise / the result of a [try] block. *)
Inductive Outcome (A : Type) : Type :=
| Ok (a : A)
| Err (e : Error).
Arguments Ok {A} a.
Arguments Err {A} e.

Definition isOk {A} (o : Outcome A) : bool :=
  match o with Ok _ => true | Err _ => false end.

End Js.
Export Js.

(** ** ErrorHandler *)

Module ErrorHandler.

Inductive ErrorType :=
| unknown | network | timeout | cors | ssl | notfound | auth | server.

Inductive Severity := low | medium | high.

Record ErrorInfo := mkInfo {
  type : ErrorType;
  isRetryable : bool;
  severity : Severity;
  originalError : Error
}.

(** [analyzeError(error)]: the first matching branch of the [if]/[else if]
    chain overwrites the default [{unknown, false, medium}]. *)
Definition analyzeError (error : Error) : ErrorInfo :=
  let msg := message error in
  if String.eqb (name error) "TypeError" && includes msg "fetch" then
    mkInfo network true high error
  else if includes msg "timeout" then
    mkInfo timeout true medium error
  else if includes msg "CORS" then
    mkInfo cors false high error
  else if includes msg "SSL" || includes msg "certificate" then
    mkInfo ssl false high error
  else if includes msg "404" then
    mkInfo notfound false low error
  else if includes msg "403" || includes msg "401" then
    mkInfo auth false medium error
  else if includes msg "500" || includes msg "502" || includes msg "503" then
    mkInfo server true high error
  else
    mkInfo unknown false medium error.


(** The error [requestFunction] of [ProxyService.makeProxyRequest] throws
    for a response that is not ok: [`HTTP ${status}: ${statusText}`]. *)
Definition httpError (status : Z) (statusText : string) : Error :=
  newError ("HTTP " +:+ show status +:+ ": " +:+ statusText).


(** [generateUserFriendlyMessage(errorInfo)]: [messages[type] ||
    messages.unknown]; every entry of the table is a non-empty string. *)
Definition generateUserFriendlyMessage (errorInfo : ErrorInfo) : string :=
  match type errorInfo with
  | network => "网络连接失败，请检查网络设置后重试"
  | timeout => "请求超时，请稍后重试"
  | cors => "跨域请求被阻止，请使用代理服务"
  | ssl => "SSL证书验证失败，请确认网站安全性"
  | notfound => "请求的资源不存在"
  | auth => "访问被拒绝，请检查权限设置"
  | server => "服务器错误，请稍后重试"
  | unknown => "发生未知错误，请稍后重试"
  end.

Definition offlineMessage : string := "网络连接已断开，请检查网络设置".

(** The fields of an [ErrorHandler] instance the retry logic reads and
    writes. [retryAttempts] is the [Map] from operation id to attempt count. *)
Record t := mk {
  retryAttempts : gmap string nat;
  maxRetries : nat;
  retryDelay : nat;
  isOnline : bool
}.

(** The state the constructor leaves (with the browser's [navigator.onLine]). *)
Definition new (online : bool) : t := mk ∅ 3 1000 online.

(** [this.retryAttempts.get(operation) || 0] *)
Definition attemptsOf (operation : string) (eh : t) : nat :=
  default 0 (retryAttempts eh !! operation).

Definition setAttempts (operation : string) (n : nat) (eh : t) : t :=
  mk (<[operation := n]> (retryAttempts eh)) (maxRetries eh) (retryDelay eh) (isOnline eh).

Definition deleteAttempts (operation : string) (eh : t) : t :=
  mk (delete operation (retryAttempts eh)) (maxRetries eh) (retryDelay eh) (isOnline eh).

(** [canRetry(operation, errorInfo)] *)
Definition canRetry (operation : string) (errorInfo : ErrorInfo) (eh : t) : bool :=
  if negb (isRetryable errorInfo) then false
  else attemptsOf operation eh <? maxRetries eh.

Section Retry.
(** The world an awaited call can observe and change, the effect of
    [await this.wait(delay)] on it, and the type of a successful result. *)
Context {W R : Type}.
Variable wait : nat → W → W.

(** A zero-argument async function: run in a world, it settles. *)
Definition RetryFunction := W → Outcome R * W.

(** What a call leaves behind: how it settled, the handler, the world, and
    how many times the retry function was invoked. *)
Record Run := mkRun {
  settled : Outcome R;
  handler : t;
  world : W;
  invocations : nat
}.

(** [retryOperation(operation, retryFunction)]. The recursion of the
    source is bounded by [fuel]; [calls] counts the invocations of
    [retryFunction] made so far. *)
Fixpoint retryOperation_fuel (fuel : nat) (operation : string)
    (retryFunction : RetryFunction) (eh : t) (w : W) (calls : nat) : option Run :=
  match fuel with
  | O => None
  | S fuel' =>
    let attempts := attemptsOf operation eh in
    let eh1 := setAttempts operation (attempts + 1) eh in
    let delay := retryDelay eh * 2 ^ attempts in
    let w1 := wait delay w in
    match retryFunction w1 with
    | (Ok result, w2) =>
        Some (mkRun (Ok result) (deleteAttempts operation eh1) w2 (S calls))
    | (Err error, w2) =>
        if canRetry operation (analyzeError error) eh1 then
          retryOperation_fuel fuel' operation retryFunction eh1 w2 (S calls)
        else
          Some (mkRun (Err error) eh1 w2 (S calls))
    end
  end.

(** Every recursive call has raised the counter below [maxRetries], so
    [maxRetries + 1] unfoldings always suffice: [retryOperation_fuel] then
    returns [Some] run (lemma [retryOperation_fuel_total]) and the fallback
    below is never taken. *)
Definition retryOperation (operation : string) (retryFunction : RetryFunction)
    (eh : t) (w : W) : Run :=
  default (mkRun (Err (newError "")) eh w 0)
    (retryOperation_fuel (S (maxRetries eh)) operation retryFunction eh w 0).

(** [handleNetworkError(error, operation, retryFunction)] *)
Definition handleNetworkError (error : Error) (operation : string)
    (retryFunction : RetryFunction) (eh : t) (w : W) : Run :=
  let errorInfo := analyzeError error in
  if negb (isOnline eh) then
    mkRun (Err (newError offlineMessage)) eh w 0
  else if canRetry operation errorInfo eh then
    retryOperation operation retryFunction eh w
  else
    mkRun (Err (newError (generateUserFriendlyMessage errorInfo))) eh w 0.

(** An operation that fails with a retryable error whenever it is invoked. *)
Definition alwaysFails (retryFunction : RetryFunction) : Prop :=
  ∀ w, ∃ e w', retryFunction w = (Err e, w') ∧ isRetryable (analyzeError e) = true.

(** An operation that, started in world [w], fails with a retryable error
    the next [k] times it is invoked and then succeeds with [result],
    however long the handler waits before each invocation. *)
Fixpoint failsThenSucceeds (k : nat) (result : R) (retryFunction : RetryFunction)
    (w : W) : Prop :=
  match k with
  | O => ∀ delay, ∃ w', retryFunction (wait delay w) = (Ok result, w')
  | S k' => ∀ delay, ∃ e w',
      retryFunction (wait delay w) = (Err e, w') ∧
      isRetryable (analyzeError e) = true ∧
      failsThenSucceeds k' result retryFunction w'
  end.
End Retry.

Arguments Run : clear implicits.
Arguments mkRun {W R}.
Arguments RetryFunction : clear implicits.

(** [handleSecurityError(error)]: only [canProceed] and [message] are used
    by the callers modelled here. *)
Record SecurityResult := mkSec { canProceed : bool; secMessage : string; action : string }.

Definition handleSecurityError (error : Error) : SecurityResult :=
  let msg := message error in
  if includes msg "Mixed Content" then
    mkSec true "检测到混合内容（HTTP/HTTPS），已自动升级到HTTPS" "upgrade"
  else if includes msg "certificate" then
    mkSec false "SSL证书验证失败，连接可能不安全" "warn"
  else if includes msg "CSP" then
    mkSec false "内容安全策略阻止了请求" "block"
  else
    mkSec false "安全检查失败，操作已被阻止" "block".

(** [resetRetryCount(operation)] *)
Definition resetRetryCount (operation : string) (eh : t) : t :=
  deleteAttempts operation eh.

Section Backoff.
Context {W R : Type}.
Variable wait : nat → W → W.

(** The world after the operation has been invoked once after each of the
    given waits, in turn. *)
Definition afterWaits (retryFunction : RetryFunction W R) (delays : list nat) (w : W) : W :=
  fold_left (fun w' delay => snd (retryFunction (wait delay w'))) delays w.
End Backoff.

(** The delays [retryDelay * 2 ^ i] for [count] successive values of the
    attempt counter, from [first] on. *)
Definition backoff (eh : t) (first count : nat) : list nat :=
  map (fun i => retryDelay eh * 2 ^ i) (seq first count).

(** Plain data as [sanitizeData] sees it: primitives, arrays and objects
    (own enumerable properties, in property order). *)
#[warnings="-register-all"]
Inductive JsValue :=
| JUndefined
| JNull
| JBool (b : bool)
| JNum (n : Z)
| JStr (s : string)
| JArr (items : list JsValue)
| JObj (props : list (string * JsValue)).

Definition sensitiveKeys : list string :=
  ["password"; "token"; "key"; "secret"; "auth"; "credential"].

Definition redactedMark : JsValue := JStr "[REDACTED]".

Section Sanitize.
(** [String.prototype.toLowerCase], as the platform provides it. *)
Variable toLowerCase : string → string.

(** [sensitiveKeys.some(sensitive => key.toLowerCase().includes(sensitive))] *)
Definition isSensitive (key : string) : bool :=
  existsb (fun sensitive => includes (toLowerCase key) sensitive) sensitiveKeys.

(** [sanitizeData(data)]. [{ ...data }] copies the properties of an object
    and turns an array into an object keyed by its indices; the loop then
    replaces the value under every sensitive key and sanitizes every other
    value that is an object (for a primitive the recursive call returns its
    argument, as the [typeof] test of the loop has it). *)
Fixpoint sanitizeData (data : JsValue) : JsValue :=
  match data with
  | JObj props =>
      JObj (map (fun kv => (fst kv, if isSensitive (fst kv) then redactedMark
                                    else sanitizeData (snd kv))) props)
  | JArr items =>
      JObj ((fix entries (i : nat) (l : list JsValue) : list (string * JsValue) :=
               match l with
               | [] => []
               | x :: rest =>
                   (show (Z.of_nat i),
                    if isSensitive (show (Z.of_nat i)) then redactedMark else sanitizeData x)
                   :: entries (S i) rest
               end) 0 items)
  | other => other
  end.

(** A value without arrays in which, at every depth, the value under a
    sensitive key is the redaction mark. *)
Fixpoint sanitized (v : JsValue) : Prop :=
  match v with
  | JObj props =>
      (fix all (l : list (string * JsValue)) : Prop :=
         match l with
         | [] => True
         | kv :: rest =>
             (if isSensitive (fst kv) then snd kv = redactedMark else sanitized (snd kv))
             ∧ all rest
         end) props
  | JArr _ => False
  | _ => True
  end.
End Sanitize.

End ErrorHandler.

(** ** ProxyService *)

Module ProxyService.

(** One entry of [this.proxyServices]. The entries are mutable objects; the
    program holds references to them, which are modelled as positions in the
    list. *)
Record Service := mkService {
  name : string;
  url : string;
  type : string;
  timeout : Z;
  rateLimit : Z;
  lastUsed : Z;
  requestCount : Z
}.

(** The value stored in [this.circuitBreaker] for an open circuit. *)
Module Breaker.
Record t := mk { isOpen : bool; openedAt : Z; timeout : Z }.
End Breaker.

Record t := mk {
  proxyServices : list Service;
  isInitialized : bool;
  failureCount : gmap string nat;
  circuitBreaker : gmap string Breaker.t;
  errorHandler : ErrorHandler.t
}.

Definition setServices (l : list Service) (ps : t) : t :=
  mk l (isInitialized ps) (failureCount ps) (circuitBreaker ps) (errorHandler ps).
Definition setFailureCount (m : gmap string nat) (ps : t) : t :=
  mk (proxyServices ps) (isInitialized ps) m (circuitBreaker ps) (errorHandler ps).
Definition setCircuitBreaker (m : gmap string Breaker.t) (ps : t) : t :=
  mk (proxyServices ps) (isInitialized ps) (failureCount ps) m (errorHandler ps).
Definition setErrorHandler (eh : ErrorHandler.t) (ps : t) : t :=
  mk (proxyServices ps) (isInitialized ps) (failureCount ps) (circuitBreaker ps) eh.

(** The three endpoints the constructor configures. *)
Definition defaultServices : list Service :=
  [ mkService "AllOrigins" "https://api.allorigins.win/get?url=" "allorigins" 10000 100 0 0;
    mkService "CORS.SH" "https://cors.sh/" "cors-sh" 8000 50 0 0;
    mkService "CORSProxy.io" "https://corsproxy.io/?" "corsproxy" 12000 80 0 0 ].

Definition new (online : bool) : t :=
  mk defaultServices false ∅ ∅ (ErrorHandler.new online).

(** [recordFailure(service)], called when [Date.now()] is [now]. The
    threshold is compared with the count read before the increment. *)
Definition recordFailure (now : Z) (service : Service) (ps : t) : t :=
  let failures := default 0 (failureCount ps !! name service) in
  let ps1 := setFailureCount (<[name service := failures + 1]> (failureCount ps)) ps in
  if 3 <=? failures then
    setCircuitBreaker
      (<[name service := Breaker.mk true now (5 * 60 * 1000)]> (circuitBreaker ps1)) ps1
  else ps1.

(** [recordSuccess(service)] *)
Definition recordSuccess (service : Service) (ps : t) : t :=
  let ps1 := setFailureCount (<[name service := 0]> (failureCount ps)) ps in
  setCircuitBreaker (delete (name service) (circuitBreaker ps1)) ps1.

(** [isServiceAvailable(service)]: an expired breaker is deleted by the
    query itself, so the state is returned with the answer. *)
Definition isServiceAvailable (now : Z) (service : Service) (ps : t) : bool * t :=
  match circuitBreaker ps !! name service with
  | None => (true, ps)
  | Some breaker =>
      if (Breaker.timeout breaker <? now - Breaker.openedAt breaker)%Z then
        (true, setCircuitBreaker (delete (name service) (circuitBreaker ps)) ps)
      else (false, ps)
  end.

(** [resetRateLimits()] *)
Definition resetRateLimits (ps : t) : t :=
  setServices
    (map (fun s => mkService (name s) (url s) (type s) (timeout s) (rateLimit s) (lastUsed s) 0)
         (proxyServices ps)) ps.

(** [checkRateLimit(service)] *)
Definition checkRateLimit (service : Service) : bool :=
  (requestCount service <? rateLimit service)%Z.

(** The [filter] of [selectBestProxy]: the callback runs on the entries from
    left to right and [isServiceAvailable] may change the breaker map on the
    way; [&&] skips [checkRateLimit] when the circuit is open. Entries carry
    their position. *)
Fixpoint filterAvailable (now : Z) (l : list (nat * Service)) (ps : t)
    : list (nat * Service) * t :=
  match l with
  | [] => ([], ps)
  | (i, service) :: rest =>
      let '(available, ps1) := isServiceAvailable now service ps in
      let keep := available && checkRateLimit service in
      let '(kept, ps2) := filterAvailable now rest ps1 in
      (if keep then (i, service) :: kept else kept, ps2)
  end.

(** Pair every entry with its position, starting at [i]. *)
Fixpoint indexed (i : nat) (l : list Service) : list (nat * Service) :=
  match l with
  | [] => []
  | s :: rest => (i, s) :: indexed (S i) rest
  end.

(** The callback of [reduce]: the current entry wins only when strictly
    less recently used. *)
Definition lessRecentlyUsed (best current : nat * Service) : nat * Service :=
  if (lastUsed (snd current) <? lastUsed (snd best))%Z then current else best.

(** [selectBestProxy()]: the chosen entry with its position, or [None] for
    [null]. *)
Definition selectBestProxy (now : Z) (ps : t) : option (nat * Service) * t :=
  let '(availableServices, ps1) := filterAvailable now (indexed 0 (proxyServices ps)) ps in
  match availableServices with
  | [] => (None, ps1)
  | first :: rest => (Some (fold_left lessRecentlyUsed rest first), ps1)
  end.

Definition noProxyMessage : string := "没有可用的代理服务（速率限制或断路器开启）".
Definition allFailedPrefix : string := "所有代理服务都失败了。最后错误: ".
Definition notInitializedMessage : string := "代理服务未初始化".
Definition unsafeUrlMessage : string := "目标URL不安全".
Definition httpsRequiredMessage : string := "目标URL必须使用HTTPS协议".

(** [url.replace(/^http:/, 'https:')] *)
Definition upgradeToHttps (target : string) : string :=
  if String.prefix "http:" target
  then "https:" +:+ String.substring 5 (String.length target - 5) target
  else target.

(** [service.lastUsed = now; service.requestCount++] *)
Definition markUsed (now : Z) (s : Service) : Service :=
  mkService (name s) (url s) (type s) (timeout s) (rateLimit s) now (requestCount s + 1).

Section Dispatch.
(** The world: everything outside the object that an [await] can change.
    [clock] is [Date.now()], [wait] the passing of a delay. [Response] is the
    type of fetch responses. *)
Context {W Response : Type}.
Variable clock : W → Z.
Variable wait : nat → W → W.

(** The collaborators of [makeProxyRequest]: the closure [requestFunction]
    (it builds the proxy address and calls [fetch]) and
    [validateResponse], which throws for an oversized body. *)
Variable requestFunction : Service → string → ErrorHandler.RetryFunction W Response.
Variable validateResponse : Response → Service → W → option Error * W.

(** The injected [securityManager]. *)
Variable validateURLSafety : string → bool.
Variable validateHTTPS : string → bool.

Definition State : Type := t * W.

(** The signature of [this.makeProxyRequest(service, url, options)]; the
    entry is passed by position and by value. *)
Definition MakeRequest : Type := nat → Service → string → State → Outcome Response * State.

(** [makeProxyRequest(service, url, options)]; [options] is used by the
    closure [requestFunction] only. *)
Definition makeProxyRequest : MakeRequest := fun _ service target '(ps, w) =>
  let operationId := "proxy-" +:+ name service +:+ "-" +:+ show (clock w) in
  let run := ErrorHandler.handleNetworkError wait
               (newError "Network request preparation") operationId
               (requestFunction service target) (errorHandler ps) w in
  let ps1 := setErrorHandler (ErrorHandler.handler run) ps in
  let w1 := ErrorHandler.world run in
  let tried :=
    match ErrorHandler.settled run with
    | Ok response =>
        match validateResponse response service w1 with
        | (None, w2) => (Ok response, w2)
        | (Some e, w2) => (Err e, w2)
        end
    | Err e => (Err e, w1)
    end in
  match tried with
  | (Ok response, w2) => (Ok response, (ps1, w2))
  | (Err error, w2) =>
      let ps2 := recordFailure (clock w2) service ps1 in
      if includes (message error) "certificate" || includes (message error) "SSL" then
        let securityResult := ErrorHandler.handleSecurityError error in
        if negb (ErrorHandler.canProceed securityResult) then
          (Err (newError (ErrorHandler.secMessage securityResult)), (ps2, w2))
        else (Err error, (ps2, w2))
      else (Err error, (ps2, w2))
  end.

(** One entry of the call log of [makeProxyRequest]: the position of the
    endpoint tried and how the request settled. *)
Definition Attempt : Type := nat * Outcome Response.

(** What [proxyGet] leaves behind. *)
Record Dispatched := mkDispatched {
  response : Outcome Response;
  final : State;
  attempts : list Attempt
}.

(** The entry a reference points to after the awaited call. *)
Definition deref (i : nat) (snapshot : Service) (ps : t) : Service :=
  default snapshot (proxyServices ps !! i).

(** The [while (attempts < maxAttempts)] loop of [proxyGet]; [remaining] is
    [maxAttempts - attempts]. [make] is the method bound to
    [this.makeProxyRequest]. *)
Fixpoint proxyGet_loop (make : MakeRequest) (remaining : nat) (lastError : option Error)
    (target : string) (st : State) (log : list Attempt) : Dispatched :=
  match remaining with
  | O =>
      match lastError with
      | Some e => mkDispatched (Err (newError (allFailedPrefix +:+ message e))) st log
      | None =>
          (* [lastError] is still [undefined]: reading [.message] throws *)
          mkDispatched
            (Err (newTypeError "Cannot read properties of undefined (reading 'message')"))
            st log
      end
  | S remaining' =>
      let '(ps, w) := st in
      let '(selected, ps1) := selectBestProxy (clock w) ps in
      match selected with
      | None => mkDispatched (Err (newError noProxyMessage)) (ps1, w) log
      | Some (i, service) =>
          match make i service target (ps1, w) with
          | (Ok resp, (ps2, w2)) =>
              let service2 := deref i service ps2 in
              let ps3 := setServices (<[i := markUsed (clock w2) service2]> (proxyServices ps2)) ps2 in
              let ps4 := recordSuccess service2 ps3 in
              mkDispatched (Ok resp) (ps4, w2) (log ++ [(i, Ok resp)])
          | (Err error, (ps2, w2)) =>
              let service2 := deref i service ps2 in
              let ps3 := recordFailure (clock w2) service2 ps2 in
              proxyGet_loop make remaining' (Some error) target (ps3, w2)
                (log ++ [(i, Err error)])
          end
      end
  end.

(** [proxyGet(url, options)] with [this.makeProxyRequest] bound to [make]. *)
Definition proxyGet_with (make : MakeRequest) (target : string) (st : State) : Dispatched :=
  let '(ps, w) := st in
  if negb (isInitialized ps) then
    mkDispatched (Err (newError notInitializedMessage)) st []
  else if negb (validateURLSafety target) then
    mkDispatched (Err (newError unsafeUrlMessage)) st []
  else
    let upgraded :=
      if validateHTTPS target then Some target
      else
        let httpsUrl := upgradeToHttps target in
        if validateHTTPS httpsUrl then Some httpsUrl else None in
    match upgraded with
    | None => mkDispatched (Err (newError httpsRequiredMessage)) st []
    | Some target' =>
        proxyGet_loop make (length (proxyServices ps)) None target' st []
    end.

(** [proxyGet] as the class defines it. *)
Definition proxyGet : string → State → Dispatched := proxyGet_with makeProxyRequest.


(** The error of the most recent attempt, [lastError] of the loop. *)
Definition lastFailure (tried : list Attempt) : option Error :=
  match last tried with
  | Some (_, Err e) => Some e
  | _ => None
  end.


(** A request method that leaves the entries of [proxyServices] alone, as
    [makeProxyRequest] does. *)
Definition framesEntries (make : MakeRequest) : Prop :=
  ∀ i service target st,
    proxyServices (fst (snd (make i service target st))) = proxyServices (fst st).
End Dispatch.

(** The answer [isServiceAvailable] gives for an entry, and the test of the
    filter of [selectBestProxy]. *)
Definition circuitClosed (now : Z) (service : Service) (ps : t) : bool :=
  fst (isServiceAvailable now service ps).
Definition eligible (now : Z) (ps : t) (service : Service) : bool :=
  circuitClosed now service ps && checkRateLimit service.

(** Candidates listed by growing position, as [indexed] yields them. *)
Definition positioned (l : list (nat * Service)) : Prop :=
  StronglySorted (fun a b => fst a < fst b) l.

Definition setInitialized (b : bool) (ps : t) : t :=
  mk (proxyServices ps) b (failureCount ps) (circuitBreaker ps) (errorHandler ps).

Definition noValidProxyMessage : string := "没有可用的代理服务".

Section Health.
(** [clock] is [Date.now()]. [testProxyConnectivity] is the canary request
    (it catches its own errors and answers with a boolean);
    [validateProxyService] is the check of the injected security manager, of
    which the code tests the truthiness of the result inside a [try]. *)
Context {W : Type}.
Variable clock : W → Z.
Variable testProxyConnectivity : Service → W → bool * W.
Variable validateProxyService : string → W → Outcome bool * W.

(** The [for (const service of this.proxyServices)] loop of
    [performHealthCheck]. *)
Fixpoint healthCheckLoop (services : list Service) (st : t * W) : t * W :=
  match services with
  | [] => st
  | service :: rest =>
      let '(ps, w) := st in
      let '(isHealthy, w1) := testProxyConnectivity service w in
      let ps1 := if negb isHealthy then recordFailure (clock w1) service ps
                 else recordSuccess service ps in
      healthCheckLoop rest (ps1, w1)
  end.

(** [performHealthCheck()] *)
Definition performHealthCheck (st : t * W) : t * W :=
  healthCheckLoop (proxyServices (fst st)) st.

(** The answers of the canary requests of one health check, in order. *)
Fixpoint healthAnswers (services : list Service) (w : W) : list bool :=
  match services with
  | [] => []
  | service :: rest =>
      let '(isHealthy, w1) := testProxyConnectivity service w in
      isHealthy :: healthAnswers rest w1
  end.

(** The loop of [validateProxyServices] that collects [validServices]. *)
Fixpoint validateLoop (services : list Service) (w : W) : list Service * W :=
  match services with
  | [] => ([], w)
  | service :: rest =>
      match validateProxyService (url service) w with
      | (Ok true, w1) =>
          let '(isReachable, w2) := testProxyConnectivity service w1 in
          let '(validServices, w3) := validateLoop rest w2 in
          (if isReachable then service :: validServices else validServices, w3)
      | (_, w1) => validateLoop rest w1
      end
  end.

(** Whether each endpoint passes the two checks of
    [validateProxyServices], in order: the security check returned a truthy
    value without throwing, and the connectivity test then succeeded. Every
    check is made in the world the checks before it have left. *)
Fixpoint validationAnswers (services : list Service) (w : W) : list bool :=
  match services with
  | [] => []
  | service :: rest =>
      match validateProxyService (url service) w with
      | (Ok true, w1) =>
          let '(isReachable, w2) := testProxyConnectivity service w1 in
          isReachable :: validationAnswers rest w2
      | (_, w1) => false :: validationAnswers rest w1
      end
  end.

(** [validateProxyServices()]: the list is replaced before the emptiness
    test. *)
Definition validateProxyServices (st : t * W) : Outcome unit * (t * W) :=
  let '(ps, w) := st in
  let '(validServices, w') := validateLoop (proxyServices ps) w in
  let ps' := setServices validServices ps in
  if length validServices =? 0 then (Err (newError noValidProxyMessage), (ps', w'))
  else (Ok (), (ps', w')).

(** [initialize()]; the two intervals [setupHealthCheck] installs run
    [performHealthCheck] and [resetRateLimits] later on. *)
Definition initialize (st : t * W) : Outcome unit * (t * W) :=
  match validateProxyServices st with
  | (Err e, st') => (Err e, st')
  | (Ok _, (ps', w')) => (Ok (), (setInitialized true ps', w'))
  end.
End Health.

(** The attempts of a dispatch that went to an entry named [n]; [services]
    is the registry the positions of the log refer to. *)
Definition attemptsOn {Response : Type} (services : list Service) (n : string)
    (tried : list (Attempt (Response:=Response))) : nat :=
  length (filter (fun a => name <$> services !! fst a = Some n) tried).

(** The synchronous methods through which the dispatch loop, the health
    check and the two intervals act on the counters, the breakers and the
    rate limiter. *)
Inductive Call :=
| RecordFailure (now : Z) (service : Service)
| RecordSuccess (service : Service)
| IsServiceAvailable (now : Z) (service : Service)
| SelectBestProxy (now : Z)
| ResetRateLimits.

Definition call (c : Call) (ps : t) : t :=
  match c with
  | RecordFailure now service => recordFailure now service ps
  | RecordSuccess service => recordSuccess service ps
  | IsServiceAvailable now service => snd (isServiceAvailable now service ps)
  | SelectBestProxy now => snd (selectBestProxy now ps)
  | ResetRateLimits => resetRateLimits ps
  end.

(** The service after a sequence of calls, oldest first. *)
Definition calls (cs : list Call) (ps : t) : t :=
  fold_left (fun acc c => call c acc) cs ps.

(** Every breaker in the map was set by [recordFailure]: it belongs to a
    name with at least four counted failures and has the five-minute
    cooldown. *)
Definition breakersCounted (ps : t) : Prop :=
  ∀ n b, circuitBreaker ps !! n = Some b →
    4 ≤ default 0 (failureCount ps !! n) ∧
    b = Breaker.mk true (Breaker.openedAt b) 300000.

(** No entry is above its rate limit. *)
Definition withinRateLimits (services : list Service) : Prop :=
  Forall (fun s => (requestCount s ≤ rateLimit s)%Z) services.

End ProxyService.

(** ** DownloadManager *)

Module DownloadManager.

Inductive Status :=
| pending | queued | downloading | processing | completed | retrying | failed | cancelled.

Inductive TaskType := media | pdf | text.

(** A download task object. [url] is set for file tasks, [content] for text
    tasks; [lastUpdate], [error], [completedTime] and [duration] are absent
    until first written. *)
Record Task := mkTask {
  id : string;
  type : TaskType;
  url : option string;
  content : option string;
  filename : string;
  status : Status;
  progress : Z;
  startTime : Z;
  retryCount : nat;
  lastUpdate : option Z;
  error : option string;
  completedTime : option Z;
  duration : option Z
}.

Definition setStatus (s : Status) (now : Z) (d : Task) : Task :=
  mkTask (id d) (type d) (url d) (content d) (filename d) s (progress d) (startTime d)
         (retryCount d) (Some now) (error d) (completedTime d) (duration d).
Definition setError (e : option string) (d : Task) : Task :=
  mkTask (id d) (type d) (url d) (content d) (filename d) (status d) (progress d) (startTime d)
         (retryCount d) (lastUpdate d) e (completedTime d) (duration d).
Definition setCompleted (now : Z) (d : Task) : Task :=
  mkTask (id d) (type d) (url d) (content d) (filename d) (status d) (progress d) (startTime d)
         (retryCount d) (lastUpdate d) (error d) (Some now) (Some (now - startTime d)%Z).
Definition setProgress (p : Z) (d : Task) : Task :=
  mkTask (id d) (type d) (url d) (content d) (filename d) (status d) p (startTime d)
         (retryCount d) (lastUpdate d) (error d) (completedTime d) (duration d).
Definition setRetryCount (n : nat) (d : Task) : Task :=
  mkTask (id d) (type d) (url d) (content d) (filename d) (status d) (progress d) (startTime d)
         n (lastUpdate d) (error d) (completedTime d) (duration d).
(** The four assignments of [retryDownload]. *)
Definition resetForRetry (d : Task) : Task :=
  mkTask (id d) (type d) (url d) (content d) (filename d) pending 0 (startTime d)
         0 (lastUpdate d) None (completedTime d) (duration d).

(** The manager. Task objects live in the store [tasks] and are referred to
    by position: the [downloads] map, the queue, the running transfers and the
    retry timers all hold references to the same objects. *)
Record t := mk {
  tasks : list Task;
  downloads : gmap string nat;
  isInitialized : bool;
  maxConcurrentDownloads : Z;
  activeDownloads : Z;
  downloadQueue : list nat;
  retryAttempts : nat
}.

Definition setTasks (l : list Task) (dm : t) : t :=
  mk l (downloads dm) (isInitialized dm) (maxConcurrentDownloads dm) (activeDownloads dm)
     (downloadQueue dm) (retryAttempts dm).
Definition setDownloads (m : gmap string nat) (dm : t) : t :=
  mk (tasks dm) m (isInitialized dm) (maxConcurrentDownloads dm) (activeDownloads dm)
     (downloadQueue dm) (retryAttempts dm).
Definition setActive (n : Z) (dm : t) : t :=
  mk (tasks dm) (downloads dm) (isInitialized dm) (maxConcurrentDownloads dm) n
     (downloadQueue dm) (retryAttempts dm).
Definition setQueue (q : list nat) (dm : t) : t :=
  mk (tasks dm) (downloads dm) (isInitialized dm) (maxConcurrentDownloads dm) (activeDownloads dm)
     q (retryAttempts dm).

(** The constructor followed by [initialize()]. *)
Definition new : t := mk [] ∅ true 3 0 [] 3.

(** Mutation of the object a reference points to. *)
Definition modify (r : nat) (f : Task → Task) (dm : t) : t :=
  setTasks (alter f r (tasks dm)) dm.

(** [updateDownloadStatus(downloadId, status, error = null)]; an empty
    message is falsy and does not overwrite [error]. *)
Definition updateDownloadStatus (now : Z) (downloadId : string) (s : Status)
    (err : option string) (dm : t) : t :=
  match downloads dm !! downloadId with
  | None => dm
  | Some r =>
      modify r (fun download =>
        let d1 := setStatus s now download in
        let d2 := match err with
                  | Some e => if String.eqb e "" then d1 else setError (Some e) d1
                  | None => d1
                  end in
        match s with
        | completed => setCompleted now d2
        | _ => d2
        end) dm
  end.

(** What [getDownloadProgress] returns. There is no [url] property. *)
Record Progress := mkProgress {
  p_id : string;
  p_type : TaskType;
  p_filename : string;
  p_status : Status;
  p_progress : Z;
  p_startTime : Z;
  p_lastUpdate : option Z;
  p_retryCount : nat;
  p_error : option string;
  p_duration : option Z
}.

(** [x || null] for a string and for a number. *)
Definition orNullS (x : option string) : option string :=
  match x with Some e => if String.eqb e "" then None else Some e | None => None end.
Definition orNullZ (x : option Z) : option Z :=
  match x with Some z => if (z =? 0)%Z then None else Some z | None => None end.

(** The task object stored under an id. *)
Definition lookupTask (downloadId : string) (dm : t) : option Task :=
  r ← downloads dm !! downloadId; tasks dm !! r.

(** [getDownloadProgress(downloadId)] *)
Definition getDownloadProgress (downloadId : string) (dm : t) : option Progress :=
  match lookupTask downloadId dm with
  | None => None
  | Some download =>
      Some (mkProgress (id download) (type download) (filename download) (status download)
              (progress download) (startTime download) (lastUpdate download)
              (retryCount download) (orNullS (error download)) (orNullZ (duration download)))
  end.

(** [generateDownloadId()]: [rand] is the base-36 suffix drawn from
    [Math.random()]. *)
Definition generateDownloadId (now : Z) (rand : string) : string :=
  "download_" +:+ show now +:+ "_" +:+ rand.

(** The scheduler as the event loop sees it: the manager, the
    [executeDownload] activations suspended at their [await] (one reference
    per running transfer) and the pending [setTimeout] callbacks of the retry
    logic. A transfer is in flight from the moment [executeDownload] reaches
    its [await] until its settlement is delivered; when that happens and with
    which outcome is up to the awaited call. The callbacks registered with
    [onProgressUpdate], [onCompletion] and [onError] are taken not to call
    back into the manager. *)
Record Sched := mkSched {
  manager : t;
  inflight : list nat;
  timers : list nat
}.

Definition onManager (f : t → t) (sc : Sched) : Sched :=
  mkSched (f (manager sc)) (inflight sc) (timers sc).

Definition start : Sched := mkSched new [] [].

(** Remove the first occurrence of a reference. *)
Fixpoint removeFirst (r : nat) (l : list nat) : list nat :=
  match l with
  | [] => []
  | x :: rest => if Nat.eqb x r then rest else x :: removeFirst r rest
  end.

(** [executeDownload(downloadTask)] up to its [await]: the slot is taken
    and the status set without consulting the limit; a text task enters
    [processing] as [executeTextDownload] begins. The transfer is then in
    flight. *)
Definition executeDownload (now : Z) (r : nat) (sc : Sched) : Sched :=
  match tasks (manager sc) !! r with
  | None => sc
  | Some downloadTask =>
      let dm1 := setActive (activeDownloads (manager sc) + 1) (manager sc) in
      let dm2 := updateDownloadStatus now (id downloadTask) downloading None dm1 in
      let dm3 := match type downloadTask with
                 | text => updateDownloadStatus now (id downloadTask) processing None dm2
                 | _ => dm2
                 end in
      mkSched dm3 (inflight sc ++ [r]) (timers sc)
  end.

(** [processQueue()] *)
Definition processQueue (now : Z) (sc : Sched) : Sched :=
  match downloadQueue (manager sc) with
  | nextTask :: rest =>
      if (activeDownloads (manager sc) <? maxConcurrentDownloads (manager sc))%Z then
        executeDownload now nextTask (onManager (setQueue rest) sc)
      else sc
  | [] => sc
  end.

(** The [finally] block of [executeDownload]. *)
Definition finally (now : Z) (sc : Sched) : Sched :=
  processQueue now (onManager (fun dm => setActive (activeDownloads dm - 1) dm) sc).

(** [executeDownload] from its [await] on, when the transfer of the task
    referred to by [r] settles with [outcome]. *)
Definition settle (now : Z) (r : nat) (outcome : Outcome unit) (sc : Sched) : Sched :=
  if negb (bool_decide (r ∈ inflight sc)) then sc else
  match tasks (manager sc) !! r with
  | None => sc
  | Some downloadTask =>
      let sc0 := mkSched (manager sc) (removeFirst r (inflight sc)) (timers sc) in
      match outcome with
      | Ok _ =>
          let sc1 := match type downloadTask with
                     | text => onManager (modify r (setProgress 100)) sc0
                     | _ => sc0
                     end in
          finally now
            (onManager (updateDownloadStatus now (id downloadTask) completed None) sc1)
      | Err e =>
          if retryCount downloadTask <? retryAttempts (manager sc) then
            let dm1 := modify r (setRetryCount (retryCount downloadTask + 1)) (manager sc0) in
            let dm2 := updateDownloadStatus now (id downloadTask) retrying None dm1 in
            finally now (mkSched dm2 (inflight sc0) (timers sc0 ++ [r]))
          else
            finally now
              (onManager (updateDownloadStatus now (id downloadTask) failed (Some (message e))) sc0)
      end
  end.

(** The callback the retry logic passed to [setTimeout] runs. *)
Definition timerFires (now : Z) (r : nat) (sc : Sched) : Sched :=
  if negb (bool_decide (r ∈ timers sc)) then sc else
  executeDownload now r (mkSched (manager sc) (inflight sc) (removeFirst r (timers sc))).

(** [queueDownload(downloadTask)] *)
Definition queueDownload (now : Z) (r : nat) (sc : Sched) : Sched :=
  if (activeDownloads (manager sc) <? maxConcurrentDownloads (manager sc))%Z then
    executeDownload now r sc
  else
    match tasks (manager sc) !! r with
    | None => sc
    | Some downloadTask =>
        onManager (fun dm =>
          updateDownloadStatus now (id downloadTask) queued None
            (setQueue (downloadQueue dm ++ [r]) dm)) sc
    end.

Definition notInitializedMessage : string := "下载管理器未初始化".

(** [downloadMediaFile] and [downloadPDFFile] differ in the [type] they
    record only. The promise they return is fulfilled with the id. *)
Definition downloadFile (ty : TaskType) (now : Z) (rand : string)
    (target filename0 : string) (sc : Sched) : Outcome string * Sched :=
  if negb (isInitialized (manager sc)) then (Err (newError notInitializedMessage), sc) else
  let downloadId := generateDownloadId now rand in
  let downloadTask :=
    mkTask downloadId ty (Some target) None filename0 pending 0 now 0 None None None None in
  let r := length (tasks (manager sc)) in
  let sc1 := onManager (fun dm =>
    setDownloads (<[downloadId := r]> (downloads dm)) (setTasks (tasks dm ++ [downloadTask]) dm)) sc in
  (Ok downloadId, queueDownload now r sc1).

Definition downloadMediaFile := downloadFile media.
Definition downloadPDFFile := downloadFile pdf.

(** [downloadTextContent(content, filename)]: the conversion runs at once,
    outside the queue; [converted] is how [executeTextDownload] ends. *)
Definition downloadTextContent (now : Z) (rand : string) (content0 filename0 : string)
    (converted : Outcome unit) (sc : Sched) : Outcome string * Sched :=
  if negb (isInitialized (manager sc)) then (Err (newError notInitializedMessage), sc) else
  let downloadId := generateDownloadId now rand in
  let downloadTask :=
    mkTask downloadId text None (Some content0) filename0 pending 0 now 0 None None None None in
  let r := length (tasks (manager sc)) in
  let sc1 := onManager (fun dm =>
    updateDownloadStatus now downloadId processing None
      (setDownloads (<[downloadId := r]> (downloads dm)) (setTasks (tasks dm ++ [downloadTask]) dm))) sc in
  match converted with
  | Ok _ => (Ok downloadId, onManager (modify r (setProgress 100)) sc1)
  | Err e =>
      let msg := "文本处理失败: " +:+ message e in
      (Err (newError msg), onManager (updateDownloadStatus now downloadId failed (Some msg)) sc1)
  end.

(** [this.downloadQueue.findIndex(task => task.id === downloadId)] followed
    by [splice]: the first queued reference whose object has that id goes. *)
Fixpoint spliceById (store : list Task) (downloadId : string) (q : list nat) : list nat :=
  match q with
  | [] => []
  | r :: rest =>
      match store !! r with
      | Some task => if String.eqb (id task) downloadId then rest
                     else r :: spliceById store downloadId rest
      | None => r :: spliceById store downloadId rest
      end
  end.

(** [cancelDownload(downloadId)] *)
Definition cancelDownload (now : Z) (downloadId : string) (dm : t) : t :=
  match lookupTask downloadId dm with
  | None => dm
  | Some download =>
      match status download with
      | downloading | queued =>
          let dm1 := updateDownloadStatus now downloadId cancelled None dm in
          setQueue (spliceById (tasks dm1) downloadId (downloadQueue dm1)) dm1
      | _ => dm
      end
  end.

(** [retryDownload(downloadId)] *)
Definition retryDownload (now : Z) (downloadId : string) (sc : Sched) : Sched :=
  match downloads (manager sc) !! downloadId with
  | None => sc
  | Some r =>
      match tasks (manager sc) !! r with
      | Some download =>
          match status download with
          | failed => queueDownload now r (onManager (modify r resetForRetry) sc)
          | _ => sc
          end
      | None => sc
      end
  end.

(** The test of [cleanupCompletedDownloads] on one entry. *)
Definition expired (now : Z) (store : list Task) (r : nat) : bool :=
  match store !! r with
  | Some download =>
      match status download, lastUpdate download with
      | completed, Some u | failed, Some u => (24 * 60 * 60 * 1000 <? now - u)%Z
      | _, _ => false
      end
  | None => false
  end.

(** [cleanupCompletedDownloads()] *)
Definition cleanupCompletedDownloads (now : Z) (dm : t) : t :=
  setDownloads (filter (fun kv => expired now (tasks dm) (snd kv) = false) (downloads dm)) dm.

(** [cleanupDownloads()] *)
Definition cleanupDownloads (now : Z) (dm : t) : t :=
  let dm1 := fold_right (fun kv acc => cancelDownload now (fst kv) acc) dm
               (map_to_list (downloads dm)) in
  setActive 0 (setQueue [] dm1).

(** What can happen to the scheduler: the calls of its public methods and
    the settlements and timers of the event loop. Every timestamp is the
    value of [Date.now()] during the event. *)
Inductive Event :=
| Submit (ty : TaskType) (now : Z) (rand target filename0 : string)
| SubmitText (now : Z) (rand content0 filename0 : string) (converted : Outcome unit)
| Settle (now : Z) (r : nat) (outcome : Outcome unit)
| TimerFires (now : Z) (r : nat)
| Cancel (now : Z) (downloadId : string)
| Retry (now : Z) (downloadId : string)
| CleanupCompleted (now : Z)
| Cleanup (now : Z).

Definition step (ev : Event) (sc : Sched) : Sched :=
  match ev with
  | Submit ty now rand target filename0 => snd (downloadFile ty now rand target filename0 sc)
  | SubmitText now rand content0 filename0 converted =>
      snd (downloadTextContent now rand content0 filename0 converted sc)
  | Settle now r outcome => settle now r outcome sc
  | TimerFires now r => timerFires now r sc
  | Cancel now downloadId => onManager (cancelDownload now downloadId) sc
  | Retry now downloadId => retryDownload now downloadId sc
  | CleanupCompleted now => onManager (cleanupCompletedDownloads now) sc
  | Cleanup now => onManager (cleanupDownloads now) sc
  end.

(** The scheduler after a sequence of events, oldest first. *)
Definition run (evs : list Event) (sc : Sched) : Sched :=
  fold_left (fun acc ev => step ev acc) evs sc.

(** Events that, in the state they occur in, leave the entry of
    [downloadId] in the [downloads] map: all but a submission that draws the
    same id again, and an expiry sweep that finds the task filed under the id
    completed or failed and last updated more than 24 hours before. *)
Definition keepsEntry (downloadId : string) (ev : Event) (sc : Sched) : Prop :=
  match ev with
  | Submit _ now rand _ _ => generateDownloadId now rand ≠ downloadId
  | SubmitText now rand _ _ _ => generateDownloadId now rand ≠ downloadId
  | CleanupCompleted now =>
      ∀ r, downloads (manager sc) !! downloadId = Some r →
           expired now (tasks (manager sc)) r = false
  | _ => True
  end.

(** A sequence of events each of which keeps the entry of [downloadId], in
    the state the scheduler is in when it occurs. *)
Fixpoint keepsEntryThroughout (downloadId : string) (evs : list Event) (sc : Sched) : Prop :=
  match evs with
  | [] => True
  | ev :: rest =>
      keepsEntry downloadId ev sc ∧ keepsEntryThroughout downloadId rest (step ev sc)
  end.

(** What no method ever assigns: the id, the type, the target and the file
    name of a task. *)
Definition sameIdentity (d d' : Task) : Prop :=
  id d' = id d ∧ type d' = type d ∧ url d' = url d ∧ filename d' = filename d.

(** Every task object of [dm] is still there in [dm'], under the same
    reference and with the same identity. *)
Definition evolves (dm dm' : t) : Prop :=
  ∀ r d, tasks dm !! r = Some d → ∃ d', tasks dm' !! r = Some d' ∧ sameIdentity d d'.

(** The object that a status update made on behalf of the task at [r]
    writes to: updates go through the [downloads] map by the id of the task. *)
Definition resolves (dm : t) (r : nat) : option nat :=
  d ← tasks dm !! r; downloads dm !! id d.

(** [dm'] has every task object of [dm] and the same [downloads] map. *)
Definition keeps (dm dm' : t) : Prop :=
  evolves dm dm' ∧ downloads dm' = downloads dm.

(** The [downloads] map holds, under [downloadId], a task with that id,
    that target and that file name. *)
Definition stored (downloadId target filename0 : string) (dm : t) : Prop :=
  ∃ r d, downloads dm !! downloadId = Some r ∧ tasks dm !! r = Some d ∧
         id d = downloadId ∧ url d = Some target ∧ filename d = filename0.

(** No queued task writes its status to the object at [r]. This holds
    whenever ids are distinct and the task at [r] is not queued. *)
Definition undisturbed (r : nat) (dm : t) : Prop :=
  Forall (fun r' => resolves dm r' ≠ Some r) (downloadQueue dm).

(** A sequence of events in which a retry timer only ever fires while no
    transfer is in flight. The class as shipped is scheduled in this way:
    the transfer that [executeDownload] awaits is [executeFileDownload], which
    [handleNetworkError] rejects before anything is sent or waited for, so
    every settlement is delivered as a microtask, and the event loop runs the
    callback of a timer only when no microtask is left. The calls of the
    public methods may come at any point, and the settlements are left with
    any outcome. *)
Fixpoint calm (evs : list Event) (sc : Sched) : Prop :=
  match evs with
  | [] => True
  | ev :: rest =>
      match ev with
      | TimerFires _ _ => inflight sc = []
      | _ => True
      end ∧ calm rest (step ev sc)
  end.

(** Events other than the firing of a retry timer. *)
Definition notTimer (ev : Event) : Prop :=
  match ev with TimerFires _ _ => False | _ => True end.

(** Events other than [cleanupDownloads]. *)
Definition notCleanup (ev : Event) : Prop :=
  match ev with Cleanup _ => False | _ => True end.

(** Every entry of the [downloads] map refers to a task object that carries
    the id it is filed under. *)
Definition consistent (dm : t) : Prop :=
  ∀ downloadId r, downloads dm !! downloadId = Some r →
    ∃ d, tasks dm !! r = Some d ∧ id d = downloadId.

(** No task has been retried more often than [retryAttempts] allows. *)
Definition retriesBounded (dm : t) : Prop :=
  Forall (fun d => retryCount d ≤ retryAttempts dm) (tasks dm).

(** [dm'] has the retry limit of [dm] and respects it if [dm] does. *)
Definition keepsRetryBound (dm dm' : t) : Prop :=
  retryAttempts dm' = retryAttempts dm ∧ (retriesBounded dm → retriesBounded dm').

(** The queue holds references to task objects, and no task waits in it
    while a slot is free. *)
Definition workConserving (dm : t) : Prop :=
  Forall (fun r => is_Some (tasks dm !! r)) (downloadQueue dm) ∧
  (downloadQueue dm ≠ [] → (maxConcurrentDownloads dm ≤ activeDownloads dm)%Z).

Section Transfer.
Context {W R : Type}.
Variable wait : nat → W → W.

(** The injected [mobileManager] ([detectDeviceAndBrowser] reads the user
    agent), [ErrorHandler.handleMobileError], and the closure
    [downloadFunction] that performs the transfer. *)
Variable isIOS isAndroid : bool.
Variable handleMobileError : Error → string → string.
Variable downloadFunction : Task → ErrorHandler.RetryFunction W R.

(** [executeFileDownload(downloadTask)] *)
Definition executeFileDownload (downloadTask : Task) (eh : ErrorHandler.t) (w : W)
    : ErrorHandler.Run W R :=
  let operationId := "download-" +:+ id downloadTask in
  let run := ErrorHandler.handleNetworkError wait (newError "Download preparation")
               operationId (downloadFunction downloadTask) eh w in
  match ErrorHandler.settled run with
  | Ok _ => run
  | Err error =>
      if isIOS || isAndroid then
        ErrorHandler.mkRun (Err (newError (handleMobileError error "download")))
          (ErrorHandler.handler run) (ErrorHandler.world run) (ErrorHandler.invocations run)
      else run
  end.
End Transfer.

End DownloadManager.

(** ** Scenarios

    Concrete operations and configurations, taken from the test suites of
    the repository, on which the properties below are exercised. *)

Module Scenarios.

(** A world that only counts invocations, like the [attemptCount] of the
    error-handling tests; waiting does not change it. *)
Definition noWait (delay : nat) (attemptCount : nat) : nat := attemptCount.

(** [mockFailingOperation]: counts the attempt and throws. *)
Definition mockFailingOperation : ErrorHandler.RetryFunction nat string :=
  fun attemptCount => (Err (newError "Request timeout after 30000ms"), S attemptCount).

(** The three endpoints of the failover test of the proxy-service suite. *)
Definition Proxy1 := ProxyService.mkService "Proxy1" "https://proxy1.com/get?url=" "test" 5000 100 0 0.
Definition Proxy2 := ProxyService.mkService "Proxy2" "https://proxy2.com/" "test" 5000 100 1000 0.
Definition Proxy3 := ProxyService.mkService "Proxy3" "https://proxy3.com/?url=" "test" 5000 100 2000 0.

Definition failoverService : ProxyService.t :=
  ProxyService.mk [Proxy1; Proxy2; Proxy3] true ∅ ∅ (ErrorHandler.new true).

(** The single endpoint of the rate-limit test. *)
Definition LimitedProxy :=
  ProxyService.mkService "LimitedProxy" "https://limited-proxy.com/get?url=" "test" 5000 2 0 0.

Definition limitedService : ProxyService.t :=
  ProxyService.mk [LimitedProxy] true ∅ ∅ (ErrorHandler.new true).

(** The same endpoint after two served requests, at its rate limit. *)
Definition exhaustedService : ProxyService.t :=
  ProxyService.mk
    [ProxyService.mkService "LimitedProxy" "https://limited-proxy.com/get?url=" "test" 5000 2
       900 2]
    true ∅ ∅ (ErrorHandler.new true).

(** A world that is just the clock, in milliseconds; waiting advances it. *)
Definition tick (delay : nat) (now : Z) : Z := (now + Z.of_nat delay)%Z.

(** A network on which every fetch succeeds after 20 ms, and the mock
    security manager of the suite, which accepts everything. *)
Definition fetchOk (service : ProxyService.Service) (target : string)
    : ErrorHandler.RetryFunction Z string :=
  fun now => (Ok "<html></html>", (now + 20)%Z).
Definition acceptResponse (response : string) (service : ProxyService.Service) (now : Z)
    : option Error * Z := (None, now).
Definition acceptUrl (target : string) : bool := true.

(** [proxyGet] of the class in that world. *)
Definition proxyGet : string → ProxyService.t * Z → ProxyService.Dispatched :=
  ProxyService.proxyGet (fun now : Z => now) tick fetchOk acceptResponse acceptUrl acceptUrl.

(** A stub for [makeProxyRequest] that returns a response after 20 ms. *)
Definition stubRequest : ProxyService.MakeRequest (W:=Z) (Response:=string) :=
  fun _ _ _ '(ps, now) => (Ok "<html></html>", (ps, (now + 20)%Z)).

(** Four files are submitted, the fourth waits in the queue; the transfer
    of the first fails and is scheduled for a retry, which admits the fourth;
    the other transfers settle; then the retry timer of the first fires. *)
Definition retryAfterSettlement : list DownloadManager.Event :=
  [ DownloadManager.Submit DownloadManager.media 1000 "a" "https://example.com/a.mp4" "a.mp4";
    DownloadManager.Submit DownloadManager.media 1000 "b" "https://example.com/b.mp4" "b.mp4";
    DownloadManager.Submit DownloadManager.media 1000 "c" "https://example.com/c.mp4" "c.mp4";
    DownloadManager.Submit DownloadManager.media 1000 "d" "https://example.com/d.mp4" "d.mp4";
    DownloadManager.Settle 1001 0 (Err (newError "发生未知错误，请稍后重试"));
    DownloadManager.Settle 1001 1 (Err (newError "发生未知错误，请稍后重试"));
    DownloadManager.Settle 1001 2 (Err (newError "发生未知错误，请稍后重试"));
    DownloadManager.Settle 1001 3 (Err (newError "发生未知错误，请稍后重试"));
    DownloadManager.TimerFires 3001 0 ].

(** One file fails and waits for its retry; three more files are started;
    then the retry timer of the first fires. *)
Definition retryWhileFull : list DownloadManager.Event :=
  [ DownloadManager.Submit DownloadManager.media 1000 "a" "https://example.com/a.mp4" "a.mp4";
    DownloadManager.Settle 1500 0 (Err (newError "下载失败: HTTP 503"));
    DownloadManager.Submit DownloadManager.media 2000 "b" "https://example.com/b.mp4" "b.mp4";
    DownloadManager.Submit DownloadManager.media 2100 "c" "https://example.com/c.mp4" "c.mp4";
    DownloadManager.Submit DownloadManager.media 2200 "d" "https://example.com/d.mp4" "d.mp4";
    DownloadManager.TimerFires 3500 0 ].

(** A file is submitted and its transfer is running. *)
Definition oneRunning : DownloadManager.Sched :=
  DownloadManager.run
    [ DownloadManager.Submit DownloadManager.media 1000 "a" "https://example.com/a.mp4" "a.mp4" ]
    DownloadManager.start.

(** Four files are submitted in a row: three transfers run and the fourth
    task waits in the queue. *)
Definition threeRunningOneQueued : DownloadManager.Sched :=
  DownloadManager.run
    [ DownloadManager.Submit DownloadManager.media 1000 "a" "https://example.com/a.mp4" "a.mp4";
      DownloadManager.Submit DownloadManager.media 1100 "b" "https://example.com/b.mp4" "b.mp4";
      DownloadManager.Submit DownloadManager.media 1200 "c" "https://example.com/c.mp4" "c.mp4";
      DownloadManager.Submit DownloadManager.media 1300 "d" "https://example.com/d.mp4" "d.mp4" ]
    DownloadManager.start.

(** A world that adds up the time spent waiting, and an operation that
    throws without touching it. *)
Definition elapse (delay : nat) (elapsed : nat) : nat := elapsed + delay.
Definition alwaysTimesOut : ErrorHandler.RetryFunction nat string :=
  fun elapsed => (Err (newError "Request timeout after 30000ms"), elapsed).

(** ASCII lower-casing, which is what [toLowerCase] does to ASCII keys. *)
Fixpoint asciiLower (s : string) : string :=
  match s with
  | EmptyString => EmptyString
  | String c rest =>
      let n := Ascii.nat_of_ascii c in
      String (if (65 <=? n) && (n <=? 90) then Ascii.ascii_of_nat (n + 32) else c)
             (asciiLower rest)
  end.

(** The object of the data-sanitizing test of the error-handling suite,
    with a nested object added. *)
Definition sensitiveData : ErrorHandler.JsValue :=
  ErrorHandler.JObj
    [ ("username", ErrorHandler.JStr "testuser");
      ("password", ErrorHandler.JStr "secret123");
      ("apiKey", ErrorHandler.JStr "abc123def456");
      ("normalData", ErrorHandler.JStr "this is normal");
      ("nested", ErrorHandler.JObj [ ("Token", ErrorHandler.JStr "xyz"); ("id", ErrorHandler.JNum 7) ]) ].

(** A canary request that takes 50 ms and fails for [Proxy2] only. *)
Definition proxy2Down (service : ProxyService.Service) (now : Z) : bool * Z :=
  (negb (String.eqb (ProxyService.name service) "Proxy2"), (now + 50)%Z).

(** [mockOperation]: throws on the first two attempts, then returns. *)
Definition mockOperation : ErrorHandler.RetryFunction nat string :=
  fun attemptCount =>
    if S attemptCount <? 3 then (Err (newError "Connection timeout"), S attemptCount)
    else (Ok "success", S attemptCount).

End Scenarios.

(** * Properties *)

(** ** Error classification and retry *)

Module ErrorHandlerFacts.
Import ErrorHandler.

Section RetryFacts.
Context {W R : Type}.
Variable wait : nat → W → W.
Implicit Types (eh : t) (w : W) (f : RetryFunction W R).

Lemma attemptsOf_set op n eh : attemptsOf op (setAttempts op n eh) = n.
Proof. unfold attemptsOf, setAttempts; simpl. by rewrite lookup_insert_eq. Qed.

Lemma canRetry_set op e n eh :
  canRetry op (analyzeError e) (setAttempts op n eh)
  = isRetryable (analyzeError e) && (n <? maxRetries eh).
Proof.
  unfold canRetry. rewrite attemptsOf_set. simpl.
  by destruct (isRetryable (analyzeError e)).
Qed.

(** The recursion of [retryOperation] terminates: fuel above the number of
    retries the counter still allows always yields a run. *)
Lemma retryOperation_fuel_total fuel op f eh w calls :
  maxRetries eh - attemptsOf op eh < fuel →
  is_Some (retryOperation_fuel wait fuel op f eh w calls).
Proof.
  revert eh w calls.
  induction fuel as [|fuel IH]; intros eh w calls Hfuel; [lia|].
  simpl. destruct (f _) as [[result|e] w2]; [done|].
  rewrite canRetry_set.
  destruct (isRetryable (analyzeError e)); simpl; [|done].
  destruct (Nat.ltb_spec (attemptsOf op eh + 1) (maxRetries eh)); [|done].
  apply IH. rewrite attemptsOf_set. simpl. lia.
Qed.

Lemma retryOperation_unfold op f eh w run :
  retryOperation_fuel wait (S (maxRetries eh)) op f eh w 0 = Some run →
  retryOperation wait op f eh w = run.
Proof. unfold retryOperation. by intros ->. Qed.

(** Online, a seed error that is not retryable makes [handleNetworkError]
    throw before anything else happens. *)
Lemma handleNetworkError_rejects seed op f eh w :
  isOnline eh = true →
  isRetryable (analyzeError seed) = false →
  handleNetworkError wait seed op f eh w
  = mkRun (Err (newError (generateUserFriendlyMessage (analyzeError seed)))) eh w 0.
Proof.
  intros Honline Hseed. unfold handleNetworkError, canRetry.
  by rewrite Honline, Hseed.
Qed.

(** C2: online, with a seed error whose classification is not retryable,
    [handleNetworkError] never invokes the retry function, throws the
    user-friendly message of the seed's kind, and leaves the handler and the
    world as they were. *)
Theorem handleNetworkError_not_retryable seed op f eh w :
  isOnline eh = true →
  isRetryable (analyzeError seed) = false →
  let run := handleNetworkError wait seed op f eh w in
  invocations run = 0 ∧
  settled run = Err (newError (generateUserFriendlyMessage (analyzeError seed))) ∧
  handler run = eh ∧
  world run = w.
Proof.
  intros Honline Hseed. simpl.
  by rewrite handleNetworkError_rejects.
Qed.

(** Offline, the retry function is not invoked either. *)
Lemma handleNetworkError_offline seed op f eh w :
  isOnline eh = false →
  handleNetworkError wait seed op f eh w = mkRun (Err (newError offlineMessage)) eh w 0.
Proof. intros Hoff. unfold handleNetworkError. by rewrite Hoff. Qed.

(** An operation that always fails is invoked once per value the counter
    can still take below [maxRetries]. *)
Lemma retryOperation_fuel_always_fails fuel op f eh w calls :
  alwaysFails f →
  attemptsOf op eh < maxRetries eh →
  maxRetries eh - attemptsOf op eh ≤ fuel →
  ∃ run e,
    retryOperation_fuel wait fuel op f eh w calls = Some run ∧
    settled run = Err e ∧
    invocations run = calls + (maxRetries eh - attemptsOf op eh) ∧
    attemptsOf op (handler run) = maxRetries eh.
Proof.
  intros Hfail. revert eh w calls.
  induction fuel as [|fuel IH]; intros eh w calls Hlt Hfuel; [lia|].
  simpl.
  destruct (Hfail (wait (retryDelay eh * 2 ^ attemptsOf op eh) w)) as (e & w' & -> & Hretry).
  rewrite canRetry_set, Hretry. simpl.
  destruct (Nat.ltb_spec (attemptsOf op eh + 1) (maxRetries eh)) as [Hmore|Hlast].
  - destruct (IH (setAttempts op (attemptsOf op eh + 1) eh) w' (S calls))
      as (run & e' & Hrun & Hsettled & Hinv & Hcount).
    + rewrite attemptsOf_set. simpl. lia.
    + rewrite attemptsOf_set. simpl. lia.
    + exists run, e'. rewrite attemptsOf_set in Hinv. simpl in *.
      repeat split; [done|done|lia|done].
  - eexists _, e. repeat split; simpl; [lia|].
    rewrite attemptsOf_set. lia.
Qed.

(** C4: run on a fresh operation id with an operation that always fails
    with a retryable error, the coordinator invokes the operation exactly
    [maxRetries] times, not [maxRetries + 1], before the failure is
    propagated. *)
Theorem always_failing_operation_invoked_maxRetries_times seed op f eh w :
  isOnline eh = true →
  isRetryable (analyzeError seed) = true →
  attemptsOf op eh = 0 →
  alwaysFails f →
  let run := handleNetworkError wait seed op f eh w in
  invocations run = maxRetries eh ∧
  invocations run ≠ maxRetries eh + 1 ∧
  ∃ e, settled run = Err e.
Proof.
  intros Honline Hseed Hfresh Hfail. unfold handleNetworkError, canRetry.
  rewrite Honline, Hseed, Hfresh. simpl.
  destruct (Nat.ltb_spec 0 (maxRetries eh)) as [Hpos|Hzero].
  - destruct (retryOperation_fuel_always_fails (S (maxRetries eh)) op f eh w 0 Hfail)
      as (run & e & Hrun & Hsettled & Hinv & _); [lia..|].
    rewrite (retryOperation_unfold _ _ _ _ _ Hrun), Hinv, Hfresh.
    repeat split; [lia..|by exists e].
  - simpl. repeat split; [lia..|eauto].
Qed.

(** An operation that fails [k] times and then succeeds is invoked [k + 1]
    times when the counter leaves room for it; the entry of the operation
    is then deleted. *)
Lemma retryOperation_fuel_fails_then_succeeds k fuel op f eh w calls result :
  failsThenSucceeds wait k result f w →
  attemptsOf op eh + k < maxRetries eh →
  k < fuel →
  ∃ run,
    retryOperation_fuel wait fuel op f eh w calls = Some run ∧
    settled run = Ok result ∧
    retryAttempts (handler run) !! op = None ∧
    invocations run = calls + S k.
Proof.
  revert fuel eh w calls.
  induction k as [|k IH]; intros fuel eh w calls Hop Hroom Hfuel;
    (destruct fuel as [|fuel]; [lia|]); simpl in *.
  - destruct (Hop (retryDelay eh * 2 ^ attemptsOf op eh)) as (w' & ->).
    eexists. repeat split; simpl; [apply lookup_delete_eq | lia].
  - destruct (Hop (retryDelay eh * 2 ^ attemptsOf op eh)) as (e & w' & -> & Hretry & Hrest).
    rewrite canRetry_set, Hretry. simpl.
    destruct (Nat.ltb_spec (attemptsOf op eh + 1) (maxRetries eh)); [|lia].
    destruct (IH fuel (setAttempts op (attemptsOf op eh + 1) eh) w' (S calls) Hrest)
      as (run & Hrun & Hsettled & Hgone & Hinv).
    + rewrite attemptsOf_set. simpl. lia.
    + lia.
    + exists run. repeat split; [done..|lia].
Qed.

(** C9: when the operation fails with a retryable error exactly [k] times
    and then succeeds, with [k < maxRetries] on a fresh counter (in general:
    the counter plus [k] stays below [maxRetries]), [retryOperation] returns
    the success result after [k + 1] invocations and the attempt counter of
    the operation id is removed, so that it reads 0; [handleNetworkError]
    with a retryable seed, online, is that run. *)
Theorem retry_succeeds_after_k_failures k seed op f eh w result :
  attemptsOf op eh + k < maxRetries eh →
  failsThenSucceeds wait k result f w →
  let run := retryOperation wait op f eh w in
  settled run = Ok result ∧
  retryAttempts (handler run) !! op = None ∧
  attemptsOf op (handler run) = 0 ∧
  invocations run = S k ∧
  (isOnline eh = true → isRetryable (analyzeError seed) = true →
   handleNetworkError wait seed op f eh w = run).
Proof.
  intros Hroom Hop.
  destruct (retryOperation_fuel_fails_then_succeeds k (S (maxRetries eh)) op f eh w 0 result Hop)
    as (run & Hrun & Hsettled & Hgone & Hinv); [lia..|].
  simpl. rewrite (retryOperation_unfold _ _ _ _ _ Hrun).
  repeat split; [done|done| |done|].
  - unfold attemptsOf. by rewrite Hgone.
  - intros Honline Hseed. unfold handleNetworkError, canRetry.
    rewrite Honline, Hseed. simpl.
    destruct (Nat.ltb_spec (attemptsOf op eh) (maxRetries eh)); [|lia].
    by apply retryOperation_unfold.
Qed.
End RetryFacts.

(** The seed errors of the two call sites classify as [unknown]. *)
Lemma seed_errors_unknown :
  analyzeError (newError "Download preparation")
    = mkInfo unknown false medium (newError "Download preparation") ∧
  analyzeError (newError "Network request preparation")
    = mkInfo unknown false medium (newError "Network request preparation").
Proof. split; reflexivity. Qed.

Lemma handleNetworkError_not_retryable_witness :
  let run := handleNetworkError Scenarios.noWait (newError "Download preparation")
               "download-download_1_a" Scenarios.mockOperation (new true) 0 in
  invocations run = 0 ∧
  settled run = Err (newError "发生未知错误，请稍后重试").
Proof.
  pose proof (handleNetworkError_not_retryable Scenarios.noWait
                (newError "Download preparation") "download-download_1_a"
                Scenarios.mockOperation (new true) 0 eq_refl eq_refl) as H.
  split; [exact (proj1 H) | exact (proj1 (proj2 H))].
Defined.

Lemma mockFailingOperation_alwaysFails : alwaysFails Scenarios.mockFailingOperation.
Proof. intros n. eexists _, _. split; reflexivity. Qed.

Lemma always_failing_operation_invoked_maxRetries_times_witness :
  invocations (handleNetworkError Scenarios.noWait (newError "Connection timeout")
                 "failing-operation" Scenarios.mockFailingOperation (new true) 0) = 3.
Proof.
  exact (proj1 (always_failing_operation_invoked_maxRetries_times Scenarios.noWait
                  (newError "Connection timeout") "failing-operation"
                  Scenarios.mockFailingOperation (new true) 0
                  eq_refl eq_refl eq_refl mockFailingOperation_alwaysFails)).
Defined.

Lemma mockOperation_failsThenSucceeds :
  failsThenSucceeds Scenarios.noWait 2 "success" Scenarios.mockOperation 0.
Proof.
  simpl. intros d1. eexists _, _. split; [reflexivity|]. split; [reflexivity|].
  intros d2. eexists _, _. split; [reflexivity|]. split; [reflexivity|].
  intros d3. eexists. reflexivity.
Qed.

Lemma retry_succeeds_after_k_failures_witness :
  settled (retryOperation Scenarios.noWait "test-operation" Scenarios.mockOperation (new true) 0)
    = Ok "success" ∧
  invocations (retryOperation Scenarios.noWait "test-operation" Scenarios.mockOperation (new true) 0)
    = 3.
Proof.
  pose proof (retry_succeeds_after_k_failures Scenarios.noWait 2 (newError "Connection timeout")
                "test-operation" Scenarios.mockOperation (new true) 0 "success"
                ltac:(vm_compute; lia) mockOperation_failsThenSucceeds) as H.
  split; [exact (proj1 H) | exact (proj1 (proj2 (proj2 (proj2 H))))].
Defined.

(** *** Classification *)


Lemma analyzeError_504 :
  analyzeError (httpError 504 "Gateway Timeout")
  = mkInfo unknown false medium (newError "HTTP 504: Gateway Timeout").
Proof. reflexivity. Qed.




End ErrorHandlerFacts.

(** ** Endpoint registry, circuit breaker and dispatch *)

Module ProxyServiceFacts.
Import ProxyService.

Implicit Types (ps : t) (service : Service) (now : Z).

(** *** The circuit breaker *)

Lemma recordFailure_count now service ps :
  failureCount (recordFailure now service ps) !! name service
  = Some (default 0 (failureCount ps !! name service) + 1).
Proof.
  unfold recordFailure. destruct (3 <=? _); simpl; by rewrite lookup_insert_eq.
Qed.

(** Below the threshold the breaker map is left alone. *)
Lemma recordFailure_below now service ps :
  default 0 (failureCount ps !! name service) < 3 →
  circuitBreaker (recordFailure now service ps) = circuitBreaker ps.
Proof.
  intros Hlt. unfold recordFailure.
  destruct (Nat.leb_spec 3 (default 0 (failureCount ps !! name service))); [lia|done].
Qed.

(** From the threshold on the circuit is opened at the time of the call. *)
Lemma recordFailure_opens now service ps :
  3 ≤ default 0 (failureCount ps !! name service) →
  circuitBreaker (recordFailure now service ps) !! name service
  = Some (Breaker.mk true now 300000).
Proof.
  intros Hge. unfold recordFailure.
  destruct (Nat.leb_spec 3 (default 0 (failureCount ps !! name service))); [|lia].
  simpl. by rewrite lookup_insert_eq.
Qed.

Lemma recordFailure_services now service ps :
  proxyServices (recordFailure now service ps) = proxyServices ps.
Proof. unfold recordFailure. by destruct (3 <=? _). Qed.

Lemma isServiceAvailable_closed now service ps :
  circuitBreaker ps !! name service = None →
  isServiceAvailable now service ps = (true, ps).
Proof. intros H. unfold isServiceAvailable. by rewrite H. Qed.

Lemma isServiceAvailable_frame now service ps :
  proxyServices (snd (isServiceAvailable now service ps)) = proxyServices ps ∧
  failureCount (snd (isServiceAvailable now service ps)) = failureCount ps.
Proof.
  unfold isServiceAvailable. destruct (circuitBreaker ps !! name service); [|done].
  by destruct (_ <? _)%Z.
Qed.

(** A breaker that has not expired survives the queries on other entries and
    answers [false] for its own. *)
Lemma isServiceAvailable_open now service ps n b :
  circuitBreaker ps !! n = Some b →
  (now - Breaker.openedAt b ≤ Breaker.timeout b)%Z →
  circuitBreaker (snd (isServiceAvailable now service ps)) !! n = Some b ∧
  (name service = n → fst (isServiceAvailable now service ps) = false).
Proof.
  intros Hb Hfresh. unfold isServiceAvailable.
  destruct (decide (name service = n)) as [->|Hne].
  - rewrite Hb. destruct (Z.ltb_spec (Breaker.timeout b) (now - Breaker.openedAt b)); [lia|done].
  - destruct (circuitBreaker ps !! name service) as [b'|]; [|by split].
    destruct (_ <? _)%Z; simpl; [|by split].
    by rewrite lookup_delete_ne.
Qed.

(** *** Selection *)

Lemma indexed_lookup l k i service :
  (i, service) ∈ indexed k l → k ≤ i ∧ l !! (i - k) = Some service.
Proof.
  revert k. induction l as [|s l IH]; intros k Hin; simpl in Hin.
  - by apply elem_of_nil in Hin.
  - apply elem_of_cons in Hin as [Heq|Hin].
    + injection Heq as -> ->. split; [lia|]. by rewrite Nat.sub_diag.
    + apply IH in Hin as [Hle Hl]. split; [lia|].
      replace (i - k) with (S (i - S k)) by lia. done.
Qed.

Lemma filterAvailable_frame now l ps :
  proxyServices (snd (filterAvailable now l ps)) = proxyServices ps ∧
  failureCount (snd (filterAvailable now l ps)) = failureCount ps.
Proof.
  revert ps. induction l as [|[i s] l IH]; intros ps; simpl; [done|].
  pose proof (isServiceAvailable_frame now s ps) as [Hs Hf].
  destruct (isServiceAvailable now s ps) as [a ps1]. simpl in *.
  specialize (IH ps1). destruct (filterAvailable now l ps1) as [kept ps2]. simpl in *.
  destruct IH as [-> ->]. done.
Qed.

Lemma filterAvailable_subset now l ps x :
  x ∈ fst (filterAvailable now l ps) → x ∈ l.
Proof.
  revert ps. induction l as [|[i s] l IH]; intros ps; simpl.
  - intros H. by apply elem_of_nil in H.
  - destruct (isServiceAvailable now s ps) as [a ps1].
    specialize (IH ps1). destruct (filterAvailable now l ps1) as [kept ps2]. simpl in *.
    destruct (a && checkRateLimit s); simpl; intros H.
    + apply elem_of_cons in H as [->|H]; [left|right; auto].
    + right; auto.
Qed.

(** While a circuit is open, no entry of that name passes the filter. *)
Lemma filterAvailable_open now l ps n b :
  circuitBreaker ps !! n = Some b →
  (now - Breaker.openedAt b ≤ Breaker.timeout b)%Z →
  ∀ x, x ∈ fst (filterAvailable now l ps) → name (snd x) ≠ n.
Proof.
  revert ps. induction l as [|[i s] l IH]; intros ps Hb Hfresh x; simpl.
  - intros H. by apply elem_of_nil in H.
  - pose proof (isServiceAvailable_open now s ps n b Hb Hfresh) as [Hkeep Hno].
    destruct (isServiceAvailable now s ps) as [a ps1]. simpl in *.
    specialize (IH ps1 Hkeep Hfresh x).
    destruct (filterAvailable now l ps1) as [kept ps2]. simpl in *.
    destruct (a && checkRateLimit s) eqn:Hk; simpl; intros H; [|auto].
    apply elem_of_cons in H as [->|H]; [|auto].
    simpl. intros Hn. rewrite (Hno Hn) in Hk. discriminate.
Qed.

Lemma fold_lessRecentlyUsed_elem rest first :
  fold_left lessRecentlyUsed rest first ∈ first :: rest.
Proof.
  revert first. induction rest as [|x rest IH]; intros first; simpl; [left|].
  specialize (IH (lessRecentlyUsed first x)).
  apply elem_of_cons in IH as [->|IH]; [|by do 2 right].
  unfold lessRecentlyUsed. destruct (_ <? _)%Z; [right; left | left].
Qed.

(** The selected entry is an available entry of the registry, at its
    position; selection changes the breaker map only. *)
Lemma selectBestProxy_valid now ps i service ps1 :
  selectBestProxy now ps = (Some (i, service), ps1) →
  proxyServices ps !! i = Some service ∧
  proxyServices ps1 = proxyServices ps ∧
  failureCount ps1 = failureCount ps.
Proof.
  unfold selectBestProxy.
  pose proof (filterAvailable_frame now (indexed 0 (proxyServices ps)) ps) as [Hs Hf].
  pose proof (filterAvailable_subset now (indexed 0 (proxyServices ps)) ps) as Hsub.
  destruct (filterAvailable now (indexed 0 (proxyServices ps)) ps) as [[|first rest] ps'];
    simpl in *; intros Heq; [discriminate|].
  injection Heq as Hsel <-. repeat split; [|done..].
  pose proof (fold_lessRecentlyUsed_elem rest first) as Hin. rewrite Hsel in Hin.
  apply Hsub, indexed_lookup in Hin as [_ Hl]. by rewrite Nat.sub_0_r in Hl.
Qed.

(** An entry whose circuit is open is not selected before the cooldown has
    elapsed: [selectBestProxy] returns no entry of that name while
    [now - openedAt ≤ timeout]. *)
Lemma selectBestProxy_skips_open now ps n b i service :
  circuitBreaker ps !! n = Some b →
  (now - Breaker.openedAt b ≤ Breaker.timeout b)%Z →
  fst (selectBestProxy now ps) = Some (i, service) →
  name service ≠ n.
Proof.
  intros Hb Hfresh. unfold selectBestProxy.
  pose proof (filterAvailable_open now (indexed 0 (proxyServices ps)) ps n b Hb Hfresh) as Hopen.
  destruct (filterAvailable now (indexed 0 (proxyServices ps)) ps) as [[|first rest] ps'];
    simpl in *; intros Heq; [discriminate|].
  injection Heq as Hsel.
  pose proof (fold_lessRecentlyUsed_elem rest first) as Hin. rewrite Hsel in Hin.
  apply (Hopen _ Hin).
Qed.

(** C1, the behaviour of the code: three consecutive [recordFailure] calls
    on an endpoint whose failure counter was 0 and whose circuit was closed
    leave the circuit closed. The counter then reads 3, the endpoint is still
    reported available at any time, and a registry that holds only this
    endpoint, under its rate limit, still selects it. *)
Theorem three_failures_leave_circuit_closed ps service t1 t2 t3 now :
  default 0 (failureCount ps !! name service) = 0 →
  circuitBreaker ps !! name service = None →
  let ps' := recordFailure t3 service (recordFailure t2 service (recordFailure t1 service ps)) in
  failureCount ps' !! name service = Some 3 ∧
  circuitBreaker ps' !! name service = None ∧
  isServiceAvailable now service ps' = (true, ps') ∧
  (proxyServices ps = [service] → checkRateLimit service = true →
   fst (selectBestProxy now ps') = Some (0, service)).
Proof.
  intros Hzero Hclosed ps'.
  pose proof (recordFailure_count t1 service ps) as H1. rewrite Hzero in H1.
  pose proof (recordFailure_count t2 service (recordFailure t1 service ps)) as H2.
  rewrite H1 in H2.
  pose proof (recordFailure_count t3 service
                (recordFailure t2 service (recordFailure t1 service ps))) as H3.
  rewrite H2 in H3. simpl in *.
  assert (circuitBreaker ps' = circuitBreaker ps) as Hcb.
  { unfold ps'. rewrite !recordFailure_below; [done| | |].
    - rewrite Hzero. lia.
    - rewrite H1. simpl. lia.
    - rewrite H2. simpl. lia. }
  assert (circuitBreaker ps' !! name service = None) as Hnone by by rewrite Hcb.
  repeat split; [done|done|by apply isServiceAvailable_closed|].
  intros Hone Hrate. unfold selectBestProxy.
  replace (proxyServices ps') with [service]
    by (unfold ps'; by rewrite !recordFailure_services).
  simpl. rewrite isServiceAvailable_closed by done. by rewrite Hrate.
Qed.

(** X20: the fourth consecutive failure is the one that opens the circuit;
    from then on the endpoint is not selected until more than five minutes
    have passed. *)
Lemma four_failures_open_circuit ps service t1 t2 t3 t4 now i chosen :
  default 0 (failureCount ps !! name service) = 0 →
  let ps' := recordFailure t4 service
               (recordFailure t3 service (recordFailure t2 service (recordFailure t1 service ps))) in
  circuitBreaker ps' !! name service = Some (Breaker.mk true t4 300000) ∧
  ((now - t4 ≤ 300000)%Z → fst (selectBestProxy now ps') = Some (i, chosen) →
   name chosen ≠ name service).
Proof.
  intros Hzero ps'.
  pose proof (recordFailure_count t1 service ps) as H1. rewrite Hzero in H1.
  pose proof (recordFailure_count t2 service (recordFailure t1 service ps)) as H2.
  rewrite H1 in H2.
  pose proof (recordFailure_count t3 service
                (recordFailure t2 service (recordFailure t1 service ps))) as H3.
  rewrite H2 in H3. simpl in *.
  assert (circuitBreaker ps' !! name service = Some (Breaker.mk true t4 300000)) as Hopen.
  { unfold ps'. apply recordFailure_opens. rewrite H3. simpl. lia. }
  split; [done|]. intros Hfresh Hsel.
  by apply (selectBestProxy_skips_open now ps' (name service) _ i chosen Hopen).
Qed.

Lemma three_failures_leave_circuit_closed_witness :
  fst (isServiceAvailable 11 Scenarios.Proxy1
         (recordFailure 10 Scenarios.Proxy1
            (recordFailure 10 Scenarios.Proxy1
               (recordFailure 10 Scenarios.Proxy1 Scenarios.failoverService)))) = true.
Proof.
  exact (f_equal fst
           (proj1 (proj2 (proj2
              (three_failures_leave_circuit_closed Scenarios.failoverService Scenarios.Proxy1
                 10 10 10 11 eq_refl eq_refl))))).
Defined.

(** The failover test of the suite: after three recorded failures of
    [Proxy1] the next selection is still [Proxy1]. *)
Example failover_test_selects_Proxy1 :
  fst (selectBestProxy 11
         (recordFailure 10 Scenarios.Proxy1
            (recordFailure 10 Scenarios.Proxy1
               (recordFailure 10 Scenarios.Proxy1 Scenarios.failoverService))))
  = Some (0, Scenarios.Proxy1).
Proof. vm_compute. reflexivity. Qed.

(** *** Dispatch *)

Section DispatchFacts.
Context {W Response : Type}.
Variable clock : W → Z.
Variable wait : nat → W → W.
Variable validateResponse : Response → Service → W → option Error * W.
Variable validateURLSafety validateHTTPS : string → bool.
Implicit Types (make : MakeRequest (W:=W) (Response:=Response)) (w : W).

(** [makeProxyRequest] never reaches its request function: whatever the
    closure would do, the call throws, having recorded one failure. *)
Lemma makeProxyRequest_never_requests requestFunction i service target ps w :
  ∃ msg,
    makeProxyRequest clock wait requestFunction validateResponse i service target (ps, w)
    = (Err (newError msg), (recordFailure (clock w) service ps, w)) ∧
    msg = if ErrorHandler.isOnline (errorHandler ps)
          then "发生未知错误，请稍后重试" else ErrorHandler.offlineMessage.
Proof.
  unfold makeProxyRequest.
  destruct (ErrorHandler.isOnline (errorHandler ps)) eqn:Honline.
  - rewrite ErrorHandlerFacts.handleNetworkError_rejects by done.
    eexists. split; [|reflexivity]. simpl.
    by destruct ps, errorHandler0.
  - rewrite ErrorHandlerFacts.handleNetworkError_offline by done.
    eexists. split; [|reflexivity]. simpl.
    by destruct ps, errorHandler0.
Qed.

Lemma makeProxyRequest_framesEntries requestFunction :
  framesEntries (makeProxyRequest clock wait requestFunction validateResponse).
Proof.
  intros i service target [ps w].
  destruct (makeProxyRequest_never_requests requestFunction i service target ps w)
    as (msg & -> & _).
  simpl. apply recordFailure_services.
Qed.

Lemma recordSuccess_effect service ps :
  proxyServices (recordSuccess service ps) = proxyServices ps ∧
  failureCount (recordSuccess service ps) !! name service = Some 0 ∧
  circuitBreaker (recordSuccess service ps) !! name service = None.
Proof.
  unfold recordSuccess. simpl. by rewrite lookup_insert_eq, lookup_delete_eq.
Qed.

(** C3, amended: every attempt of the dispatch loop updates the failure
    counter of the chosen endpoint — a successful one resets it to 0 and
    clears the circuit, a failed one increments it — but [lastUsed] and
    [requestCount] are written by a successful attempt only: the entry chosen
    then has [lastUsed] equal to the time at which the request returned and
    its [requestCount] raised by one, its other fields and all other entries
    being as before. A failed attempt leaves every entry of the registry as
    it was. *)
Theorem dispatch_attempt_effects make n lastError target ps w log i service ps1 out ps2 w2 :
  framesEntries make →
  selectBestProxy (clock w) ps = (Some (i, service), ps1) →
  make i service target (ps1, w) = (out, (ps2, w2)) →
  let d := proxyGet_loop clock make (S n) lastError target (ps, w) log in
  match out with
  | Ok resp =>
      response d = Ok resp ∧
      attempts d = (log ++ [(i, Ok resp)])%list ∧
      proxyServices (fst (final d))
        = <[i := mkService (name service) (url service) (type service) (timeout service)
                   (rateLimit service) (clock w2) (requestCount service + 1)]>
            (proxyServices ps) ∧
      (∃ used, proxyServices (fst (final d)) !! i = Some used ∧
               lastUsed used = clock w2 ∧
               requestCount used = (requestCount service + 1)%Z) ∧
      failureCount (fst (final d)) !! name service = Some 0 ∧
      circuitBreaker (fst (final d)) !! name service = None
  | Err e =>
      let ps3 := recordFailure (clock w2) service ps2 in
      d = proxyGet_loop clock make n (Some e) target (ps3, w2) (log ++ [(i, Err e)])%list ∧
      proxyServices ps3 = proxyServices ps ∧
      failureCount ps3 !! name service
        = Some (default 0 (failureCount ps2 !! name service) + 1)
  end.
Proof.
  intros Hframe Hsel Hmake.
  destruct (selectBestProxy_valid _ _ _ _ _ Hsel) as (Hi & Hs1 & _).
  pose proof (Hframe i service target (ps1, w)) as Hs2.
  rewrite Hmake in Hs2. simpl in Hs2.
  assert (deref i service ps2 = service) as Hderef.
  { unfold deref. by rewrite Hs2, Hs1, Hi. }
  simpl. rewrite Hsel, Hmake, Hderef.
  destruct out as [resp|e]; simpl.
  - rewrite Hs2, Hs1, lookup_insert_eq, lookup_delete_eq.
    split; [done|]. split; [done|]. split; [done|]. split; [|done].
    eexists. split; [apply list_lookup_insert_eq; by eapply lookup_lt_Some|].
    split; reflexivity.
  - split; [done|]. rewrite recordFailure_services, recordFailure_count.
    by rewrite Hs2, Hs1.
Qed.

Lemma lastFailure_cons (a : Attempt (Response:=Response)) tried :
  tried ≠ [] → lastFailure (a :: tried) = lastFailure tried.
Proof. unfold lastFailure. destruct tried; [done|]. by intros _. Qed.





End DispatchFacts.

(** C3, as stated, fails: a dispatch attempt that fails leaves the
    [requestCount] and [lastUsed] of the chosen endpoint unchanged. *)
Lemma failed_attempt_keeps_requestCount :
  let d := Scenarios.proxyGet "https://example.com/page" (Scenarios.limitedService, 1000%Z) in
  attempts d = [(0, Err (newError "发生未知错误，请稍后重试"))] ∧
  requestCount <$> proxyServices (fst (final d)) !! 0 = Some 0%Z ∧
  lastUsed <$> proxyServices (fst (final d)) !! 0 = Some 0%Z ∧
  failureCount (fst (final d)) !! "LimitedProxy" = Some 2.
Proof. vm_compute. repeat split; reflexivity. Qed.

Lemma stubRequest_framesEntries : framesEntries Scenarios.stubRequest.
Proof. by intros i service target [ps now]. Qed.

Lemma dispatch_attempt_effects_witness :
  let d := proxyGet_loop (fun now : Z => now) Scenarios.stubRequest 1 None
             "https://example.com/page" (Scenarios.limitedService, 1000%Z) [] in
  response d = Ok "<html></html>" ∧
  proxyServices (fst (final d))
  = [mkService "LimitedProxy" "https://limited-proxy.com/get?url=" "test" 5000 2 1020 1].
Proof.
  pose proof (dispatch_attempt_effects (fun now : Z => now) Scenarios.stubRequest 0 None
                "https://example.com/page" Scenarios.limitedService 1000%Z [] 0
                Scenarios.LimitedProxy Scenarios.limitedService (Ok "<html></html>")
                Scenarios.limitedService 1020%Z
                stubRequest_framesEntries eq_refl eq_refl) as H.
  simpl in H. destruct H as (H1 & _ & H3 & _). split; [exact H1 | exact H3].
Defined.


(** With the class's own [makeProxyRequest] every attempt fails: three
    endpoints give three attempts, two of them on the same endpoint. *)
Example proxyGet_failover_run :
  let d := Scenarios.proxyGet "https://example.com/page" (Scenarios.failoverService, 1000%Z) in
  response d = Err (newError (allFailedPrefix +:+ "发生未知错误，请稍后重试")) ∧
  map fst (attempts d) = [0; 0; 1].
Proof. vm_compute. split; reflexivity. Qed.

End ProxyServiceFacts.

(** ** The download scheduler *)

Module DownloadManagerFacts.
Import DownloadManager.

Implicit Types (dm : t) (sc : Sched) (now : Z) (r : nat) (d : Task).

(** *** The transfer of a file *)

(** [executeFileDownload] never reaches its download function: online or
    not, [handleNetworkError] throws before invoking it, so the call settles
    with an error whatever the closure would do. *)
Lemma executeFileDownload_never_downloads {W R : Type} (wait : nat → W → W)
    isIOS isAndroid handleMobileError (downloadFunction : Task → ErrorHandler.RetryFunction W R)
    downloadTask eh (w : W) :
  let run := executeFileDownload wait isIOS isAndroid handleMobileError downloadFunction
               downloadTask eh w in
  ErrorHandler.invocations run = 0 ∧
  isOk (ErrorHandler.settled run) = false ∧
  ErrorHandler.world run = w.
Proof.
  unfold executeFileDownload.
  destruct (ErrorHandler.isOnline eh) eqn:Honline.
  - rewrite ErrorHandlerFacts.handleNetworkError_rejects by done. simpl.
    by destruct (isIOS || isAndroid).
  - rewrite ErrorHandlerFacts.handleNetworkError_offline by done. simpl.
    by destruct (isIOS || isAndroid).
Qed.

(** *** What the methods leave alone *)

Lemma updateDownloadStatus_frame now downloadId s err dm :
  let dm' := updateDownloadStatus now downloadId s err dm in
  activeDownloads dm' = activeDownloads dm ∧
  maxConcurrentDownloads dm' = maxConcurrentDownloads dm ∧
  downloadQueue dm' = downloadQueue dm ∧
  downloads dm' = downloads dm ∧
  retryAttempts dm' = retryAttempts dm ∧
  isInitialized dm' = isInitialized dm.
Proof. unfold updateDownloadStatus. by destruct (downloads dm !! downloadId). Qed.

(** The concurrency gate of a scheduler state: limit and slots in use. *)
Local Abbreviation limit sc := (maxConcurrentDownloads (manager sc)).
Local Abbreviation active sc := (activeDownloads (manager sc)).

Lemma executeDownload_gate now r sc :
  limit (executeDownload now r sc) = limit sc ∧
  (active (executeDownload now r sc) ≤ active sc + 1)%Z.
Proof.
  unfold executeDownload. destruct (tasks (manager sc) !! r) as [d|]; [|simpl; lia].
  simpl.
  destruct (type d); simpl;
    repeat match goal with
           | |- context [updateDownloadStatus ?n ?i ?s ?e ?m] =>
               let H := fresh in
               pose proof (updateDownloadStatus_frame n i s e m) as H; simpl in H;
               destruct H as (-> & -> & _)
           end; simpl; lia.
Qed.

Lemma processQueue_gate now sc :
  limit (processQueue now sc) = limit sc ∧
  ((active sc ≤ limit sc)%Z → (active (processQueue now sc) ≤ limit sc)%Z).
Proof.
  unfold processQueue. destruct (downloadQueue (manager sc)) as [|next rest]; [done|].
  destruct (Z.ltb_spec (active sc) (limit sc)); [|done].
  pose proof (executeDownload_gate now next (onManager (setQueue rest) sc)) as [Hl Ha].
  simpl in *. split; [done|lia].
Qed.

Lemma finally_gate now sc :
  limit (finally now sc) = limit sc ∧
  ((active sc ≤ limit sc)%Z → (active (finally now sc) ≤ limit sc)%Z).
Proof.
  unfold finally.
  pose proof (processQueue_gate now
                (onManager (fun dm => setActive (activeDownloads dm - 1) dm) sc)) as [Hl Ha].
  simpl in *. split; [done|]. intros. apply Ha. lia.
Qed.

(** Rewrite the gate of an [updateDownloadStatus] to that of its argument. *)
Ltac status_frame :=
  repeat match goal with
         | |- context [updateDownloadStatus ?n ?i ?s ?e ?m] =>
             let Ha := fresh in
             let Hl := fresh in
             destruct (updateDownloadStatus_frame n i s e m) as (Ha & Hl & _);
             simpl in Ha, Hl; progress (rewrite ?Ha, ?Hl); clear Ha Hl
         end.

Lemma settle_gate now r outcome sc :
  limit (settle now r outcome sc) = limit sc ∧
  ((active sc ≤ limit sc)%Z → (active (settle now r outcome sc) ≤ limit sc)%Z).
Proof.
  unfold settle. destruct (bool_decide (r ∈ inflight sc)); simpl; [|done].
  destruct (tasks (manager sc) !! r) as [d|]; [|done].
  destruct outcome as [[]|e].
  - match goal with |- context [finally now ?x] =>
      pose proof (finally_gate now x) as [Hl Ha] end.
    rewrite Hl. revert Ha. destruct (type d); simpl; status_frame; simpl; auto.
  - destruct (retryCount d <? retryAttempts (manager sc));
      match goal with |- context [finally now ?x] =>
        pose proof (finally_gate now x) as [Hl Ha] end;
      rewrite Hl; revert Ha; simpl; status_frame; simpl; auto.
Qed.

Lemma queueDownload_gate now r sc :
  limit (queueDownload now r sc) = limit sc ∧
  ((active sc ≤ limit sc)%Z → (active (queueDownload now r sc) ≤ limit sc)%Z).
Proof.
  unfold queueDownload. destruct (Z.ltb_spec (active sc) (limit sc)).
  - pose proof (executeDownload_gate now r sc) as [Hl Ha]. split; [done|lia].
  - destruct (tasks (manager sc) !! r); [|done]. simpl. status_frame. done.
Qed.

Lemma cancelDownload_frame now downloadId dm :
  maxConcurrentDownloads (cancelDownload now downloadId dm) = maxConcurrentDownloads dm ∧
  activeDownloads (cancelDownload now downloadId dm) = activeDownloads dm ∧
  downloads (cancelDownload now downloadId dm) = downloads dm.
Proof.
  unfold cancelDownload. destruct (lookupTask downloadId dm) as [d|]; [|done].
  pose proof (updateDownloadStatus_frame now downloadId cancelled None dm) as H.
  simpl in H. destruct H as (Ha & Hl & _ & Hd & _).
  destruct (status d); simpl; done.
Qed.

(** Every event but the firing of a retry timer keeps the slots in use
    within the limit. *)
Lemma step_gate ev sc :
  notTimer ev →
  (0 ≤ limit sc)%Z → (active sc ≤ limit sc)%Z →
  limit (step ev sc) = limit sc ∧ (active (step ev sc) ≤ limit sc)%Z.
Proof.
  intros Hev Hpos Hact. destruct ev; simpl in *; try done.
  - unfold downloadFile. destruct (isInitialized (manager sc)); simpl; [|done].
    match goal with |- context [queueDownload now ?n ?x] =>
      pose proof (queueDownload_gate now n x) as [Hl Ha] end.
    simpl in *. split; [done|auto].
  - unfold downloadTextContent. destruct (isInitialized (manager sc)); simpl; [|done].
    destruct converted; simpl; status_frame; simpl; done.
  - pose proof (settle_gate now r outcome sc) as [Hl Ha]. auto.
  - by destruct (cancelDownload_frame now downloadId (manager sc)) as (-> & -> & _).
  - unfold retryDownload. destruct (downloads (manager sc) !! downloadId) as [r|]; [|done].
    destruct (tasks (manager sc) !! r) as [d|]; [|done].
    destruct (status d); try done.
    match goal with |- context [queueDownload now ?n ?x] =>
      pose proof (queueDownload_gate now n x) as [Hl Ha] end.
    simpl in *. split; [done|auto].
  - unfold cleanupDownloads. simpl. split; [|done].
    induction (map_to_list (downloads (manager sc))) as [|kv l IH]; simpl; [done|].
    by destruct (cancelDownload_frame now kv.1
                   (fold_right (fun kv acc => cancelDownload now kv.1 acc) (manager sc) l))
      as (-> & _).
Qed.

(** The limit is honoured on every path that checks it: as long as no retry
    timer fires, the slots in use never exceed the limit. *)
Lemma gate_holds_without_timers evs :
  Forall notTimer evs →
  limit (run evs start) = 3%Z ∧ (active (run evs start) ≤ 3)%Z.
Proof.
  unfold run. assert (limit start = 3%Z ∧ (active start ≤ 3)%Z) as Hstart by (simpl; lia).
  revert Hstart. generalize start.
  induction evs as [|ev evs IH]; intros sc Hsc Hall; simpl; [done|].
  inversion Hall as [|? ? Hev Hrest]; subst.
  destruct Hsc as [Hl Ha].
  destruct (step_gate ev sc Hev) as [Hl' Ha']; [lia..|].
  apply IH; [|done]. split; [congruence|lia].
Qed.

(** The slots in use never exceed the number of transfers in flight. *)
Local Abbreviation slack sc :=
  (activeDownloads (manager sc) - Z.of_nat (length (inflight sc)))%Z.

Lemma executeDownload_slack now r sc :
  slack (executeDownload now r sc) = slack sc.
Proof.
  unfold executeDownload. destruct (tasks (manager sc) !! r) as [d|]; [|done].
  simpl. rewrite length_app. simpl.
  destruct (type d); simpl; status_frame; simpl; lia.
Qed.

Lemma processQueue_slack now sc : slack (processQueue now sc) = slack sc.
Proof.
  unfold processQueue. destruct (downloadQueue (manager sc)) as [|next rest]; [done|].
  destruct (_ <? _)%Z; [|done]. by rewrite executeDownload_slack.
Qed.

Lemma finally_slack now sc : slack (finally now sc) = (slack sc - 1)%Z.
Proof. unfold finally. rewrite processQueue_slack. simpl. lia. Qed.

Lemma length_removeFirst r l :
  r ∈ l → S (length (removeFirst r l)) = length l.
Proof.
  induction l as [|x l IH]; simpl; [by intros ?%elem_of_nil|].
  destruct (Nat.eqb_spec x r) as [->|Hne]; [done|].
  intros [?|Hin]%elem_of_cons; [congruence|]. simpl. by rewrite IH.
Qed.

Lemma settle_slack now r outcome sc : slack (settle now r outcome sc) = slack sc.
Proof.
  unfold settle. destruct (bool_decide_reflect (r ∈ inflight sc)) as [Hin|]; simpl; [|done].
  destruct (tasks (manager sc) !! r) as [d|]; [|done].
  pose proof (length_removeFirst r (inflight sc) Hin) as Hlen.
  destruct outcome as [[]|e]; [|destruct (retryCount d <? retryAttempts (manager sc))];
    rewrite finally_slack; simpl; [destruct (type d)|..]; simpl; status_frame; simpl; lia.
Qed.

Lemma queueDownload_slack now r sc : slack (queueDownload now r sc) = slack sc.
Proof.
  unfold queueDownload. destruct (_ <? _)%Z; [apply executeDownload_slack|].
  destruct (tasks (manager sc) !! r); [|done]. simpl. status_frame. done.
Qed.

Lemma step_slack ev sc : (slack sc ≤ 0)%Z → (slack (step ev sc) ≤ 0)%Z.
Proof.
  intros Hs. destruct ev; simpl.
  - unfold downloadFile. destruct (isInitialized (manager sc)); simpl; [|done].
    by rewrite queueDownload_slack.
  - unfold downloadTextContent. destruct (isInitialized (manager sc)); simpl; [|done].
    destruct converted; simpl; status_frame; simpl; done.
  - by rewrite settle_slack.
  - unfold timerFires. destruct (bool_decide (r ∈ timers sc)); simpl; [|done].
    by rewrite executeDownload_slack.
  - by destruct (cancelDownload_frame now downloadId (manager sc)) as (_ & -> & _).
  - unfold retryDownload. destruct (downloads (manager sc) !! downloadId) as [r|]; [|done].
    destruct (tasks (manager sc) !! r) as [d|]; [|done].
    destruct (status d); try done. by rewrite queueDownload_slack.
  - done.
  - lia.
Qed.

(** X12: as long as every retry timer fires while no transfer is in flight,
    the re-entry finds all slots free and the limit is kept: after such a
    sequence of events [maxConcurrentDownloads] is still 3 and
    [activeDownloads] is at most 3. *)
Lemma gate_holds_in_calm_runs evs :
  calm evs start →
  limit (run evs start) = 3%Z ∧ (active (run evs start) ≤ 3)%Z.
Proof.
  unfold run.
  assert (limit start = 3%Z ∧ (active start ≤ 3)%Z ∧ (slack start ≤ 0)%Z) as Hstart
    by (simpl; lia).
  revert Hstart. generalize start.
  induction evs as [|ev evs IH]; intros sc (Hl & Ha & Hs) Hcalm; simpl; [done|].
  destruct Hcalm as [Hev Hrest]. apply IH; [|done].
  assert (limit (step ev sc) = limit sc ∧ (active (step ev sc) ≤ limit sc)%Z) as [Hl' Ha'].
  { destruct ev; try (apply step_gate; [done|lia..]).
    simpl. unfold timerFires. destruct (bool_decide (r ∈ timers sc)); simpl; [|split; [done|lia]].
    match goal with |- context [executeDownload now r ?x] =>
      destruct (executeDownload_gate now r x) as [Hlim Hup] end.
    simpl in *. rewrite Hev in Hs. simpl in Hs. split; [done|lia]. }
  split; [congruence|]. split; [lia|by apply step_slack].
Qed.

Lemma calm_take evs sc k : calm evs sc → calm (take k evs) sc.
Proof.
  revert sc k. induction evs as [|ev evs IH]; intros sc [|k]; simpl; try done.
  intros [Hev Hrest]. split; [done|by apply IH].
Qed.

Lemma run_calm_gate evs sc :
  limit sc = 3%Z → (active sc ≤ 3)%Z → (slack sc ≤ 0)%Z → calm evs sc →
  limit (run evs sc) = 3%Z ∧ (active (run evs sc) ≤ 3)%Z.
Proof.
  unfold run. revert sc.
  induction evs as [|ev evs IH]; intros sc Hl Ha Hs Hcalm; simpl; [done|].
  destruct Hcalm as [Hev Hrest].
  assert (limit (step ev sc) = limit sc ∧ (active (step ev sc) ≤ limit sc)%Z) as [Hl' Ha'].
  { destruct ev; try (apply step_gate; [done|lia..]).
    simpl. unfold timerFires. destruct (bool_decide (r ∈ timers sc)); simpl; [|split; [done|lia]].
    match goal with |- context [executeDownload now r ?x] =>
      destruct (executeDownload_gate now r x) as [Hlim Hup] end.
    simpl in *. rewrite Hev in Hs. simpl in Hs. split; [done|lia]. }
  apply IH; [congruence|lia|by apply step_slack|done].
Qed.

(** C5: at every point of an execution of the scheduler,
    [maxConcurrentDownloads] is 3 and [activeDownloads] is at most
    [maxConcurrentDownloads] — after every submission, settlement, queue
    admission, cancellation, manual retry, clean-up and retry re-entry of
    [executeDownload] — in every sequence of events in which the retry timers
    fire while no transfer is in flight, which is how the class is
    scheduled. The re-entry itself takes its slot without a check; that it
    finds a slot free is due to the transfers having settled by then. *)
Theorem limit_holds_at_every_point evs k :
  calm evs start →
  let sc := run (take k evs) start in
  maxConcurrentDownloads (manager sc) = 3%Z ∧
  (activeDownloads (manager sc) ≤ maxConcurrentDownloads (manager sc))%Z.
Proof.
  intros Hcalm. simpl.
  destruct (run_calm_gate (take k evs) start) as [Hl Ha];
    [done|simpl; lia|simpl; lia|by apply calm_take|].
  rewrite Hl. done.
Qed.

Lemma limit_holds_at_every_point_witness :
  (activeDownloads (manager (run (take 9 Scenarios.retryAfterSettlement) start))
   ≤ maxConcurrentDownloads (manager (run (take 9 Scenarios.retryAfterSettlement) start)))%Z.
Proof.
  assert (calm Scenarios.retryAfterSettlement start) as Hcalm.
  { refine (conj I (conj I (conj I (conj I (conj I (conj I (conj I (conj I (conj _ I))))))))).
    vm_compute. reflexivity. }
  exact (proj2 (limit_holds_at_every_point Scenarios.retryAfterSettlement 9 Hcalm)).
Defined.

(** The admission check that [queueDownload] and [processQueue] make is
    missing on the retry path. Were transfers still pending when a retry timer
    fires — which takes a transfer that lasts, and those of the class never do
    — the re-entry would take a fourth slot. *)
Example retry_reentry_takes_a_slot_unchecked :
  let sc := run Scenarios.retryWhileFull start in
  maxConcurrentDownloads (manager sc) = 3%Z ∧
  activeDownloads (manager sc) = 4%Z ∧
  inflight sc = [1; 2; 3; 0] ∧
  map status (tasks (manager sc)) = [downloading; downloading; downloading; downloading].
Proof. vm_compute. repeat split; reflexivity. Qed.

(** *** Identity of the stored tasks *)

Lemma sameIdentity_refl d : sameIdentity d d.
Proof. by repeat split. Qed.

Lemma sameIdentity_trans d1 d2 d3 :
  sameIdentity d1 d2 → sameIdentity d2 d3 → sameIdentity d1 d3.
Proof. unfold sameIdentity. intros (? & ? & ? & ?) (? & ? & ? & ?). repeat split; congruence. Qed.

Lemma keeps_refl dm : keeps dm dm.
Proof. split; [|done]. intros r d H. exists d. split; [done|apply sameIdentity_refl]. Qed.

Lemma keeps_trans dm1 dm2 dm3 : keeps dm1 dm2 → keeps dm2 dm3 → keeps dm1 dm3.
Proof.
  intros [H12 Hd12] [H23 Hd23]. split; [|congruence].
  intros r d H. destruct (H12 r d H) as (d2 & H2 & Hs2).
  destruct (H23 r d2 H2) as (d3 & H3 & Hs3).
  exists d3. split; [done|by eapply sameIdentity_trans].
Qed.

(** A change of fields other than the store and the map. *)
Lemma keeps_same dm dm' :
  tasks dm' = tasks dm → downloads dm' = downloads dm → keeps dm dm'.
Proof.
  intros Ht Hd. split; [|done]. intros r d H. exists d. rewrite Ht.
  split; [done|apply sameIdentity_refl].
Qed.

Lemma modify_keeps r f dm :
  (∀ d, sameIdentity d (f d)) → keeps dm (modify r f dm).
Proof.
  intros Hf. split; [|done]. intros r' d H. unfold modify. simpl.
  destruct (decide (r = r')) as [->|Hne].
  - exists (f d). rewrite list_lookup_alter_eq, H. split; [done|apply Hf].
  - exists d. rewrite list_lookup_alter_ne by done. split; [done|apply sameIdentity_refl].
Qed.

(** The function [updateDownloadStatus] applies to the task object. *)
Lemma updateDownloadStatus_keeps now downloadId s err dm :
  keeps dm (updateDownloadStatus now downloadId s err dm).
Proof.
  unfold updateDownloadStatus. destruct (downloads dm !! downloadId); [|apply keeps_refl].
  apply modify_keeps. intros d.
  destruct err as [e|]; [destruct (String.eqb e "")|]; destruct s; by repeat split.
Qed.

Lemma executeDownload_keeps now r sc :
  keeps (manager sc) (manager (executeDownload now r sc)).
Proof.
  unfold executeDownload. destruct (tasks (manager sc) !! r) as [d|]; [|apply keeps_refl].
  simpl.
  destruct (type d);
    repeat (eapply keeps_trans; [|apply updateDownloadStatus_keeps]);
    by apply keeps_same.
Qed.

Lemma processQueue_keeps now sc :
  keeps (manager sc) (manager (processQueue now sc)).
Proof.
  unfold processQueue. destruct (downloadQueue (manager sc)) as [|next rest]; [apply keeps_refl|].
  destruct (_ <? _)%Z; [|apply keeps_refl].
  eapply keeps_trans; [|apply executeDownload_keeps]. by apply keeps_same.
Qed.

Lemma finally_keeps now sc : keeps (manager sc) (manager (finally now sc)).
Proof.
  unfold finally. eapply keeps_trans; [|apply processQueue_keeps]. by apply keeps_same.
Qed.

Lemma settle_keeps now r outcome sc :
  keeps (manager sc) (manager (settle now r outcome sc)).
Proof.
  unfold settle. destruct (bool_decide (r ∈ inflight sc)); simpl; [|apply keeps_refl].
  destruct (tasks (manager sc) !! r) as [d|]; [|apply keeps_refl].
  destruct outcome as [[]|e].
  - eapply keeps_trans; [|apply finally_keeps]. simpl.
    eapply keeps_trans; [|apply updateDownloadStatus_keeps].
    destruct (type d); simpl; try apply keeps_refl.
    apply modify_keeps. intros d'. by repeat split.
  - destruct (retryCount d <? retryAttempts (manager sc));
      (eapply keeps_trans; [|apply finally_keeps]); simpl.
    + eapply keeps_trans; [|apply updateDownloadStatus_keeps].
      apply modify_keeps. intros d'. by repeat split.
    + apply updateDownloadStatus_keeps.
Qed.

Lemma queueDownload_keeps now r sc :
  keeps (manager sc) (manager (queueDownload now r sc)).
Proof.
  unfold queueDownload. destruct (_ <? _)%Z; [apply executeDownload_keeps|].
  destruct (tasks (manager sc) !! r) as [d|]; [|apply keeps_refl]. simpl.
  eapply keeps_trans; [|apply updateDownloadStatus_keeps]. by apply keeps_same.
Qed.

Lemma cancelDownload_keeps now downloadId dm : keeps dm (cancelDownload now downloadId dm).
Proof.
  unfold cancelDownload. destruct (lookupTask downloadId dm) as [d|]; [|apply keeps_refl].
  destruct (status d); try apply keeps_refl;
    (eapply keeps_trans; [apply (updateDownloadStatus_keeps now downloadId cancelled None)|]);
    by apply keeps_same.
Qed.

Lemma retryDownload_keeps now downloadId sc :
  keeps (manager sc) (manager (retryDownload now downloadId sc)).
Proof.
  unfold retryDownload. destruct (downloads (manager sc) !! downloadId) as [r|]; [|apply keeps_refl].
  destruct (tasks (manager sc) !! r) as [d|]; [|apply keeps_refl].
  destruct (status d); try apply keeps_refl.
  eapply keeps_trans; [|apply queueDownload_keeps]. simpl.
  apply modify_keeps. intros d'. by repeat split.
Qed.

Lemma cleanupDownloads_keeps now dm : keeps dm (cleanupDownloads now dm).
Proof.
  unfold cleanupDownloads.
  set (cancel := fun kv acc => cancelDownload now kv.1 acc).
  apply (keeps_trans _ (fold_right cancel dm (map_to_list (downloads dm)))); [|by apply keeps_same].
  induction (map_to_list (downloads dm)) as [|kv l IH]; simpl; [apply keeps_refl|].
  eapply keeps_trans; [apply IH|apply cancelDownload_keeps].
Qed.

(** Appending a new object and entering it in the map under [downloadId]. *)
Lemma register_evolves downloadId task dm :
  evolves dm (setDownloads (<[downloadId := length (tasks dm)]> (downloads dm))
                (setTasks (tasks dm ++ [task]) dm)).
Proof.
  intros r d H. exists d. simpl. split; [|apply sameIdentity_refl].
  rewrite lookup_app_l; [done|]. by eapply lookup_lt_Some.
Qed.

Lemma downloadTextContent_evolves downloadId now rand content0 filename0 converted sc :
  let sc' := snd (downloadTextContent now rand content0 filename0 converted sc) in
  evolves (manager sc) (manager sc') ∧
  (generateDownloadId now rand ≠ downloadId →
   downloads (manager sc') !! downloadId = downloads (manager sc) !! downloadId).
Proof.
  unfold downloadTextContent. destruct (isInitialized (manager sc)); simpl;
    [|split; [apply keeps_refl|done]].
  set (task := mkTask (generateDownloadId now rand) text None (Some content0) filename0
                 pending 0 now 0 None None None None).
  set (dm0 := setDownloads (<[generateDownloadId now rand := length (tasks (manager sc))]>
                              (downloads (manager sc)))
                (setTasks (tasks (manager sc) ++ [task]) (manager sc))).
  assert (∀ dm2, keeps (updateDownloadStatus now (generateDownloadId now rand) processing None dm0) dm2 →
            evolves (manager sc) dm2 ∧
            (generateDownloadId now rand ≠ downloadId →
             downloads dm2 !! downloadId = downloads (manager sc) !! downloadId)) as Hbase.
  { intros dm2 [He2 Hd2].
    destruct (updateDownloadStatus_keeps now (generateDownloadId now rand) processing None dm0)
      as [He1 Hd1].
    split.
    - intros r d H.
      destruct (register_evolves (generateDownloadId now rand) task (manager sc) r d H)
        as (d1 & H1 & Hs1).
      destruct (He1 r d1 H1) as (d2 & H2 & Hs2).
      destruct (He2 r d2 H2) as (d3 & H3 & Hs3).
      exists d3. split; [done|].
      eapply sameIdentity_trans; [|done]. by eapply sameIdentity_trans.
    - intros Hne. rewrite Hd2, Hd1. unfold dm0. simpl. by rewrite lookup_insert_ne. }
  destruct converted; apply Hbase.
  - apply (modify_keeps (length (tasks (manager sc))) (setProgress 100)).
    intros d'. by repeat split.
  - apply (updateDownloadStatus_keeps now (generateDownloadId now rand) failed).
Qed.

(** Every event keeps the task objects; every event that satisfies
    [keepsEntry] for an id also keeps the map entry of that id. *)
Lemma step_evolves downloadId ev sc :
  evolves (manager sc) (manager (step ev sc)) ∧
  (keepsEntry downloadId ev sc →
   downloads (manager (step ev sc)) !! downloadId = downloads (manager sc) !! downloadId).
Proof.
  destruct ev; simpl.
  - unfold downloadFile. destruct (isInitialized (manager sc)); simpl;
      [|split; [apply keeps_refl|done]].
    match goal with |- context [queueDownload now ?n ?x] =>
      destruct (queueDownload_keeps now n x) as [He Hd] end.
    split.
    + intros r d H. destruct (register_evolves (generateDownloadId now rand)
        (mkTask (generateDownloadId now rand) ty (Some target) None filename0 pending 0 now 0
           None None None None) (manager sc) r d H) as (d1 & H1 & Hs1).
      destruct (He r d1 H1) as (d2 & H2 & Hs2).
      exists d2. split; [done|by eapply sameIdentity_trans].
    + intros Hne. rewrite Hd. simpl. by rewrite lookup_insert_ne.
  - apply downloadTextContent_evolves.
  - destruct (settle_keeps now r outcome sc) as [He Hd]. split; [done|by rewrite Hd].
  - unfold timerFires. destruct (bool_decide (r ∈ timers sc)); simpl;
      [|split; [apply keeps_refl|done]].
    match goal with |- context [executeDownload now r ?x] =>
      destruct (executeDownload_keeps now r x) as [He Hd] end.
    split; [done|by rewrite Hd].
  - destruct (cancelDownload_keeps now downloadId0 (manager sc)) as [He Hd].
    split; [done|by rewrite Hd].
  - destruct (retryDownload_keeps now downloadId0 sc) as [He Hd]. split; [done|by rewrite Hd].
  - split; [intros r d H; exists d; split; [done|apply sameIdentity_refl]|].
    intros Hfresh.
    destruct (downloads (manager sc) !! downloadId) as [r|] eqn:Hr.
    + apply map_lookup_filter_Some. split; [done|]. simpl. by apply Hfresh.
    + apply map_lookup_filter_None. by left.
  - destruct (cleanupDownloads_keeps now (manager sc)) as [He Hd].
    split; [done|]. intros _. by apply (f_equal (fun m => m !! downloadId)) in Hd.
Qed.

Lemma step_stored downloadId target filename0 ev sc :
  keepsEntry downloadId ev sc →
  stored downloadId target filename0 (manager sc) →
  stored downloadId target filename0 (manager (step ev sc)).
Proof.
  intros Hev (r & d & Hr & Hd & Hid & Hurl & Hname).
  destruct (step_evolves downloadId ev sc) as [He Hkeep].
  destruct (He r d Hd) as (d' & Hd' & Hid' & _ & Hurl' & Hname').
  exists r, d'. rewrite (Hkeep Hev). repeat split; congruence.
Qed.

Lemma run_stored downloadId target filename0 evs sc :
  keepsEntryThroughout downloadId evs sc →
  stored downloadId target filename0 (manager sc) →
  stored downloadId target filename0 (manager (run evs sc)).
Proof.
  unfold run. revert sc. induction evs as [|ev evs IH]; intros sc Hall Hst; simpl; [done|].
  destruct Hall as [Hev Hrest]. apply IH; [done|]. by apply step_stored.
Qed.

(** C10: a submitted file task reads back under the id returned for it
    with the id, the target and the file name it was submitted with — through
    the [downloads] map, and through [getDownloadProgress] for the id and the
    file name it reports — whatever status changes, retries, cancellations,
    clean-ups, expiry sweeps and further submissions follow, as long as no
    sweep finds the task itself expired (completed or failed, and last updated
    more than 24 hours before) and no submission draws the same id again. *)
Theorem submitted_task_reads_back ty now rand target filename0 sc evs :
  isInitialized (manager sc) = true →
  keepsEntryThroughout (generateDownloadId now rand) evs
    (snd (downloadFile ty now rand target filename0 sc)) →
  let downloadId := generateDownloadId now rand in
  let submitted := downloadFile ty now rand target filename0 sc in
  let dm := manager (run evs (snd submitted)) in
  fst submitted = Ok downloadId ∧
  (∃ d, lookupTask downloadId dm = Some d ∧
        id d = downloadId ∧ url d = Some target ∧ filename d = filename0) ∧
  (∃ p, getDownloadProgress downloadId dm = Some p ∧
        p_id p = downloadId ∧ p_filename p = filename0).
Proof.
  intros Hinit Hall. simpl.
  assert (stored (generateDownloadId now rand) target filename0
            (manager (snd (downloadFile ty now rand target filename0 sc)))) as Hst.
  { unfold downloadFile. rewrite Hinit. simpl.
    match goal with |- context [queueDownload now ?n ?x] =>
      destruct (queueDownload_keeps now n x) as [He Hd] end.
    simpl in He.
    destruct (He (length (tasks (manager sc)))
                (mkTask (generateDownloadId now rand) ty (Some target) None filename0 pending 0
                   now 0 None None None None)) as (d & Hd' & Hid & _ & Hurl & Hname).
    { by apply list_lookup_middle. }
    exists (length (tasks (manager sc))), d. rewrite Hd. simpl.
    rewrite lookup_insert_eq. repeat split; done. }
  apply (run_stored _ _ _ evs) in Hst; [|done].
  destruct Hst as (r & d & Hr & Hd & Hid & Hurl & Hname).
  split; [unfold downloadFile; by rewrite Hinit|].
  assert (lookupTask (generateDownloadId now rand)
            (manager (run evs (snd (downloadFile ty now rand target filename0 sc)))) = Some d)
    as Hlook by (unfold lookupTask; rewrite Hr; done).
  split; [by exists d|].
  unfold getDownloadProgress. rewrite Hlook. eexists. split; [reflexivity|]. done.
Qed.

Lemma submitted_task_reads_back_witness :
  let sc := run [ Settle 1500 0 (Err (newError "下载失败: HTTP 503"));
                  Submit media 2000 "b" "https://example.com/b.mp4" "b.mp4";
                  TimerFires 3500 0;
                  Settle 4000 0 (Ok ());
                  CleanupCompleted 60000;
                  Cancel 61000 "download_2000_b" ]
              (snd (downloadMediaFile 1000 "a" "https://example.com/a.mp4" "a.mp4" start)) in
  (url <$> lookupTask "download_1000_a" (manager sc)) = Some (Some "https://example.com/a.mp4") ∧
  (p_filename <$> getDownloadProgress "download_1000_a" (manager sc)) = Some "a.mp4".
Proof.
  assert (keepsEntryThroughout (generateDownloadId 1000 "a")
            [ Settle 1500 0 (Err (newError "下载失败: HTTP 503"));
              Submit media 2000 "b" "https://example.com/b.mp4" "b.mp4";
              TimerFires 3500 0;
              Settle 4000 0 (Ok ());
              CleanupCompleted 60000;
              Cancel 61000 "download_2000_b" ]
            (snd (downloadFile media 1000 "a" "https://example.com/a.mp4" "a.mp4" start)))
    as Hkeep.
  { refine (conj I (conj _ (conj I (conj I (conj _ (conj I I)))))).
    - vm_compute. discriminate.
    - intros r Hr. vm_compute in Hr. injection Hr as <-. vm_compute. reflexivity. }
  pose proof (submitted_task_reads_back media 1000 "a" "https://example.com/a.mp4" "a.mp4" start
                [ Settle 1500 0 (Err (newError "下载失败: HTTP 503"));
                  Submit media 2000 "b" "https://example.com/b.mp4" "b.mp4";
                  TimerFires 3500 0;
                  Settle 4000 0 (Ok ());
                  CleanupCompleted 60000;
                  Cancel 61000 "download_2000_b" ]
                eq_refl Hkeep) as H.
  destruct H as (_ & (d & Hd & _ & Hurl & _) & (p & Hp & _ & Hname)).
  split.
  - change (generateDownloadId 1000 "a") with "download_1000_a" in Hd.
    unfold downloadMediaFile. rewrite Hd. simpl. by rewrite Hurl.
  - change (generateDownloadId 1000 "a") with "download_1000_a" in Hp.
    unfold downloadMediaFile. rewrite Hp. simpl. by rewrite Hname.
Defined.

(** *** Cancellation *)

Lemma lookup_modify_eq r f dm d :
  tasks dm !! r = Some d → tasks (modify r f dm) !! r = Some (f d).
Proof. intros H. unfold modify. simpl. by rewrite list_lookup_alter_eq, H. Qed.

Lemma lookup_modify_ne r r' f dm :
  r ≠ r' → tasks (modify r f dm) !! r' = tasks dm !! r'.
Proof. intros H. unfold modify. simpl. by rewrite list_lookup_alter_ne. Qed.

Lemma resolves_modify r f dm r' :
  (∀ d, id (f d) = id d) → resolves (modify r f dm) r' = resolves dm r'.
Proof.
  intros Hf. unfold resolves. destruct (decide (r = r')) as [->|Hne].
  - unfold modify. simpl. rewrite list_lookup_alter_eq.
    destruct (tasks dm !! r') as [d|]; simpl; [by rewrite Hf|done].
  - by rewrite lookup_modify_ne.
Qed.

Lemma resolves_updateDownloadStatus now downloadId s err dm r' :
  resolves (updateDownloadStatus now downloadId s err dm) r' = resolves dm r'.
Proof.
  unfold updateDownloadStatus. destruct (downloads dm !! downloadId); [|done].
  apply resolves_modify. intros d.
  destruct err as [e|]; [destruct (String.eqb e "")|]; by destruct s.
Qed.

Lemma updateDownloadStatus_other now downloadId s err dm r :
  downloads dm !! downloadId ≠ Some r →
  tasks (updateDownloadStatus now downloadId s err dm) !! r = tasks dm !! r.
Proof.
  intros Hne. unfold updateDownloadStatus.
  destruct (downloads dm !! downloadId) as [r''|]; [|done].
  apply lookup_modify_ne. congruence.
Qed.

(** The task stored under an id takes the status written for that id; its
    id, type and retry count stay. *)
Lemma updateDownloadStatus_status now downloadId s err dm r d :
  downloads dm !! downloadId = Some r →
  tasks dm !! r = Some d →
  ∃ d', tasks (updateDownloadStatus now downloadId s err dm) !! r = Some d' ∧
        status d' = s ∧ id d' = id d ∧ type d' = type d ∧ retryCount d' = retryCount d.
Proof.
  intros Hr Hd. unfold updateDownloadStatus. rewrite Hr.
  eexists. split; [by apply lookup_modify_eq|].
  destruct err as [e|]; [destruct (String.eqb e "")|]; by destruct s.
Qed.

Lemma undisturbed_same r dm dm' :
  downloadQueue dm' = downloadQueue dm →
  (∀ r', resolves dm' r' = resolves dm r') →
  undisturbed r dm → undisturbed r dm'.
Proof.
  unfold undisturbed. intros -> Hres Hall.
  eapply Forall_impl; [exact Hall|]. intros r' H. by rewrite Hres.
Qed.

Lemma undisturbed_updateDownloadStatus now downloadId s err r dm :
  undisturbed r dm → undisturbed r (updateDownloadStatus now downloadId s err dm).
Proof.
  apply undisturbed_same.
  - by destruct (updateDownloadStatus_frame now downloadId s err dm) as (_ & _ & -> & _).
  - apply resolves_updateDownloadStatus.
Qed.

Lemma undisturbed_modify r' f r dm :
  (∀ d, id (f d) = id d) → undisturbed r dm → undisturbed r (modify r' f dm).
Proof. intros Hf. apply undisturbed_same; [done|]. intros. by apply resolves_modify. Qed.

Lemma executeDownload_other now next sc r :
  resolves (manager sc) next ≠ Some r →
  tasks (manager (executeDownload now next sc)) !! r = tasks (manager sc) !! r.
Proof.
  unfold resolves, executeDownload.
  destruct (tasks (manager sc) !! next) as [d|]; simpl; [|done]. intros Hne.
  destruct (type d); simpl; rewrite !updateDownloadStatus_other; try done.
  by destruct (updateDownloadStatus_frame now (id d) downloading None
                 (setActive (activeDownloads (manager sc) + 1) (manager sc)))
    as (_ & _ & _ & -> & _).
Qed.

Lemma processQueue_other now sc r :
  undisturbed r (manager sc) →
  tasks (manager (processQueue now sc)) !! r = tasks (manager sc) !! r.
Proof.
  unfold undisturbed, processQueue.
  destruct (downloadQueue (manager sc)) as [|next rest]; [done|].
  intros Hall. destruct (_ <? _)%Z; [|done].
  rewrite executeDownload_other; [done|].
  by inversion Hall.
Qed.

Lemma finally_other now sc r :
  undisturbed r (manager sc) →
  tasks (manager (finally now sc)) !! r = tasks (manager sc) !! r.
Proof. intros H. unfold finally. by rewrite processQueue_other. Qed.

Lemma spliceById_subset store downloadId q x :
  x ∈ spliceById store downloadId q → x ∈ q.
Proof.
  induction q as [|r q IH]; simpl; [done|].
  destruct (store !! r) as [task|]; [destruct (String.eqb (id task) downloadId)|];
    rewrite ?elem_of_cons; intuition.
Qed.

Lemma lookupTask_stored dm downloadId r d :
  downloads dm !! downloadId = Some r → tasks dm !! r = Some d →
  lookupTask downloadId dm = Some d.
Proof. intros H1 H2. unfold lookupTask. rewrite H1. exact H2. Qed.

(** When the transfer of the task at [r] settles, the status of the task is
    overwritten according to the outcome alone. *)
Lemma settle_status now r outcome sc downloadId d :
  downloads (manager sc) !! downloadId = Some r →
  tasks (manager sc) !! r = Some d →
  id d = downloadId →
  r ∈ inflight sc →
  undisturbed r (manager sc) →
  ∃ d', tasks (manager (settle now r outcome sc)) !! r = Some d' ∧
        status d' = match outcome with
                    | Ok _ => completed
                    | Err _ => if retryCount d <? retryAttempts (manager sc)
                               then retrying else failed
                    end.
Proof.
  intros Hr Hd Hid Hin Hund. unfold settle.
  rewrite bool_decide_eq_true_2 by done. simpl. rewrite Hd, Hid.
  destruct outcome as [[]|e].
  - rewrite finally_other.
    + simpl.
      destruct (type d); simpl;
        match goal with |- context [updateDownloadStatus now downloadId completed None ?x] =>
          edestruct (updateDownloadStatus_status now downloadId completed None x r)
            as (d' & Hd' & Hs & _) end;
        try (by exists d'); try done.
      by apply lookup_modify_eq.
    + simpl. apply undisturbed_updateDownloadStatus.
      destruct (type d); simpl; try done. by apply undisturbed_modify.
  - destruct (retryCount d <? retryAttempts (manager sc)).
    + rewrite finally_other.
      * simpl.
        match goal with |- context [updateDownloadStatus now downloadId retrying None ?x] =>
          edestruct (updateDownloadStatus_status now downloadId retrying None x r)
            as (d' & Hd' & Hs & _) end;
          [done|by apply lookup_modify_eq|by exists d'].
      * simpl. apply undisturbed_updateDownloadStatus. by apply undisturbed_modify.
    + rewrite finally_other.
      * simpl.
        edestruct (updateDownloadStatus_status now downloadId failed (Some (message e))
                     (manager sc) r) as (d' & Hd' & Hs & _); [done..|by exists d'].
      * simpl. by apply undisturbed_updateDownloadStatus.
Qed.

(** C6, the behaviour of the code: cancelling a task whose transfer is
    running marks it [cancelled], but when the transfer settles the status is
    overwritten — with [completed] if the transfer succeeded, with [retrying]
    or [failed] if it did not. The result is not discarded. *)
Theorem cancel_overwritten_on_settlement sc downloadId r d now1 now2 outcome :
  downloads (manager sc) !! downloadId = Some r →
  tasks (manager sc) !! r = Some d →
  id d = downloadId →
  status d = downloading →
  r ∈ inflight sc →
  undisturbed r (manager sc) →
  let sc1 := step (Cancel now1 downloadId) sc in
  let sc2 := step (Settle now2 r outcome) sc1 in
  status <$> lookupTask downloadId (manager sc1) = Some cancelled ∧
  status <$> lookupTask downloadId (manager sc2)
    = Some match outcome with
           | Ok _ => completed
           | Err _ => if retryCount d <? retryAttempts (manager sc) then retrying else failed
           end.
Proof.
  intros Hr Hd Hid Hst Hin Hund. cbn zeta. unfold step.
  assert (lookupTask downloadId (manager sc) = Some d) as Hlook
    by (unfold lookupTask; rewrite Hr; done).
  destruct (updateDownloadStatus_status now1 downloadId cancelled None (manager sc) r d Hr Hd)
    as (d1 & Hd1 & Hs1 & Hid1 & _ & Hrc1).
  destruct (updateDownloadStatus_frame now1 downloadId cancelled None (manager sc))
    as (_ & _ & Hq & Hdl & Hra & _).
  set (sc1 := onManager (cancelDownload now1 downloadId) sc).
  assert (manager sc1
          = setQueue (spliceById (tasks (updateDownloadStatus now1 downloadId cancelled None (manager sc)))
                        downloadId
                        (downloadQueue (updateDownloadStatus now1 downloadId cancelled None (manager sc))))
              (updateDownloadStatus now1 downloadId cancelled None (manager sc))) as Hsc1.
  { unfold sc1, cancelDownload. simpl. by rewrite Hlook, Hst. }
  assert (downloads (manager sc1) !! downloadId = Some r) as Hr1
    by (rewrite Hsc1; simpl; by rewrite Hdl).
  assert (tasks (manager sc1) !! r = Some d1) as Htask1 by (by rewrite Hsc1).
  assert (undisturbed r (manager sc1)) as Hund1.
  { rewrite Hsc1. unfold undisturbed. simpl. apply Forall_forall. intros x Hx.
    apply spliceById_subset in Hx. rewrite Hq in Hx.
    unfold undisturbed in Hund. rewrite Forall_forall in Hund.
    specialize (Hund x Hx).
    assert (resolves (setQueue
              (spliceById (tasks (updateDownloadStatus now1 downloadId cancelled None (manager sc)))
                 downloadId
                 (downloadQueue (updateDownloadStatus now1 downloadId cancelled None (manager sc))))
              (updateDownloadStatus now1 downloadId cancelled None (manager sc))) x
            = resolves (manager sc) x) as ->; [|done].
    by rewrite <- (resolves_updateDownloadStatus now1 downloadId cancelled None (manager sc) x). }
  split.
  - rewrite (lookupTask_stored _ _ _ _ Hr1 Htask1). simpl. by rewrite Hs1.
  - destruct (settle_status now2 r outcome sc1 downloadId d1 Hr1 Htask1) as (d2 & Hd2 & Hs2);
      [congruence|done|done|].
    destruct (settle_keeps now2 r outcome sc1) as [_ Hdl2].
    rewrite <- Hdl2 in Hr1.
    rewrite (lookupTask_stored _ _ _ _ Hr1 Hd2). simpl. rewrite Hs2, Hrc1.
    replace (retryAttempts (manager sc1)) with (retryAttempts (manager sc)); [done|].
    by rewrite Hsc1.
Qed.

Lemma cancel_overwritten_on_settlement_witness :
  let sc1 := step (Cancel 1200 "download_1000_a") Scenarios.oneRunning in
  status <$> lookupTask "download_1000_a" (manager sc1) = Some cancelled ∧
  status <$> lookupTask "download_1000_a" (manager (step (Settle 5000 0 (Ok ())) sc1))
    = Some completed.
Proof.
  exact (cancel_overwritten_on_settlement Scenarios.oneRunning "download_1000_a" 0
           (mkTask "download_1000_a" media (Some "https://example.com/a.mp4") None "a.mp4"
              downloading 0 1000 0 (Some 1000%Z) None None None)
           1200 5000 (Ok ())
           eq_refl eq_refl eq_refl eq_refl ltac:(vm_compute; left) ltac:(constructor)).
Defined.

(** The same cancellation when the transfer later fails: the task goes on to
    [retrying]. *)
Example cancelled_task_retries :
  let sc1 := step (Cancel 1200 "download_1000_a") Scenarios.oneRunning in
  let sc2 := step (Settle 5000 0 (Err (newError "发生未知错误，请稍后重试"))) sc1 in
  status <$> lookupTask "download_1000_a" (manager sc2) = Some retrying ∧ timers sc2 = [0].
Proof. vm_compute. split; reflexivity. Qed.

End DownloadManagerFacts.

(** * Further properties of the code *)

(** ** ErrorHandler: retry budget, backoff, stale counters, sanitizing *)

Module ErrorHandlerExtras.
Import ErrorHandler.

Section RetryExtras.
Context {W R : Type}.
Variable wait : nat → W → W.
Implicit Types (eh : t) (w : W) (f : RetryFunction W R).

Lemma attemptsOf_setAttempts op n eh : attemptsOf op (setAttempts op n eh) = n.
Proof. unfold attemptsOf, setAttempts; simpl. by rewrite lookup_insert_eq. Qed.

Lemma canRetry_setAttempts op e n eh :
  canRetry op (analyzeError e) (setAttempts op n eh)
  = isRetryable (analyzeError e) && (n <? maxRetries eh).
Proof.
  unfold canRetry. rewrite attemptsOf_setAttempts. simpl.
  by destruct (isRetryable (analyzeError e)).
Qed.

(** Whatever the operation does, a run of [retryOperation_fuel] with enough
    fuel invokes it between once and [max 1 (maxRetries - attempts)] times and
    leaves the configuration of the handler alone. *)
Lemma retryOperation_fuel_budget fuel op f eh w calls :
  maxRetries eh - attemptsOf op eh < fuel →
  ∃ run,
    retryOperation_fuel wait fuel op f eh w calls = Some run ∧
    calls + 1 ≤ invocations run ∧
    invocations run ≤ calls + Nat.max 1 (maxRetries eh - attemptsOf op eh) ∧
    maxRetries (handler run) = maxRetries eh ∧
    retryDelay (handler run) = retryDelay eh ∧
    isOnline (handler run) = isOnline eh.
Proof.
  revert eh w calls.
  induction fuel as [|fuel IH]; intros eh w calls Hfuel; [lia|].
  simpl. destruct (f _) as [[result|e] w2].
  - eexists. split; [done|]. simpl. repeat split; lia.
  - rewrite canRetry_setAttempts.
    destruct (isRetryable (analyzeError e)); simpl.
    + destruct (Nat.ltb_spec (attemptsOf op eh + 1) (maxRetries eh)).
      * destruct (IH (setAttempts op (attemptsOf op eh + 1) eh) w2 (S calls))
          as (run & Hrun & Hlo & Hhi & Hm & Hd & Ho).
        { rewrite attemptsOf_setAttempts. simpl. lia. }
        rewrite attemptsOf_setAttempts in Hhi. simpl in *.
        exists run. repeat split; [done|lia|lia|done..].
      * eexists. split; [done|]. simpl. repeat split; lia.
    + eexists. split; [done|]. simpl. repeat split; lia.
Qed.

(** X1: whatever the retried operation does, [retryOperation] invokes it at
    least once and at most [max 1 (maxRetries - attempts)] times, and
    [handleNetworkError] invokes it at most [maxRetries - attempts] times. *)
Theorem retry_budget_never_exceeded seed op f eh w :
  1 ≤ invocations (retryOperation wait op f eh w) ∧
  invocations (retryOperation wait op f eh w)
    ≤ Nat.max 1 (maxRetries eh - attemptsOf op eh) ∧
  invocations (handleNetworkError wait seed op f eh w) ≤ maxRetries eh - attemptsOf op eh.
Proof.
  destruct (retryOperation_fuel_budget (S (maxRetries eh)) op f eh w 0)
    as (run & Hrun & Hlo & Hhi & _); [lia|].
  assert (retryOperation wait op f eh w = run) as Heq
    by (unfold retryOperation; by rewrite Hrun).
  rewrite Heq. split; [lia|]. split; [lia|].
  unfold handleNetworkError, canRetry.
  destruct (isOnline eh); simpl; [|lia].
  destruct (isRetryable (analyzeError seed)); simpl; [|lia].
  destruct (Nat.ltb_spec (attemptsOf op eh) (maxRetries eh)); simpl; [|lia].
  rewrite Heq. lia.
Qed.

Lemma retryOperation_run op f eh w run :
  retryOperation_fuel wait (S (maxRetries eh)) op f eh w 0 = Some run →
  retryOperation wait op f eh w = run.
Proof. unfold retryOperation. by intros ->. Qed.

(** X2: a terminal failure does not clear the attempt counter. After an
    operation has failed through its whole budget, the counter of its id
    stands at [maxRetries]; any later [handleNetworkError] under the same id
    then throws without invoking its operation at all, until
    [resetRetryCount] is called for the id. *)
Theorem terminal_failure_keeps_counter seed op f eh w :
  isOnline eh = true →
  isRetryable (analyzeError seed) = true →
  attemptsOf op eh = 0 →
  0 < maxRetries eh →
  alwaysFails f →
  let eh' := handler (handleNetworkError wait seed op f eh w) in
  attemptsOf op eh' = maxRetries eh ∧
  (∀ seed' (g : RetryFunction W R) w',
     invocations (handleNetworkError wait seed' op g eh' w') = 0 ∧
     isOk (settled (handleNetworkError wait seed' op g eh' w')) = false) ∧
  attemptsOf op (resetRetryCount op eh') = 0.
Proof.
  intros Honline Hseed Hfresh Hpos Hfail.
  assert (handleNetworkError wait seed op f eh w = retryOperation wait op f eh w) as ->.
  { unfold handleNetworkError, canRetry. rewrite Honline, Hseed, Hfresh. simpl.
    destruct (Nat.ltb_spec 0 (maxRetries eh)); [done|lia]. }
  destruct (ErrorHandlerFacts.retryOperation_fuel_always_fails wait (S (maxRetries eh))
              op f eh w 0 Hfail) as (run & e & Hrun & _ & _ & Hcount); [lia..|].
  destruct (retryOperation_fuel_budget (S (maxRetries eh)) op f eh w 0)
    as (run' & Hrun' & _ & _ & Hmax & _ & Hon); [lia|].
  rewrite Hrun in Hrun'. injection Hrun' as <-.
  rewrite (retryOperation_run _ _ _ _ _ Hrun). simpl.
  split; [done|]. split.
  - intros seed' g w'. unfold handleNetworkError, canRetry.
    rewrite Hon, Honline, Hcount, Hmax. simpl.
    rewrite Nat.ltb_irrefl. by destruct (isRetryable (analyzeError seed')).
  - unfold resetRetryCount, attemptsOf, deleteAttempts. simpl.
    by rewrite lookup_delete_eq.
Qed.

Lemma backoff_cons eh first count :
  backoff eh first (S count) = retryDelay eh * 2 ^ first :: backoff eh (S first) count.
Proof. reflexivity. Qed.

Lemma retryOperation_fuel_backoff fuel op f eh w calls :
  alwaysFails f →
  attemptsOf op eh < maxRetries eh →
  maxRetries eh - attemptsOf op eh ≤ fuel →
  ∃ run,
    retryOperation_fuel wait fuel op f eh w calls = Some run ∧
    world run
    = afterWaits wait f (backoff eh (attemptsOf op eh) (maxRetries eh - attemptsOf op eh)) w.
Proof.
  intros Hfail. revert eh w calls.
  induction fuel as [|fuel IH]; intros eh w calls Hlt Hfuel; [lia|].
  simpl.
  destruct (Hfail (wait (retryDelay eh * 2 ^ attemptsOf op eh) w)) as (e & w' & Hf & Hretry).
  rewrite Hf, canRetry_setAttempts, Hretry. simpl.
  replace (maxRetries eh - attemptsOf op eh)
    with (S (maxRetries eh - (attemptsOf op eh + 1))) by lia.
  rewrite backoff_cons. unfold afterWaits at 1. simpl. rewrite Hf. simpl.
  destruct (Nat.ltb_spec (attemptsOf op eh + 1) (maxRetries eh)) as [Hmore|Hlast].
  - destruct (IH (setAttempts op (attemptsOf op eh + 1) eh) w' (S calls))
      as (run & Hrun & Hworld).
    + rewrite attemptsOf_setAttempts. simpl. lia.
    + rewrite attemptsOf_setAttempts. simpl. lia.
    + exists run. split; [done|]. rewrite Hworld, attemptsOf_setAttempts. simpl.
      by replace (S (attemptsOf op eh)) with (attemptsOf op eh + 1) by lia.
  - eexists. split; [done|]. simpl.
    by replace (maxRetries eh - (attemptsOf op eh + 1)) with 0 by lia.
Qed.

(** X3: exponential backoff. An operation that keeps failing is invoked
    after waits of [retryDelay * 2 ^ a], [retryDelay * 2 ^ (a + 1)], ... up to
    [retryDelay * 2 ^ (maxRetries - 1)], where [a] is the attempt counter at
    the start: each wait is twice the one before. *)
Theorem backoff_doubles_between_attempts op f eh w :
  alwaysFails f →
  attemptsOf op eh < maxRetries eh →
  world (retryOperation wait op f eh w)
  = afterWaits wait f (backoff eh (attemptsOf op eh) (maxRetries eh - attemptsOf op eh)) w.
Proof.
  intros Hfail Hlt.
  destruct (retryOperation_fuel_backoff (S (maxRetries eh)) op f eh w 0 Hfail Hlt)
    as (run & Hrun & Hworld); [lia|].
  by rewrite (retryOperation_run _ _ _ _ _ Hrun).
Qed.
End RetryExtras.

Lemma alwaysTimesOut_alwaysFails : alwaysFails Scenarios.alwaysTimesOut.
Proof. intros n. eexists _, _. split; reflexivity. Qed.

Lemma terminal_failure_keeps_counter_witness :
  attemptsOf "failing-operation"
    (handler (handleNetworkError Scenarios.noWait (newError "Connection timeout")
                "failing-operation" Scenarios.mockFailingOperation (new true) 0)) = 3.
Proof.
  exact (proj1 (terminal_failure_keeps_counter Scenarios.noWait
                  (newError "Connection timeout") "failing-operation"
                  Scenarios.mockFailingOperation (new true) 0
                  eq_refl eq_refl eq_refl ltac:(vm_compute; lia)
                  ErrorHandlerFacts.mockFailingOperation_alwaysFails)).
Defined.

Lemma backoff_doubles_between_attempts_witness :
  world (retryOperation Scenarios.elapse "failing-operation" Scenarios.alwaysTimesOut
           (new true) 0) = 1000 + 2000 + 4000.
Proof.
  exact (backoff_doubles_between_attempts Scenarios.elapse "failing-operation"
           Scenarios.alwaysTimesOut (new true) 0
           alwaysTimesOut_alwaysFails ltac:(vm_compute; lia)).
Defined.

(** *** Sanitizing *)

Section SanitizeFacts.
Variable toLowerCase : string → string.

(** Induction over plain data, with the hypothesis for every element of an
    array and every property value of an object. *)
Lemma JsValue_nested_ind (P : JsValue → Prop) :
  P JUndefined → P JNull → (∀ b, P (JBool b)) → (∀ n, P (JNum n)) → (∀ s, P (JStr s)) →
  (∀ items, Forall P items → P (JArr items)) →
  (∀ props, Forall (fun kv => P (snd kv)) props → P (JObj props)) →
  ∀ v, P v.
Proof.
  intros Hu Hn Hb Hz Hs Ha Ho.
  fix IH 1. intros [| |b|n|s|items|props];
    [exact Hu|exact Hn|apply Hb|apply Hz|apply Hs| |].
  - apply Ha. induction items as [|x items IHl]; constructor; [apply IH|exact IHl].
  - apply Ho. induction props as [|[k x] props IHl]; constructor; [apply IH|exact IHl].
Qed.

(** The entries [sanitizeData] makes of an array, from index [i] on. *)
Lemma sanitized_entries (items : list JsValue) :
  Forall (fun x => sanitized toLowerCase (sanitizeData toLowerCase x)) items →
  ∀ i,
    sanitized toLowerCase
      (JObj ((fix entries (i : nat) (l : list JsValue) : list (string * JsValue) :=
                match l with
                | [] => []
                | x :: rest =>
                    (show (Z.of_nat i),
                     if isSensitive toLowerCase (show (Z.of_nat i)) then redactedMark
                     else sanitizeData toLowerCase x)
                    :: entries (S i) rest
                end) i items)).
Proof.
  induction 1 as [|x items Hx Hitems IH]; intros i; simpl; [done|].
  split; [|apply IH].
  by destruct (isSensitive toLowerCase (show (Z.of_nat i))).
Qed.

Lemma sanitizeData_sanitized v : sanitized toLowerCase (sanitizeData toLowerCase v).
Proof.
  induction v as [| | | | |items IH|props IH] using JsValue_nested_ind; simpl; try done.
  - by apply sanitized_entries.
  - induction IH as [|[k x] props Hx Hprops IHl]; simpl; [done|].
    split; [|exact IHl]. by destruct (isSensitive toLowerCase k).
Qed.

(** Sanitizing a value that is already sanitized changes nothing. *)
Lemma sanitizeData_fixed v : sanitized toLowerCase v → sanitizeData toLowerCase v = v.
Proof.
  induction v as [| | | | |items IH|props IH] using JsValue_nested_ind; simpl; try done.
  intros Hs. f_equal.
  induction IH as [|[k x] props Hx Hprops IHl]; simpl in *; [done|].
  destruct Hs as [Hk Hrest]. rewrite IHl by done. f_equal. f_equal.
  destruct (isSensitive toLowerCase k); [by rewrite Hk|by apply Hx].
Qed.

(** X4: [sanitizeData] redacts at every depth and is idempotent. In its
    result every property whose lower-cased key contains one of the sensitive
    words holds "[REDACTED]", however deeply nested, arrays included (they
    come back as objects keyed by index); sanitizing the result again returns
    it unchanged. A value that is not an object or array is returned as it
    is. *)
Theorem sanitizeData_redacts_every_depth v :
  sanitized toLowerCase (sanitizeData toLowerCase v) ∧
  sanitizeData toLowerCase (sanitizeData toLowerCase v) = sanitizeData toLowerCase v ∧
  (∀ key value props,
     sanitizeData toLowerCase v = JObj props → (key, value) ∈ props →
     isSensitive toLowerCase key = true → value = JStr "[REDACTED]").
Proof.
  pose proof (sanitizeData_sanitized v) as Hs.
  split; [done|]. split; [by apply sanitizeData_fixed|].
  intros key value props Heq Hin Hkey. rewrite Heq in Hs. simpl in Hs. clear Heq.
  induction props as [|kv props IH]; [by apply elem_of_nil in Hin|].
  destruct Hs as [Hk Hrest].
  apply elem_of_cons in Hin as [<-|Hin]; [|by apply IH].
  simpl in Hk. by rewrite Hkey in Hk.
Qed.
End SanitizeFacts.

(** The sanitizing test of the suite, with a nested object: the password,
    the API key and the nested token are redacted, the rest is kept. *)
Example sanitizeData_test :
  sanitizeData Scenarios.asciiLower Scenarios.sensitiveData
  = JObj [ ("username", JStr "testuser");
           ("password", JStr "[REDACTED]");
           ("apiKey", JStr "[REDACTED]");
           ("normalData", JStr "this is normal");
           ("nested", JObj [ ("Token", JStr "[REDACTED]"); ("id", JNum 7) ]) ].
Proof. vm_compute. reflexivity. Qed.

End ErrorHandlerExtras.

(** ** ProxyService: selection, rate limits, circuits, health checks *)

Module ProxyServiceExtras.
Import ProxyService.

Implicit Types (ps : t) (service : Service) (now : Z).

(** *** Selection *)

(** The queries of the filter delete expired breakers only, which does not
    change the answer for any entry. *)
Lemma circuitClosed_after_query now service service' ps :
  circuitClosed now service (snd (isServiceAvailable now service' ps))
  = circuitClosed now service ps.
Proof.
  unfold circuitClosed, isServiceAvailable.
  destruct (circuitBreaker ps !! name service') as [b'|] eqn:Hb'; [|done].
  destruct (Z.ltb_spec (Breaker.timeout b') (now - Breaker.openedAt b')); [|done].
  simpl. destruct (decide (name service = name service')) as [Heq|Hne].
  - rewrite Heq, lookup_delete_eq, Hb'.
    destruct (Z.ltb_spec (Breaker.timeout b') (now - Breaker.openedAt b')); [done|lia].
  - rewrite lookup_delete_ne by congruence.
    destruct (circuitBreaker ps !! name service) as [b|]; [|done].
    by destruct (_ <? _)%Z.
Qed.

Lemma filterAvailable_filter now l ps :
  fst (filterAvailable now l ps) = List.filter (fun x => eligible now ps (snd x)) l.
Proof.
  revert ps. induction l as [|[i service] l IH]; intros ps; simpl; [done|].
  assert (∀ s', circuitClosed now s' (snd (isServiceAvailable now service ps))
                = circuitClosed now s' ps) as Hstable
    by (intros; apply circuitClosed_after_query).
  assert (eligible now ps service
          = fst (isServiceAvailable now service ps) && checkRateLimit service) as Hhead
    by reflexivity.
  destruct (isServiceAvailable now service ps) as [a ps1].
  specialize (IH ps1). destruct (filterAvailable now l ps1) as [kept ps2].
  cbn [fst snd] in *.
  assert (kept = List.filter (fun x => eligible now ps (snd x)) l) as ->.
  { rewrite IH. apply List.filter_ext. intros [j s']. unfold eligible. cbn [snd].
    by rewrite Hstable. }
  rewrite Hhead. by destruct (a && checkRateLimit service).
Qed.

Lemma indexed_lower_bound k l x : x ∈ indexed k l → k ≤ fst x.
Proof.
  revert k. induction l as [|s l IH]; intros k; simpl; [by intros ?%elem_of_nil|].
  intros [->|Hin]%elem_of_cons; [done|]. apply IH in Hin. lia.
Qed.

Lemma indexed_positioned k l : positioned (indexed k l).
Proof.
  revert k. induction l as [|s l IH]; intros k; simpl; constructor; [apply IH|].
  apply Forall_forall. intros x Hx. apply indexed_lower_bound in Hx. simpl. lia.
Qed.

Lemma filter_positioned (f : nat * Service → bool) l :
  positioned l → positioned (List.filter f l).
Proof.
  induction 1 as [|x l Hl IH Hx]; simpl; [constructor|].
  destruct (f x); [|done]. constructor; [done|].
  apply Forall_forall. intros y Hy. apply list_elem_of_In, List.filter_In in Hy as [Hy _].
  rewrite Forall_forall in Hx. apply Hx. by apply list_elem_of_In.
Qed.

(** The [reduce] keeps the first of the least recently used candidates. *)
Lemma fold_lessRecentlyUsed_least rest best :
  positioned (best :: rest) →
  let r := fold_left lessRecentlyUsed rest best in
  r ∈ best :: rest ∧
  (lastUsed (snd r) ≤ lastUsed (snd best))%Z ∧
  (lastUsed (snd r) = lastUsed (snd best) → r = best) ∧
  (∀ x, x ∈ rest → (lastUsed (snd r) ≤ lastUsed (snd x))%Z ∧
                   (lastUsed (snd x) = lastUsed (snd r) → fst r ≤ fst x)).
Proof.
  revert best. induction rest as [|x rest IH]; intros best Hpos; simpl.
  - split; [left|]. split; [lia|]. split; [done|]. by intros y ?%elem_of_nil.
  - inversion Hpos as [|? ? Hrest Hbest]; subst.
    inversion Hrest as [|? ? Hrest' Hx]; subst.
    inversion Hbest as [|? ? Hbx Hbrest]; subst.
    assert (positioned (lessRecentlyUsed best x :: rest)) as Hpos'.
    { unfold lessRecentlyUsed. destruct (_ <? _)%Z; by constructor. }
    destruct (IH _ Hpos') as (Hin & Hle & Htie & Hall).
    assert ((lastUsed (snd (lessRecentlyUsed best x)) ≤ lastUsed (snd best))%Z ∧
            (lastUsed (snd (lessRecentlyUsed best x)) ≤ lastUsed (snd x))%Z ∧
            (lastUsed (snd (lessRecentlyUsed best x)) = lastUsed (snd best) →
             lessRecentlyUsed best x = best)) as (Hb1 & Hb2 & Hb3).
    { unfold lessRecentlyUsed.
      destruct (Z.ltb_spec (lastUsed (snd x)) (lastUsed (snd best))); split; try split;
        try lia; done. }
    split; [|split; [lia|split]].
    + apply elem_of_cons in Hin as [->|Hin]; [|by do 2 right].
      unfold lessRecentlyUsed. destruct (_ <? _)%Z; [right; left|left].
    + intros Heq. assert (lessRecentlyUsed best x = best) as Hsame by (apply Hb3; lia).
      rewrite Hsame in Htie, Heq |- *. by apply Htie.
    + intros y [->|Hy]%elem_of_cons; [|by apply Hall].
      split; [lia|]. intros Heq.
      assert (lessRecentlyUsed best x = x ∨
              lessRecentlyUsed best x = best ∧
              (lastUsed (snd best) ≤ lastUsed (snd x))%Z) as [Hsame | [Hsame Hge]].
      { unfold lessRecentlyUsed.
        destruct (Z.ltb_spec (lastUsed (snd x)) (lastUsed (snd best))); [by left|by right]. }
      * rewrite Hsame in Htie, Heq |- *. rewrite Htie by done. lia.
      * rewrite Hsame in Htie, Heq, Hle |- *. rewrite Htie by lia. lia.
Qed.

Lemma indexed_elem k l i service :
  l !! i = Some service → (k + i, service) ∈ indexed k l.
Proof.
  revert k i. induction l as [|s l IH]; intros k [|i]; simpl; try done.
  - intros [= ->]. rewrite Nat.add_0_r. left.
  - intros H. right. replace (k + S i) with (S k + i) by lia. by apply IH.
Qed.

(** X5: [selectBestProxy] returns the first of the least recently used
    endpoints among those whose circuit is closed (or whose cooldown has
    expired) and which are under their rate limit: the entry returned sits at
    the returned position, passes both tests, no eligible entry has an older
    [lastUsed], and among equally old ones none comes earlier in the list.
    It returns null exactly when no entry passes both tests. *)
Theorem selectBestProxy_least_recently_used now ps :
  match fst (selectBestProxy now ps) with
  | Some (i, service) =>
      proxyServices ps !! i = Some service ∧
      eligible now ps service = true ∧
      ∀ j other, proxyServices ps !! j = Some other → eligible now ps other = true →
        (lastUsed service ≤ lastUsed other)%Z ∧
        (lastUsed other = lastUsed service → i ≤ j)
  | None => ∀ j other, proxyServices ps !! j = Some other → eligible now ps other = false
  end.
Proof.
  unfold selectBestProxy.
  pose proof (filterAvailable_filter now (indexed 0 (proxyServices ps)) ps) as Hf.
  destruct (filterAvailable now (indexed 0 (proxyServices ps)) ps) as [available ps1].
  simpl in Hf. subst available.
  assert (∀ j other, proxyServices ps !! j = Some other → eligible now ps other = true →
            (j, other) ∈ List.filter (fun x => eligible now ps (snd x))
                           (indexed 0 (proxyServices ps))) as Hmem.
  { intros j other Hj He. apply list_elem_of_In, List.filter_In. split; [|done].
    apply list_elem_of_In. by apply (indexed_elem 0). }
  pose proof (filter_positioned (fun x => eligible now ps (snd x)) _
                (indexed_positioned 0 (proxyServices ps))) as Hpos.
  destruct (List.filter _ _) as [|first rest] eqn:Hl; simpl.
  - intros j other Hj. destruct (eligible now ps other) eqn:He; [|done].
    by apply (Hmem j other Hj), elem_of_nil in He.
  - destruct (fold_lessRecentlyUsed_least rest first Hpos) as (Hin & Hle & Htie & Hall).
    destruct (fold_left lessRecentlyUsed rest first) as [i service] eqn:Hr. simpl in *.
    assert ((i, service) ∈ List.filter (fun x => eligible now ps (snd x))
                             (indexed 0 (proxyServices ps))) as Hsel by (by rewrite Hl).
    apply list_elem_of_In, List.filter_In in Hsel as [Hsel He]. simpl in He.
    apply list_elem_of_In, ProxyServiceFacts.indexed_lookup in Hsel as [_ Hsel].
    rewrite Nat.sub_0_r in Hsel.
    split; [done|]. split; [done|].
    intros j other Hj Ho. specialize (Hmem j other Hj Ho).
    apply elem_of_cons in Hmem as [Heq|Hmem].
    + subst first. simpl in *. split; [lia|]. intros Hlu.
      assert ((i, service) = (j, other)) as [= -> _] by (apply Htie; simpl; lia). done.
    + destruct (Hall _ Hmem) as [H1 H2]. simpl in *. split; [done|]. intros. apply H2. lia.
Qed.

Lemma four_failures_open_circuit_witness :
  circuitBreaker
    (recordFailure 40 Scenarios.Proxy1
       (recordFailure 30 Scenarios.Proxy1
          (recordFailure 20 Scenarios.Proxy1
             (recordFailure 10 Scenarios.Proxy1 Scenarios.failoverService)))) !! "Proxy1"
  = Some (Breaker.mk true 40 300000).
Proof.
  exact (proj1 (ProxyServiceFacts.four_failures_open_circuit Scenarios.failoverService
                  Scenarios.Proxy1 10 20 30 40 50 0 Scenarios.Proxy1 eq_refl)).
Defined.

(** *** The reset of the rate limiter *)

Lemma selectBestProxy_none now ps :
  fst (selectBestProxy now ps) = None ↔
  ∀ i service, proxyServices ps !! i = Some service → eligible now ps service = false.
Proof.
  unfold selectBestProxy.
  pose proof (filterAvailable_filter now (indexed 0 (proxyServices ps)) ps) as Hf.
  destruct (filterAvailable now (indexed 0 (proxyServices ps)) ps) as [available ps1].
  simpl in Hf. subst available. split.
  - destruct (List.filter _ _) as [|first rest] eqn:Hl; [|done]. intros _ i service Hi.
    destruct (eligible now ps service) eqn:He; [|done].
    assert ((i, service) ∈ List.filter (fun x => eligible now ps (snd x))
                             (indexed 0 (proxyServices ps))) as Hin.
    { apply list_elem_of_In, List.filter_In. split; [|done].
      apply list_elem_of_In. by apply (indexed_elem 0). }
    rewrite Hl in Hin. by apply elem_of_nil in Hin.
  - intros Hnone. destruct (List.filter _ _) as [|[i service] rest] eqn:Hl; [done|].
    assert ((i, service) ∈ List.filter (fun x => eligible now ps (snd x))
                             (indexed 0 (proxyServices ps))) as Hin by (rewrite Hl; left).
    apply list_elem_of_In, List.filter_In in Hin as [Hin He]. simpl in He.
    apply list_elem_of_In, ProxyServiceFacts.indexed_lookup in Hin as [_ Hin].
    rewrite Nat.sub_0_r in Hin. by rewrite (Hnone _ _ Hin) in He.
Qed.

(** X21: the per-minute reset makes every endpoint selectable again as far
    as the rate limit goes, and does nothing else. [resetRateLimits] sets each
    [requestCount] to 0 and leaves the names, the order, [lastUsed], the rate
    limits, the failure counters and the breakers as they are; when all rate
    limits are positive, an entry is then eligible exactly when its circuit is
    closed or expired, and [selectBestProxy] returns null only if every
    circuit is open. *)
Theorem resetRateLimits_restores_eligibility now ps :
  Forall (fun s => (0 < rateLimit s)%Z) (proxyServices ps) →
  let ps' := resetRateLimits ps in
  failureCount ps' = failureCount ps ∧ circuitBreaker ps' = circuitBreaker ps ∧
  Forall2 (fun s s' => name s' = name s ∧ lastUsed s' = lastUsed s ∧
                       rateLimit s' = rateLimit s ∧ requestCount s' = 0%Z ∧
                       eligible now ps' s' = circuitClosed now s ps)
          (proxyServices ps) (proxyServices ps') ∧
  (fst (selectBestProxy now ps') = None ↔
   ∀ i service, proxyServices ps !! i = Some service → circuitClosed now service ps = false).
Proof.
  intros Hpos. simpl.
  assert (∀ s, (0 < rateLimit s)%Z →
            eligible now (resetRateLimits ps)
              (mkService (name s) (url s) (type s) (timeout s) (rateLimit s) (lastUsed s) 0)
            = circuitClosed now s ps) as Helig.
  { intros s Hs. unfold eligible, checkRateLimit, circuitClosed, isServiceAvailable. simpl.
    destruct (Z.ltb_spec 0 (rateLimit s)); [|lia]. rewrite andb_true_r.
    destruct (circuitBreaker ps !! name s) as [b|]; [|done]. by destruct (_ <? _)%Z. }
  split; [done|]. split; [done|]. split.
  - set (ps' := resetRateLimits ps) in *. clearbody ps'.
    induction Hpos as [|s l Hs Hl IH]; simpl; constructor; [|done].
    repeat split; try done. by apply Helig.
  - rewrite selectBestProxy_none. unfold resetRateLimits at 1. simpl. split.
    + intros Hnone i service Hi. rewrite <- Helig.
      * apply (Hnone i). by rewrite list_lookup_fmap, Hi.
      * by eapply Forall_lookup_1 in Hpos.
    + intros Hopen i service' Hi. rewrite list_lookup_fmap in Hi.
      destruct (proxyServices ps !! i) as [s|] eqn:Hs; [|done]. injection Hi as <-.
      rewrite Helig; [by apply (Hopen i)|]. by eapply Forall_lookup_1 in Hpos.
Qed.

Lemma resetRateLimits_restores_eligibility_witness :
  fst (selectBestProxy 1000 (resetRateLimits Scenarios.exhaustedService)) = None ↔
  ∀ i service, proxyServices Scenarios.exhaustedService !! i = Some service →
    circuitClosed 1000 service Scenarios.exhaustedService = false.
Proof.
  exact (proj2 (proj2 (proj2
    (resetRateLimits_restores_eligibility 1000 Scenarios.exhaustedService
       ltac:(repeat constructor))))).
Defined.

(** *** Dispatch with the request method of the class *)

Lemma recordFailure_count_other now service ps n :
  n ≠ name service →
  failureCount (recordFailure now service ps) !! n = failureCount ps !! n.
Proof.
  intros Hne. unfold recordFailure. destruct (3 <=? _); simpl; by rewrite lookup_insert_ne.
Qed.

Lemma recordFailure_twice now now' service ps n :
  default 0 (failureCount (recordFailure now' service (recordFailure now service ps)) !! n)
  = default 0 (failureCount ps !! n) + (if decide (name service = n) then 2 else 0).
Proof.
  destruct (decide (name service = n)) as [<-|Hne].
  - rewrite !ProxyServiceFacts.recordFailure_count. simpl. lia.
  - rewrite !recordFailure_count_other by done. lia.
Qed.

Lemma attemptsOn_cons {Response : Type} services nm i (o : Outcome Response) tried :
  attemptsOn services nm ((i, o) :: tried)
  = (if decide (name <$> services !! i = Some nm) then 1 else 0) + attemptsOn services nm tried.
Proof. unfold attemptsOn. rewrite filter_cons. simpl. by destruct (decide _). Qed.

Section ClassDispatch.
Context {W Response : Type}.
Variable clock : W → Z.
Variable wait : nat → W → W.
Variable requestFunction : Service → string → ErrorHandler.RetryFunction W Response.
Variable validateResponse : Response → Service → W → option Error * W.
Variable validateURLSafety validateHTTPS : string → bool.

Local Abbreviation make := (makeProxyRequest clock wait requestFunction validateResponse).

(** A run of the loop with the request method of the class: every attempt
    throws before anything is sent, and counts two failures for the entry it
    went to. *)
Lemma class_loop_run n lastError target ps w log :
  let d := proxyGet_loop clock make n lastError target (ps, w) log in
  ∃ tried,
    attempts d = (log ++ tried)%list ∧
    isOk (response d) = false ∧
    snd (final d) = w ∧
    proxyServices (fst (final d)) = proxyServices ps ∧
    ∀ nm, default 0 (failureCount (fst (final d)) !! nm)
          = default 0 (failureCount ps !! nm) + 2 * attemptsOn (proxyServices ps) nm tried.
Proof.
  revert lastError ps log. induction n as [|n IH]; intros lastError ps log;
    cbn [proxyGet_loop].
  - exists []. rewrite app_nil_r. destruct lastError; simpl; repeat split; try done;
      intros nm; unfold attemptsOn; simpl; lia.
  - destruct (selectBestProxy (clock w) ps) as [[[i service]|] ps1] eqn:Hsel.
    + destruct (ProxyServiceFacts.selectBestProxy_valid _ _ _ _ _ Hsel) as (Hi & Hs1 & Hf1).
      destruct (ProxyServiceFacts.makeProxyRequest_never_requests clock wait validateResponse
                  requestFunction i service target ps1 w) as (msg & -> & _).
      assert (deref i service (recordFailure (clock w) service ps1) = service) as ->.
      { unfold deref. by rewrite ProxyServiceFacts.recordFailure_services, Hs1, Hi. }
      destruct (IH (Some (newError msg))
                  (recordFailure (clock w) service (recordFailure (clock w) service ps1))
                  (log ++ [(i, Err (newError msg))])%list)
        as (tried & Hlog & Hres & Hw & Hs & Hcount).
      rewrite !ProxyServiceFacts.recordFailure_services, Hs1 in Hs, Hcount.
      exists ((i, Err (newError msg)) :: tried).
      split; [by rewrite Hlog, <- app_assoc|]. repeat split; [done..|].
      intros nm. rewrite Hcount, recordFailure_twice, Hf1.
      rewrite attemptsOn_cons, Hi. simpl.
      destruct (decide (name service = nm)) as [->|Hne].
      * rewrite decide_True by done. lia.
      * rewrite decide_False by congruence. lia.
    + exists []. rewrite app_nil_r. simpl.
      pose proof (ProxyServiceFacts.filterAvailable_frame (clock w)
                    (indexed 0 (proxyServices ps)) ps) as [Hs Hf].
      unfold selectBestProxy in Hsel.
      destruct (filterAvailable (clock w) (indexed 0 (proxyServices ps)) ps) as [[|? ?] ps'];
        [|discriminate]. injection Hsel as <-. simpl in *.
      repeat split; [done..|]. intros nm. rewrite Hf. unfold attemptsOn. simpl. lia.
Qed.

Lemma class_proxyGet_run target ps w :
  let d := proxyGet clock wait requestFunction validateResponse validateURLSafety validateHTTPS
             target (ps, w) in
  isOk (response d) = false ∧
  snd (final d) = w ∧
  proxyServices (fst (final d)) = proxyServices ps ∧
  ∀ nm, default 0 (failureCount (fst (final d)) !! nm)
        = default 0 (failureCount ps !! nm) + 2 * attemptsOn (proxyServices ps) nm (attempts d).
Proof.
  unfold proxyGet, proxyGet_with.
  assert (∀ e, let d := mkDispatched (Response:=Response) (Err e) (ps, w) [] in
            isOk (response d) = false ∧ snd (final d) = w ∧
            proxyServices (fst (final d)) = proxyServices ps ∧
            ∀ nm, default 0 (failureCount (fst (final d)) !! nm)
                  = default 0 (failureCount ps !! nm)
                    + 2 * attemptsOn (proxyServices ps) nm (attempts d)) as Hguard.
  { intros e. simpl. repeat split; try done. }
  destruct (negb (isInitialized ps)); [apply Hguard|].
  destruct (negb (validateURLSafety target)); [apply Hguard|].
  destruct (if validateHTTPS target then Some target
            else if validateHTTPS (upgradeToHttps target) then Some (upgradeToHttps target)
                 else None) as [target'|]; [|apply Hguard].
  destruct (class_loop_run (length (proxyServices ps)) None target' ps w [])
    as (tried & Hlog & Hres & Hw & Hs & Hcount).
  simpl in Hlog. rewrite Hlog. done.
Qed.

(** X6: [proxyGet], with the [makeProxyRequest] the class defines, never
    returns a response. Whatever the network would answer, every call throws;
    the world is handed back as it was (nothing was awaited, sent or waited
    for); and no entry of the registry is written, so neither [lastUsed] nor
    [requestCount] ever changes. The seed error that [makeProxyRequest] hands
    to [handleNetworkError] is classified as not retryable, and the request
    closure is therefore never invoked. *)
Theorem proxyGet_never_reaches_the_network target ps w :
  let d := proxyGet clock wait requestFunction validateResponse validateURLSafety validateHTTPS
             target (ps, w) in
  (∃ e, response d = Err e) ∧
  snd (final d) = w ∧
  proxyServices (fst (final d)) = proxyServices ps.
Proof.
  destruct (class_proxyGet_run target ps w) as (Hres & Hw & Hs & _).
  simpl. split; [|done].
  destruct (response _) as [resp|e]; [discriminate Hres|by exists e].
Qed.

(** X7: every attempt of [proxyGet] counts two failures for the endpoint it
    went to, one in the [catch] of [makeProxyRequest] and one in the [catch]
    of the loop: after the call, the failure counter of a name has grown by
    twice the number of attempts made on entries of that name. *)
Theorem failed_dispatch_counts_twice target ps w nm :
  let d := proxyGet clock wait requestFunction validateResponse validateURLSafety validateHTTPS
             target (ps, w) in
  default 0 (failureCount (fst (final d)) !! nm)
  = default 0 (failureCount ps !! nm) + 2 * attemptsOn (proxyServices ps) nm (attempts d).
Proof. apply class_proxyGet_run. Qed.
End ClassDispatch.

(** *** The circuit after its cooldown *)

Lemma breakersCounted_weaken ps ps' :
  circuitBreaker ps' ⊆ circuitBreaker ps →
  failureCount ps' = failureCount ps →
  breakersCounted ps → breakersCounted ps'.
Proof.
  intros Hsub Hf Hinv n b Hb. rewrite Hf. apply Hinv. by eapply lookup_weaken.
Qed.

Lemma isServiceAvailable_breakers now service ps :
  circuitBreaker (snd (isServiceAvailable now service ps)) ⊆ circuitBreaker ps.
Proof.
  unfold isServiceAvailable. destruct (circuitBreaker ps !! name service); [|done].
  destruct (_ <? _)%Z; [|done]. simpl. apply delete_subseteq.
Qed.

Lemma filterAvailable_breakers now l ps :
  circuitBreaker (snd (filterAvailable now l ps)) ⊆ circuitBreaker ps.
Proof.
  revert ps. induction l as [|[i s] l IH]; intros ps; simpl; [done|].
  pose proof (isServiceAvailable_breakers now s ps) as Hs.
  destruct (isServiceAvailable now s ps) as [a ps1]. simpl in *.
  specialize (IH ps1). destruct (filterAvailable now l ps1) as [kept ps2]. simpl in *.
  by etrans.
Qed.

Lemma recordFailure_breakersCounted now service ps :
  breakersCounted ps → breakersCounted (recordFailure now service ps).
Proof.
  intros Hinv n b. destruct (decide (n = name service)) as [->|Hne].
  - rewrite ProxyServiceFacts.recordFailure_count. simpl. unfold recordFailure.
    destruct (Nat.leb_spec 3 (default 0 (failureCount ps !! name service))) as [Hge|Hlt]; simpl.
    + rewrite lookup_insert_eq. intros [= <-]. split; [lia|done].
    + intros Hb. destruct (Hinv _ _ Hb) as [Hc Hshape]. split; [lia|done].
  - rewrite recordFailure_count_other by done. unfold recordFailure.
    destruct (3 <=? _); simpl; [rewrite lookup_insert_ne by done|]; apply Hinv.
Qed.

Lemma recordSuccess_breakersCounted service ps :
  breakersCounted ps → breakersCounted (recordSuccess service ps).
Proof.
  intros Hinv n b. unfold recordSuccess. simpl.
  destruct (decide (n = name service)) as [->|Hne].
  - by rewrite lookup_delete_eq.
  - rewrite lookup_delete_ne, lookup_insert_ne by done. apply Hinv.
Qed.

Lemma call_breakersCounted c ps : breakersCounted ps → breakersCounted (call c ps).
Proof.
  destruct c; simpl.
  - apply recordFailure_breakersCounted.
  - apply recordSuccess_breakersCounted.
  - apply breakersCounted_weaken; [apply isServiceAvailable_breakers|].
    apply ProxyServiceFacts.isServiceAvailable_frame.
  - unfold selectBestProxy.
    pose proof (filterAvailable_breakers now (indexed 0 (proxyServices ps)) ps) as Hsub.
    pose proof (ProxyServiceFacts.filterAvailable_frame now (indexed 0 (proxyServices ps)) ps)
      as [_ Hf].
    destruct (filterAvailable now (indexed 0 (proxyServices ps)) ps) as [[|first rest] ps1];
      simpl in *; by apply breakersCounted_weaken.
  - done.
Qed.

Lemma calls_breakersCounted cs online : breakersCounted (calls cs (new online)).
Proof.
  unfold calls. assert (breakersCounted (new online)) as Hnew by (intros n b; done).
  revert Hnew. generalize (new online).
  induction cs as [|c cs IH]; intros ps Hinv; simpl; [done|].
  by apply IH, call_breakersCounted.
Qed.

(** X8: the cooldown alone does not reset the failure counter. In every
    state reached from a new service by calls of [recordFailure],
    [recordSuccess], [isServiceAvailable], [selectBestProxy] and
    [resetRateLimits], a breaker in the map has the five-minute cooldown; once
    more than five minutes have passed since it opened, [isServiceAvailable]
    answers [true] and removes the breaker but leaves the failure counter as
    it is, so that a single further failure opens the circuit again — not the
    four that a fresh endpoint takes. *)
Theorem expired_circuit_reopens_on_first_failure online cs now t service b :
  let ps := calls cs (new online) in
  circuitBreaker ps !! name service = Some b →
  (300000 < now - Breaker.openedAt b)%Z →
  let ps1 := snd (isServiceAvailable now service ps) in
  fst (isServiceAvailable now service ps) = true ∧
  circuitBreaker ps1 !! name service = None ∧
  failureCount ps1 = failureCount ps ∧
  circuitBreaker (recordFailure t service ps1) !! name service
  = Some (Breaker.mk true t 300000).
Proof.
  intros ps Hb Hexpired.
  destruct (calls_breakersCounted cs online _ _ Hb) as [Hcount Hshape]. fold ps in Hcount.
  assert (isServiceAvailable now service ps
          = (true, setCircuitBreaker (delete (name service) (circuitBreaker ps)) ps)) as Hq.
  { unfold isServiceAvailable. rewrite Hb. rewrite Hshape. simpl.
    destruct (Z.ltb_spec 300000 (now - Breaker.openedAt b)); [done|lia]. }
  simpl. rewrite Hq. simpl. split; [done|]. split; [by rewrite lookup_delete_eq|].
  split; [done|]. apply ProxyServiceFacts.recordFailure_opens. simpl. lia.
Qed.

Lemma expired_circuit_reopens_on_first_failure_witness :
  let ps := calls [ RecordFailure 10 Scenarios.Proxy1; RecordFailure 20 Scenarios.Proxy1;
                    RecordFailure 30 Scenarios.Proxy1; RecordFailure 40 Scenarios.Proxy1 ]
              (new true) in
  circuitBreaker
    (recordFailure 400000 Scenarios.Proxy1 (snd (isServiceAvailable 300041 Scenarios.Proxy1 ps)))
    !! "Proxy1" = Some (Breaker.mk true 400000 300000).
Proof.
  exact (proj2 (proj2 (proj2
    (expired_circuit_reopens_on_first_failure true
       [ RecordFailure 10 Scenarios.Proxy1; RecordFailure 20 Scenarios.Proxy1;
         RecordFailure 30 Scenarios.Proxy1; RecordFailure 40 Scenarios.Proxy1 ]
       300041 400000 Scenarios.Proxy1 (Breaker.mk true 40 300000) eq_refl eq_refl)))).
Defined.

(** *** The rate limit *)

Lemma selectBestProxy_under_limit now ps i service ps1 :
  selectBestProxy now ps = (Some (i, service), ps1) → checkRateLimit service = true.
Proof.
  unfold selectBestProxy.
  pose proof (filterAvailable_filter now (indexed 0 (proxyServices ps)) ps) as Hf.
  destruct (filterAvailable now (indexed 0 (proxyServices ps)) ps) as [[|first rest] ps'];
    simpl in *; intros Heq; [discriminate|].
  injection Heq as Hsel _.
  pose proof (ProxyServiceFacts.fold_lessRecentlyUsed_elem rest first) as Hin.
  rewrite Hsel, Hf in Hin.
  apply list_elem_of_In, List.filter_In in Hin as [_ He]. simpl in He.
  unfold eligible in He. by apply andb_true_iff in He as [_ ?].
Qed.

Section RateLimit.
Context {W Response : Type}.
Variable clock : W → Z.
Variable validateURLSafety validateHTTPS : string → bool.
Implicit Types (make : MakeRequest (W:=W) (Response:=Response)).

Lemma proxyGet_loop_withinRateLimits make n lastError target ps w log :
  framesEntries make →
  withinRateLimits (proxyServices ps) →
  withinRateLimits
    (proxyServices (fst (final (proxyGet_loop clock make n lastError target (ps, w) log)))).
Proof.
  intros Hframe. revert lastError ps w log.
  induction n as [|n IH]; intros lastError ps w log Hle; cbn [proxyGet_loop].
  - by destruct lastError.
  - destruct (selectBestProxy (clock w) ps) as [[[i service]|] ps1] eqn:Hsel.
    + destruct (ProxyServiceFacts.selectBestProxy_valid _ _ _ _ _ Hsel) as (Hi & Hs1 & _).
      pose proof (selectBestProxy_under_limit _ _ _ _ _ Hsel) as Hrate.
      pose proof (Hframe i service target (ps1, w)) as Hs2.
      destruct (make i service target (ps1, w)) as [[resp|error] [ps2 w2]]; simpl in Hs2.
      * simpl. assert (deref i service ps2 = service) as ->.
        { unfold deref. by rewrite Hs2, Hs1, Hi. }
        rewrite Hs2, Hs1. apply Forall_insert; [done|].
        unfold checkRateLimit in Hrate. apply Z.ltb_lt in Hrate. simpl. lia.
      * apply IH. by rewrite ProxyServiceFacts.recordFailure_services, Hs2, Hs1.
    + simpl. unfold selectBestProxy in Hsel.
      pose proof (ProxyServiceFacts.filterAvailable_frame (clock w)
                    (indexed 0 (proxyServices ps)) ps) as [Hs _].
      destruct (filterAvailable (clock w) (indexed 0 (proxyServices ps)) ps) as [[|? ?] ps'];
        [|discriminate]. injection Hsel as <-. simpl in Hs. by rewrite Hs.
Qed.

(** X9: the dispatcher never takes an endpoint over its rate limit. If no
    entry of the registry has a [requestCount] above its [rateLimit] before a
    [proxyGet], none has afterwards, whatever the requests return: the only
    write to [requestCount] is the increment after a successful request, and
    the entry it goes to was selected strictly below its limit. The request
    method is any that, like [makeProxyRequest], leaves the entries alone. *)
Theorem dispatch_respects_rate_limit make target ps w :
  framesEntries make →
  withinRateLimits (proxyServices ps) →
  withinRateLimits
    (proxyServices (fst (final (proxyGet_with clock validateURLSafety validateHTTPS make
                                  target (ps, w))))).
Proof.
  intros Hframe Hle. unfold proxyGet_with.
  destruct (negb (isInitialized ps)); [done|].
  destruct (negb (validateURLSafety target)); [done|].
  destruct (if validateHTTPS target then Some target
            else if validateHTTPS (upgradeToHttps target) then Some (upgradeToHttps target)
                 else None) as [target'|]; [|done].
  by apply proxyGet_loop_withinRateLimits.
Qed.
End RateLimit.

Lemma dispatch_respects_rate_limit_witness :
  withinRateLimits
    (proxyServices (fst (final (proxyGet_with (fun now : Z => now) Scenarios.acceptUrl
                                  Scenarios.acceptUrl Scenarios.stubRequest
                                  "https://example.com/page"
                                  (Scenarios.limitedService, 1000%Z))))).
Proof.
  apply (dispatch_respects_rate_limit (fun now : Z => now) Scenarios.acceptUrl
           Scenarios.acceptUrl Scenarios.stubRequest "https://example.com/page"
           Scenarios.limitedService 1000%Z).
  - by intros i service target [ps now].
  - repeat constructor; simpl; lia.
Defined.

(** *** Health checks and initialization *)

Section HealthFacts.
Context {W : Type}.
Variable clock : W → Z.
Variable testProxyConnectivity : Service → W → bool * W.
Variable validateProxyService : string → W → Outcome bool * W.

Lemma recordSuccess_other service ps n :
  n ≠ name service →
  failureCount (recordSuccess service ps) !! n = failureCount ps !! n ∧
  circuitBreaker (recordSuccess service ps) !! n = circuitBreaker ps !! n.
Proof.
  intros Hne. unfold recordSuccess. simpl.
  by rewrite lookup_insert_ne, lookup_delete_ne.
Qed.

Lemma recordFailure_other now service ps n :
  n ≠ name service →
  failureCount (recordFailure now service ps) !! n = failureCount ps !! n ∧
  circuitBreaker (recordFailure now service ps) !! n = circuitBreaker ps !! n.
Proof.
  intros Hne. split; [by apply recordFailure_count_other|].
  unfold recordFailure. destruct (3 <=? _); simpl; [|done]. by rewrite lookup_insert_ne.
Qed.

(** The loop leaves the registry and the names it does not visit alone. *)
Lemma healthCheckLoop_frame services ps w :
  let ps' := fst (healthCheckLoop clock testProxyConnectivity services (ps, w)) in
  proxyServices ps' = proxyServices ps ∧
  ∀ n, n ∉ map name services →
    failureCount ps' !! n = failureCount ps !! n ∧
    circuitBreaker ps' !! n = circuitBreaker ps !! n.
Proof.
  revert ps w. induction services as [|service rest IH]; intros ps w; simpl; [done|].
  destruct (testProxyConnectivity service w) as [[|] w1]; simpl;
    match goal with |- context [healthCheckLoop _ _ rest (?p, w1)] =>
      destruct (IH p w1) as [Hs Hother] end;
    (split; [rewrite Hs|
             intros n [Hne Hn]%not_elem_of_cons; destruct (Hother n Hn) as [-> ->]]).
  - apply ProxyServiceFacts.recordSuccess_effect.
  - by apply recordSuccess_other.
  - apply ProxyServiceFacts.recordFailure_services.
  - by apply recordFailure_other.
Qed.

(** X10: what a health check leaves behind for each endpoint, when the
    names of the registry are distinct and no other call on the service runs
    between its canary requests. An endpoint whose canary request
    succeeded has its failure counter at 0 and its circuit closed, also when
    the circuit was open and its cooldown had not elapsed; one whose canary
    failed has one failure more, and an open circuit if it already had three.
    The registry itself is not touched. *)
Theorem performHealthCheck_effect ps w i service (healthy : bool) :
  NoDup (map name (proxyServices ps)) →
  proxyServices ps !! i = Some service →
  healthAnswers testProxyConnectivity (proxyServices ps) w !! i = Some healthy →
  let ps' := fst (performHealthCheck clock testProxyConnectivity (ps, w)) in
  proxyServices ps' = proxyServices ps ∧
  if healthy then
    failureCount ps' !! name service = Some 0 ∧
    circuitBreaker ps' !! name service = None
  else
    failureCount ps' !! name service = Some (default 0 (failureCount ps !! name service) + 1) ∧
    (3 ≤ default 0 (failureCount ps !! name service) →
     ∃ opened, circuitBreaker ps' !! name service = Some (Breaker.mk true opened 300000)).
Proof.
  intros Hnodup Hi Ha. unfold performHealthCheck. simpl.
  split; [apply healthCheckLoop_frame|].
  revert Hnodup Hi Ha. generalize (proxyServices ps) as services. intros services.
  revert ps w i. induction services as [|s rest IH]; intros ps w i Hnodup Hi Ha; [done|].
  simpl in *. apply NoDup_cons in Hnodup as [Hfresh Hnodup].
  destruct (testProxyConnectivity s w) as [isHealthy w1] eqn:Htest.
  set (ps1 := if negb isHealthy then recordFailure (clock w1) s ps else recordSuccess s ps).
  destruct i as [|i]; simpl in *.
  - injection Hi as ->. injection Ha as ->.
    destruct (healthCheckLoop_frame rest ps1 w1) as [_ Hother].
    destruct (Hother _ Hfresh) as [Hf Hb]. simpl in *. rewrite Hf, Hb. unfold ps1.
    destruct healthy; simpl.
    + split; apply ProxyServiceFacts.recordSuccess_effect.
    + split; [apply ProxyServiceFacts.recordFailure_count|].
      intros Hge. exists (clock w1). by apply ProxyServiceFacts.recordFailure_opens.
  - assert (name service ≠ name s) as Hne.
    { intros Heq. apply Hfresh. rewrite <- Heq.
      apply list_elem_of_In, in_map, list_elem_of_In. by eapply list_elem_of_lookup_2. }
    specialize (IH ps1 w1 i Hnodup Hi Ha).
    assert (failureCount ps1 !! name service = failureCount ps !! name service) as Hsame.
    { unfold ps1. destruct isHealthy; simpl;
        [by apply recordSuccess_other|by apply recordFailure_other]. }
    rewrite Hsame in IH. exact IH.
Qed.

Lemma validateLoop_sublist services w :
  sublist (fst (validateLoop testProxyConnectivity validateProxyService services w)) services.
Proof.
  revert w. induction services as [|service rest IH]; intros w; simpl; [constructor|].
  destruct (validateProxyService (url service) w) as [[[|]|e] w1];
    try (apply sublist_cons, IH).
  destruct (testProxyConnectivity service w1) as [isReachable w2].
  specialize (IH w2).
  destruct (validateLoop testProxyConnectivity validateProxyService rest w2) as [valid w3].
  simpl in *. destruct isReachable; [by apply sublist_skip|by apply sublist_cons].
Qed.

Lemma validateLoop_answers services w :
  fst (validateLoop testProxyConnectivity validateProxyService services w)
  = fst <$> filter (fun x : Service * bool => snd x = true)
              (zip services
                 (validationAnswers testProxyConnectivity validateProxyService services w)).
Proof.
  revert w. induction services as [|service rest IH]; intros w; simpl; [done|].
  destruct (validateProxyService (url service) w) as [[[|]|e] w1];
    try (rewrite filter_cons_False by (simpl; done); apply IH).
  destruct (testProxyConnectivity service w1) as [isReachable w2].
  specialize (IH w2).
  destruct (validateLoop testProxyConnectivity validateProxyService rest w2) as [valid w3].
  simpl in *. destruct isReachable.
  - rewrite filter_cons_True by done. simpl. by rewrite IH.
  - rewrite filter_cons_False by (simpl; done). done.
Qed.

(** X11: [initialize] keeps exactly the endpoints that passed both checks —
    the security check answered truthy without throwing and the connectivity
    test succeeded — in their order, and sets [isInitialized] only when at
    least one is left. When none is left it throws, [isInitialized] stays as
    it was, and the registry has been emptied before the throw: calling
    [initialize] again then fails in the same way whatever the network
    answers, since there is no endpoint left to validate. *)
Theorem initialize_filters_or_empties ps w :
  let r := initialize testProxyConnectivity validateProxyService (ps, w) in
  let ps' := fst (snd r) in
  let answers :=
    validationAnswers testProxyConnectivity validateProxyService (proxyServices ps) w in
  proxyServices ps'
  = fst <$> filter (fun x : Service * bool => snd x = true) (zip (proxyServices ps) answers) ∧
  match fst r with
  | Ok _ =>
      isInitialized ps' = true ∧ proxyServices ps' ≠ [] ∧
      sublist (proxyServices ps') (proxyServices ps)
  | Err e =>
      e = newError noValidProxyMessage ∧
      isInitialized ps' = isInitialized ps ∧
      proxyServices ps' = [] ∧
      ∀ w', fst (initialize testProxyConnectivity validateProxyService (ps', w'))
            = Err (newError noValidProxyMessage)
  end.
Proof.
  unfold initialize, validateProxyServices.
  pose proof (validateLoop_sublist (proxyServices ps) w) as Hsub.
  pose proof (validateLoop_answers (proxyServices ps) w) as Hans.
  destruct (validateLoop testProxyConnectivity validateProxyService (proxyServices ps) w)
    as [[|first valid] w1]; simpl in *; (split; [done|]); [|done].
  repeat split; done.
Qed.
End HealthFacts.

Lemma failoverService_names :
  NoDup (map name (proxyServices Scenarios.failoverService)).
Proof. apply (bool_decide_unpack _). by vm_compute. Qed.

Lemma performHealthCheck_effect_witness :
  failureCount (fst (performHealthCheck (fun now : Z => now) Scenarios.proxy2Down
                       (Scenarios.failoverService, 1000%Z))) !! "Proxy2" = Some 1.
Proof.
  exact (proj1 (proj2
    (performHealthCheck_effect (fun now : Z => now) Scenarios.proxy2Down
       Scenarios.failoverService 1000%Z 1 Scenarios.Proxy2 false
       failoverService_names eq_refl eq_refl))).
Defined.

End ProxyServiceExtras.

(** ** DownloadManager: slot accounting, queue discipline, stored tasks *)

Module DownloadManagerExtras.
Import DownloadManager.
Import DownloadManagerFacts.

Implicit Types (dm : t) (sc : Sched) (ev : Event) (r : nat) (now : Z).

Local Abbreviation limit sc := (maxConcurrentDownloads (manager sc)).
Local Abbreviation active sc := (activeDownloads (manager sc)).
Local Abbreviation queue sc := (downloadQueue (manager sc)).
Local Abbreviation running sc := (Z.of_nat (length (inflight sc))).

(** Rewrites the fields that [updateDownloadStatus] leaves alone. *)
Ltac fields_frame :=
  repeat match goal with
         | |- context [updateDownloadStatus ?n ?i ?s ?e ?m] =>
             let Ha := fresh in let Hl := fresh in let Hq := fresh in
             let Hd := fresh in let Hr := fresh in let Hi := fresh in
             destruct (updateDownloadStatus_frame n i s e m) as (Ha & Hl & Hq & Hd & Hr & Hi);
             simpl in Ha, Hl, Hq, Hd, Hr, Hi;
             progress (rewrite ?Ha, ?Hl, ?Hq, ?Hd, ?Hr, ?Hi); clear Ha Hl Hq Hd Hr Hi
         end.

(** *** The transfer of a file *)

(** X19: every file transfer fails before any I/O. [executeFileDownload]
    never invokes its download closure and hands the handler and the world
    back as they were. What [handleNetworkError] throws is the unknown-error
    message when online and the offline message otherwise; on a desktop
    device [executeFileDownload] rethrows that error, on an iOS or Android
    device it throws a new error whose message is what [handleMobileError]
    makes of it for the operation ["download"]. *)
Theorem executeFileDownload_throws_before_transfer {W R : Type} (wait : nat → W → W)
    isIOS isAndroid handleMobileError (downloadFunction : Task → ErrorHandler.RetryFunction W R)
    downloadTask eh (w : W) :
  let run := executeFileDownload wait isIOS isAndroid handleMobileError downloadFunction
               downloadTask eh w in
  let thrown := newError (if ErrorHandler.isOnline eh then "发生未知错误，请稍后重试"
                          else "网络连接已断开，请检查网络设置") in
  ErrorHandler.settled run
  = Err (if isIOS || isAndroid then newError (handleMobileError thrown "download")
         else thrown) ∧
  ErrorHandler.invocations run = 0 ∧
  ErrorHandler.handler run = eh ∧
  ErrorHandler.world run = w.
Proof.
  unfold executeFileDownload.
  destruct (ErrorHandler.isOnline eh) eqn:Honline.
  - rewrite ErrorHandlerFacts.handleNetworkError_rejects by done. simpl.
    by destruct (isIOS || isAndroid).
  - rewrite ErrorHandlerFacts.handleNetworkError_offline by done. simpl.
    by destruct (isIOS || isAndroid).
Qed.

(** *** Slot accounting *)

Lemma gate_holds_in_calm_runs_witness :
  (activeDownloads (manager (run [ Submit media 1000 "a" "https://example.com/a.mp4" "a.mp4";
                                   Settle 1500 0 (Err (newError "下载失败: HTTP 503"));
                                   TimerFires 3500 0 ] start)) ≤ 3)%Z.
Proof.
  exact (proj2 (gate_holds_in_calm_runs
                  [ Submit media 1000 "a" "https://example.com/a.mp4" "a.mp4";
                    Settle 1500 0 (Err (newError "下载失败: HTTP 503"));
                    TimerFires 3500 0 ]
                  (conj I (conj I (conj eq_refl I))))).
Defined.

Lemma step_running ev sc :
  notCleanup ev → (active (step ev sc) - running (step ev sc) = active sc - running sc)%Z.
Proof.
  intros Hev. destruct ev; simpl.
  - unfold downloadFile. destruct (isInitialized (manager sc)); simpl; [|done].
    by rewrite queueDownload_slack.
  - unfold downloadTextContent. destruct (isInitialized (manager sc)); simpl; [|done].
    destruct converted; simpl; status_frame; simpl; done.
  - by rewrite settle_slack.
  - unfold timerFires. destruct (bool_decide (r ∈ timers sc)); simpl; [|done].
    by rewrite executeDownload_slack.
  - by destruct (cancelDownload_frame now downloadId (manager sc)) as (_ & -> & _).
  - unfold retryDownload. destruct (downloads (manager sc) !! downloadId) as [r|]; [|done].
    destruct (tasks (manager sc) !! r) as [d|]; [|done].
    destruct (status d); try done. by rewrite queueDownload_slack.
  - done.
  - done.
Qed.

Lemma run_slack evs sc :
  (active sc - running sc ≤ 0)%Z → (active (run evs sc) - running (run evs sc) ≤ 0)%Z.
Proof.
  unfold run. revert sc. induction evs as [|ev evs IH]; intros sc Hle; simpl; [done|].
  by apply IH, step_slack.
Qed.

Lemma run_running evs sc :
  Forall notCleanup evs →
  (active (run evs sc) - running (run evs sc) = active sc - running sc)%Z.
Proof.
  unfold run. revert sc. induction evs as [|ev evs IH]; intros sc Hall; simpl; [done|].
  inversion Hall as [|? ? Hev Hrest]; subst. rewrite IH by done. by apply step_running.
Qed.

(** X13: no slot leaks. After any sequence of submissions, settlements,
    timers, cancellations, retries and clean-ups, [activeDownloads] is at most
    the number of [executeDownload] activations that are suspended at their
    [await]; as long as [cleanupDownloads] is not called, it is exactly that
    number: every path out of [executeDownload], whether the transfer
    succeeds, is retried or fails for good, gives its slot back. *)
Theorem active_counts_running_transfers evs :
  let sc := run evs start in
  (activeDownloads (manager sc) ≤ Z.of_nat (length (inflight sc)))%Z ∧
  (Forall notCleanup evs →
   activeDownloads (manager sc) = Z.of_nat (length (inflight sc))).
Proof.
  simpl. split.
  - pose proof (run_slack evs start) as H. simpl in H. lia.
  - intros Hall. pose proof (run_running evs start Hall) as H. simpl in H. lia.
Qed.

Lemma active_counts_running_transfers_witness :
  activeDownloads (manager (run Scenarios.retryWhileFull start)) = 4%Z.
Proof.
  exact (proj2 (active_counts_running_transfers Scenarios.retryWhileFull)
           ltac:(repeat constructor)).
Defined.

(** X14: [cleanupDownloads] resets the counter while transfers are still
    running. When one of them settles afterwards, its [finally] block
    decrements the counter all the same: whatever the state, a clean-up
    followed by the settlement of a transfer that was in flight leaves
    [activeDownloads] at -1, and the limit then admits one download more than
    it should. *)
Theorem cleanup_during_transfer_underflows sc t now r outcome :
  r ∈ inflight sc →
  is_Some (tasks (manager sc) !! r) →
  activeDownloads (manager (settle now r outcome (step (Cleanup t) sc))) = (-1)%Z.
Proof.
  intros Hin [d Hd]. simpl. unfold onManager.
  destruct (cleanupDownloads_keeps t (manager sc)) as [He _].
  destruct (He r d Hd) as (d' & Hd' & _).
  assert (downloadQueue (cleanupDownloads t (manager sc)) = []) as Hq by done.
  assert (activeDownloads (cleanupDownloads t (manager sc)) = 0%Z) as Ha by done.
  revert Hd' Hq Ha. generalize (cleanupDownloads t (manager sc)). intros dm Hd' Hq Ha.
  unfold settle, onManager. cbn [manager inflight timers].
  rewrite bool_decide_true by done. cbn [negb]. rewrite Hd'.
  assert (∀ sc', queue sc' = [] → active sc' = 0%Z → active (finally now sc') = (-1)%Z)
    as Hfin.
  { intros sc' Hq' Ha'. unfold finally, processQueue. simpl. rewrite Hq'. simpl. lia. }
  destruct outcome as [[]|e]; [|destruct (retryCount d' <? retryAttempts dm)];
    apply Hfin; simpl; [destruct (type d')| destruct (type d')|..]; simpl;
    fields_frame; simpl; done.
Qed.

Lemma cleanup_during_transfer_underflows_witness :
  activeDownloads
    (manager (settle 2000 0 (Ok ()) (step (Cleanup 1500) Scenarios.oneRunning))) = (-1)%Z.
Proof.
  apply (cleanup_during_transfer_underflows Scenarios.oneRunning 1500 2000 0 (Ok ())).
  - vm_compute. left.
  - vm_compute. eauto.
Defined.

(** *** The stored tasks *)

Lemma keeps_consistent dm dm' : keeps dm dm' → consistent dm → consistent dm'.
Proof.
  intros [He Hd] Hc downloadId r Hr. rewrite Hd in Hr.
  destruct (Hc _ _ Hr) as (d & Hd0 & Hid).
  destruct (He _ _ Hd0) as (d' & Hd' & Hid' & _).
  exists d'. split; [done|congruence].
Qed.

(** Appending a new task object and filing it under its id. *)
Lemma register_consistent task dm :
  consistent dm →
  consistent (setDownloads (<[id task := length (tasks dm)]> (downloads dm))
                (setTasks (tasks dm ++ [task]) dm)).
Proof.
  intros Hc downloadId r. simpl.
  destruct (decide (id task = downloadId)) as [<-|Hne].
  - rewrite lookup_insert_eq. intros [= <-]. exists task.
    split; [by apply list_lookup_middle|done].
  - rewrite lookup_insert_ne by done. intros Hr.
    destruct (Hc _ _ Hr) as (d & Hd & Hid). exists d. split; [|done].
    rewrite lookup_app_l; [done|]. by eapply lookup_lt_Some.
Qed.

Lemma step_consistent ev sc :
  consistent (manager sc) → consistent (manager (step ev sc)).
Proof.
  intros Hc. destruct ev; simpl.
  - unfold downloadFile. destruct (isInitialized (manager sc)); simpl; [|done].
    eapply keeps_consistent; [apply queueDownload_keeps|]. simpl.
    apply (register_consistent
             (mkTask (generateDownloadId now rand) ty (Some target) None filename0 pending 0 now
                0 None None None None)), Hc.
  - unfold downloadTextContent. destruct (isInitialized (manager sc)); simpl; [|done].
    pose proof (register_consistent
                  (mkTask (generateDownloadId now rand) text None (Some content0) filename0
                     pending 0 now 0 None None None None) (manager sc) Hc) as Hreg.
    simpl in Hreg.
    eapply keeps_consistent in Hreg; [|apply (updateDownloadStatus_keeps now
                                               (generateDownloadId now rand) processing None)].
    destruct converted; simpl.
    + eapply keeps_consistent; [|exact Hreg]. apply modify_keeps. intros d. by repeat split.
    + eapply keeps_consistent; [|exact Hreg]. apply updateDownloadStatus_keeps.
  - eapply keeps_consistent; [apply settle_keeps|done].
  - unfold timerFires. destruct (bool_decide (r ∈ timers sc)); simpl; [|done].
    match goal with |- context [executeDownload now r ?x] =>
      apply (keeps_consistent _ _ (executeDownload_keeps now r x)) end. done.
  - eapply keeps_consistent; [apply cancelDownload_keeps|done].
  - eapply keeps_consistent; [apply retryDownload_keeps|done].
  - intros downloadId r Hr. simpl in Hr.
    apply map_lookup_filter_Some in Hr as [Hr _]. by apply Hc.
  - eapply keeps_consistent; [apply cleanupDownloads_keeps|done].
Qed.

Lemma run_consistent evs : consistent (manager (run evs start)).
Proof.
  unfold run. assert (consistent (manager start)) as Hstart by (intros ? ? ?; done).
  revert Hstart. generalize start.
  induction evs as [|ev evs IH]; intros sc Hc; simpl; [done|].
  by apply IH, step_consistent.
Qed.

(** X15: a progress report is always about the task that was asked for.
    After any sequence of events, whatever [getDownloadProgress] returns for an
    id carries that id: the [downloads] map never files a task object under an
    id other than its own, also when the same id is drawn twice, when entries
    expire, and when settlements write to the map by id. *)
Theorem progress_report_carries_its_id evs downloadId p :
  getDownloadProgress downloadId (manager (run evs start)) = Some p →
  p_id p = downloadId.
Proof.
  unfold getDownloadProgress, lookupTask.
  destruct (downloads (manager (run evs start)) !! downloadId) as [r|] eqn:Hr; [|done].
  destruct (run_consistent evs _ _ Hr) as (d & Hd & Hid). simpl. rewrite Hd.
  by intros [= <-].
Qed.

Lemma progress_report_carries_its_id_witness :
  p_id (mkProgress "download_1000_a" media "a.mp4" downloading 0 1000 (Some 1000%Z) 0 None None)
  = "download_1000_a".
Proof.
  exact (progress_report_carries_its_id
           [ Submit media 1000 "a" "https://example.com/a.mp4" "a.mp4" ]
           "download_1000_a" _ eq_refl).
Defined.

(** *** Automatic retries *)

Lemma keepsRetryBound_refl dm : keepsRetryBound dm dm.
Proof. by split. Qed.

Lemma keepsRetryBound_trans dm1 dm2 dm3 :
  keepsRetryBound dm1 dm2 → keepsRetryBound dm2 dm3 → keepsRetryBound dm1 dm3.
Proof. intros [H1 B1] [H2 B2]. split; [congruence|auto]. Qed.

Lemma keepsRetryBound_same dm dm' :
  tasks dm' = tasks dm → retryAttempts dm' = retryAttempts dm → keepsRetryBound dm dm'.
Proof. intros Ht Hr. split; [done|]. unfold retriesBounded. by rewrite Ht, Hr. Qed.

Lemma modify_keepsRetryBound r f dm :
  (∀ d, tasks dm !! r = Some d → retryCount d ≤ retryAttempts dm →
        retryCount (f d) ≤ retryAttempts dm) →
  keepsRetryBound dm (modify r f dm).
Proof.
  intros Hf. split; [done|]. unfold retriesBounded, modify. simpl. intros Hb.
  by apply Forall_alter.
Qed.

Lemma updateDownloadStatus_keepsRetryBound now downloadId s err dm :
  keepsRetryBound dm (updateDownloadStatus now downloadId s err dm).
Proof.
  unfold updateDownloadStatus.
  destruct (downloads dm !! downloadId); [|apply keepsRetryBound_refl].
  apply modify_keepsRetryBound. intros d _ Hd.
  destruct err as [e|]; [destruct (String.eqb e "")|]; by destruct s.
Qed.

Lemma executeDownload_keepsRetryBound now r sc :
  keepsRetryBound (manager sc) (manager (executeDownload now r sc)).
Proof.
  unfold executeDownload.
  destruct (tasks (manager sc) !! r) as [d|]; [|apply keepsRetryBound_refl].
  simpl.
  destruct (type d);
    repeat (eapply keepsRetryBound_trans; [|apply updateDownloadStatus_keepsRetryBound]);
    by apply keepsRetryBound_same.
Qed.

Lemma processQueue_keepsRetryBound now sc :
  keepsRetryBound (manager sc) (manager (processQueue now sc)).
Proof.
  unfold processQueue.
  destruct (downloadQueue (manager sc)) as [|next rest]; [apply keepsRetryBound_refl|].
  destruct (_ <? _)%Z; [|apply keepsRetryBound_refl].
  eapply keepsRetryBound_trans; [|apply executeDownload_keepsRetryBound].
  by apply keepsRetryBound_same.
Qed.

Lemma finally_keepsRetryBound now sc :
  keepsRetryBound (manager sc) (manager (finally now sc)).
Proof.
  unfold finally. eapply keepsRetryBound_trans; [|apply processQueue_keepsRetryBound].
  by apply keepsRetryBound_same.
Qed.

Lemma settle_keepsRetryBound now r outcome sc :
  keepsRetryBound (manager sc) (manager (settle now r outcome sc)).
Proof.
  unfold settle. destruct (bool_decide (r ∈ inflight sc)); simpl; [|apply keepsRetryBound_refl].
  destruct (tasks (manager sc) !! r) as [d|] eqn:Hd; [|apply keepsRetryBound_refl].
  destruct outcome as [[]|e].
  - eapply keepsRetryBound_trans; [|apply finally_keepsRetryBound]. simpl.
    eapply keepsRetryBound_trans; [|apply updateDownloadStatus_keepsRetryBound].
    destruct (type d); simpl; try apply keepsRetryBound_refl.
    by apply modify_keepsRetryBound.
  - destruct (Nat.ltb_spec (retryCount d) (retryAttempts (manager sc)));
      (eapply keepsRetryBound_trans; [|apply finally_keepsRetryBound]); simpl.
    + eapply keepsRetryBound_trans; [|apply updateDownloadStatus_keepsRetryBound].
      apply modify_keepsRetryBound. intros d' _ _. simpl. lia.
    + apply updateDownloadStatus_keepsRetryBound.
Qed.

Lemma queueDownload_keepsRetryBound now r sc :
  keepsRetryBound (manager sc) (manager (queueDownload now r sc)).
Proof.
  unfold queueDownload. destruct (_ <? _)%Z; [apply executeDownload_keepsRetryBound|].
  destruct (tasks (manager sc) !! r) as [d|]; [|apply keepsRetryBound_refl]. simpl.
  eapply keepsRetryBound_trans; [|apply updateDownloadStatus_keepsRetryBound].
  by apply keepsRetryBound_same.
Qed.

Lemma cancelDownload_keepsRetryBound now downloadId dm :
  keepsRetryBound dm (cancelDownload now downloadId dm).
Proof.
  unfold cancelDownload.
  destruct (lookupTask downloadId dm) as [d|]; [|apply keepsRetryBound_refl].
  destruct (status d); try apply keepsRetryBound_refl;
    (eapply keepsRetryBound_trans;
       [apply (updateDownloadStatus_keepsRetryBound now downloadId cancelled None)|]);
    by apply keepsRetryBound_same.
Qed.

(** Appending a task object that has not been retried. *)
Lemma register_keepsRetryBound downloadId task dm :
  retryCount task = 0 →
  keepsRetryBound dm (setDownloads (<[downloadId := length (tasks dm)]> (downloads dm))
                        (setTasks (tasks dm ++ [task]) dm)).
Proof.
  intros Hzero. split; [done|]. unfold retriesBounded. simpl. intros Hb.
  apply Forall_app. split; [done|]. apply Forall_singleton. lia.
Qed.

Lemma step_keepsRetryBound ev sc :
  keepsRetryBound (manager sc) (manager (step ev sc)).
Proof.
  destruct ev; simpl.
  - unfold downloadFile.
    destruct (isInitialized (manager sc)); simpl; [|apply keepsRetryBound_refl].
    eapply keepsRetryBound_trans; [|apply queueDownload_keepsRetryBound]. simpl.
    by apply register_keepsRetryBound.
  - unfold downloadTextContent.
    destruct (isInitialized (manager sc)); simpl; [|apply keepsRetryBound_refl].
    assert (keepsRetryBound (manager sc)
              (updateDownloadStatus now (generateDownloadId now rand) processing None
                 (setDownloads (<[generateDownloadId now rand := length (tasks (manager sc))]>
                                  (downloads (manager sc)))
                    (setTasks (tasks (manager sc) ++
                               [mkTask (generateDownloadId now rand) text None (Some content0)
                                  filename0 pending 0 now 0 None None None None])
                       (manager sc))))) as Hreg.
    { eapply keepsRetryBound_trans; [|apply updateDownloadStatus_keepsRetryBound].
      by apply register_keepsRetryBound. }
    destruct converted; simpl; (eapply keepsRetryBound_trans; [exact Hreg|]).
    + by apply modify_keepsRetryBound.
    + apply updateDownloadStatus_keepsRetryBound.
  - apply settle_keepsRetryBound.
  - unfold timerFires. destruct (bool_decide (r ∈ timers sc)); simpl;
      [|apply keepsRetryBound_refl].
    match goal with |- context [executeDownload now r ?x] =>
      apply (executeDownload_keepsRetryBound now r x) end.
  - apply cancelDownload_keepsRetryBound.
  - unfold retryDownload.
    destruct (downloads (manager sc) !! downloadId) as [r|]; [|apply keepsRetryBound_refl].
    destruct (tasks (manager sc) !! r) as [d|]; [|apply keepsRetryBound_refl].
    destruct (status d); try apply keepsRetryBound_refl.
    eapply keepsRetryBound_trans; [|apply queueDownload_keepsRetryBound]. simpl.
    apply modify_keepsRetryBound. intros d' _ _. simpl. lia.
  - by apply keepsRetryBound_same.
  - unfold cleanupDownloads.
    set (cancel := fun kv acc => cancelDownload now kv.1 acc).
    apply (keepsRetryBound_trans _ (fold_right cancel (manager sc)
                                      (map_to_list (downloads (manager sc)))));
      [|by apply keepsRetryBound_same].
    induction (map_to_list (downloads (manager sc))) as [|kv l IH]; simpl;
      [apply keepsRetryBound_refl|].
    eapply keepsRetryBound_trans; [apply IH|apply cancelDownload_keepsRetryBound].
Qed.

Lemma run_keepsRetryBound evs sc :
  keepsRetryBound (manager sc) (manager (run evs sc)).
Proof.
  unfold run. revert sc.
  induction evs as [|ev evs IH]; intros sc; simpl; [apply keepsRetryBound_refl|].
  eapply keepsRetryBound_trans; [apply step_keepsRetryBound|apply IH].
Qed.

(** X16: the automatic retries of a task are bounded. After any sequence of
    events, no task object has a [retryCount] above 3, the [retryAttempts] of
    the constructor: a failed transfer is re-scheduled only while the count is
    below the limit, the count is incremented nowhere else, and
    [retryDownload] restarts it from 0. *)
Theorem automatic_retries_are_bounded evs :
  retryAttempts (manager (run evs start)) = 3 ∧
  Forall (fun d => retryCount d ≤ 3) (tasks (manager (run evs start))).
Proof.
  destruct (run_keepsRetryBound evs start) as [Hr Hb].
  split; [done|]. specialize (Hb ltac:(constructor)).
  unfold retriesBounded in Hb. by rewrite Hr in Hb.
Qed.

(** *** The queue *)

Lemma evolves_is_Some dm dm' q :
  evolves dm dm' →
  Forall (fun r => is_Some (tasks dm !! r)) q → Forall (fun r => is_Some (tasks dm' !! r)) q.
Proof.
  intros He Hq. eapply Forall_impl; [exact Hq|]. intros r [d Hd].
  destruct (He r d Hd) as (d' & Hd' & _). by exists d'.
Qed.

(** A change that keeps the task objects, the queue, the limit and the
    counter. *)
Lemma workConserving_keeps dm dm' :
  keeps dm dm' →
  downloadQueue dm' = downloadQueue dm →
  maxConcurrentDownloads dm' = maxConcurrentDownloads dm →
  activeDownloads dm' = activeDownloads dm →
  workConserving dm → workConserving dm'.
Proof.
  intros [He _] Hq Hl Ha [Hvalid Hfull]. unfold workConserving.
  rewrite Hq, Hl, Ha. split; [by eapply evolves_is_Some|done].
Qed.

Lemma updateDownloadStatus_workConserving now downloadId s err dm :
  workConserving dm → workConserving (updateDownloadStatus now downloadId s err dm).
Proof.
  destruct (updateDownloadStatus_frame now downloadId s err dm) as (Ha & Hl & Hq & _).
  apply workConserving_keeps; [apply updateDownloadStatus_keeps|done..].
Qed.

Lemma modify_workConserving r f dm :
  (∀ d, sameIdentity d (f d)) → workConserving dm → workConserving (modify r f dm).
Proof. intros Hf. apply workConserving_keeps; [by apply modify_keeps|done..]. Qed.

(** What [executeDownload] does to the scheduler when the reference is
    good. *)
Lemma executeDownload_started now r sc :
  is_Some (tasks (manager sc) !! r) →
  let sc' := executeDownload now r sc in
  active sc' = (active sc + 1)%Z ∧ queue sc' = queue sc ∧ limit sc' = limit sc ∧
  inflight sc' = (inflight sc ++ [r])%list ∧ timers sc' = timers sc.
Proof.
  intros [d Hd]. unfold executeDownload. rewrite Hd. simpl.
  destruct (type d); simpl; fields_frame; done.
Qed.

Lemma executeDownload_workConserving now r sc :
  workConserving (manager sc) → workConserving (manager (executeDownload now r sc)).
Proof.
  intros [Hvalid Hfull].
  destruct (tasks (manager sc) !! r) as [d|] eqn:Hd;
    [|unfold executeDownload; rewrite Hd; by split].
  destruct (executeDownload_started now r sc ltac:(by exists d)) as (Ha & Hq & Hl & _).
  destruct (executeDownload_keeps now r sc) as [He _].
  unfold workConserving. rewrite Ha, Hq, Hl.
  split; [by eapply evolves_is_Some|]. intros Hne. specialize (Hfull Hne). lia.
Qed.

Lemma queueDownload_workConserving now r sc :
  is_Some (tasks (manager sc) !! r) →
  workConserving (manager sc) → workConserving (manager (queueDownload now r sc)).
Proof.
  intros [d Hd] Hwc. unfold queueDownload.
  destruct (Z.ltb_spec (active sc) (limit sc)); [by apply executeDownload_workConserving|].
  rewrite Hd. simpl. apply updateDownloadStatus_workConserving.
  destruct Hwc as [Hvalid _]. split; simpl; [|done].
  apply Forall_app. split; [done|]. apply Forall_singleton. by exists d.
Qed.

Lemma finally_workConserving now sc :
  workConserving (manager sc) → workConserving (manager (finally now sc)).
Proof.
  intros [Hvalid Hfull]. unfold finally, processQueue, onManager. simpl.
  destruct (queue sc) as [|next rest] eqn:Hq; [by split; simpl; rewrite ?Hq|].
  inversion Hvalid as [|? ? Hnext Hrest]; subst.
  specialize (Hfull ltac:(done)).
  destruct (Z.ltb_spec (active sc - 1) (limit sc)).
  - match goal with |- context [executeDownload now next ?x] =>
      destruct (executeDownload_started now next x Hnext) as (Ha & Hq' & Hl & _);
      destruct (executeDownload_keeps now next x) as [He _]
    end.
    simpl in *. unfold workConserving. rewrite Ha, Hq', Hl.
    split; [by eapply evolves_is_Some|]. intros _. lia.
  - split; simpl; rewrite Hq; [done|]. intros _. lia.
Qed.

Lemma settle_workConserving now r outcome sc :
  workConserving (manager sc) → workConserving (manager (settle now r outcome sc)).
Proof.
  intros Hwc. unfold settle. destruct (bool_decide (r ∈ inflight sc)); simpl; [|done].
  destruct (tasks (manager sc) !! r) as [d|]; [|done].
  destruct outcome as [[]|e]; [|destruct (retryCount d <? retryAttempts (manager sc))];
    apply finally_workConserving; simpl.
  - apply updateDownloadStatus_workConserving.
    destruct (type d); simpl; try done.
    apply modify_workConserving; [|done]. intros d'. by repeat split.
  - apply updateDownloadStatus_workConserving.
    apply modify_workConserving; [|done]. intros d'. by repeat split.
  - by apply updateDownloadStatus_workConserving.
Qed.

Lemma cancelDownload_workConserving now downloadId dm :
  workConserving dm → workConserving (cancelDownload now downloadId dm).
Proof.
  intros Hwc. unfold cancelDownload.
  destruct (lookupTask downloadId dm) as [d|]; [|done].
  assert (∀ dm1, workConserving dm1 →
            workConserving (setQueue (spliceById (tasks dm1) downloadId (downloadQueue dm1)) dm1))
    as Hsplice.
  { intros dm1 [Hvalid Hfull]. split; simpl.
    - apply Forall_forall. intros x Hx. apply spliceById_subset in Hx.
      by eapply Forall_forall in Hvalid.
    - intros Hne. apply Hfull. intros Hq. rewrite Hq in Hne. done. }
  destruct (status d); try done; by apply Hsplice, updateDownloadStatus_workConserving.
Qed.

(** Appending a task object. *)
Lemma register_workConserving downloadId task dm :
  workConserving dm →
  workConserving (setDownloads (<[downloadId := length (tasks dm)]> (downloads dm))
                    (setTasks (tasks dm ++ [task]) dm)).
Proof.
  intros [Hvalid Hfull]. split; simpl; [|done].
  eapply Forall_impl; [exact Hvalid|]. intros r [d Hd]. exists d.
  rewrite lookup_app_l; [done|]. by eapply lookup_lt_Some.
Qed.

Lemma step_workConserving ev sc :
  workConserving (manager sc) → workConserving (manager (step ev sc)).
Proof.
  intros Hwc. destruct ev; simpl.
  - unfold downloadFile. destruct (isInitialized (manager sc)); simpl; [|done].
    apply queueDownload_workConserving; simpl.
    + eexists. by apply list_lookup_middle.
    + by apply register_workConserving.
  - unfold downloadTextContent. destruct (isInitialized (manager sc)); simpl; [|done].
    destruct converted; simpl.
    + apply modify_workConserving; [intros d; by repeat split|].
      by apply updateDownloadStatus_workConserving, register_workConserving.
    + do 2 apply updateDownloadStatus_workConserving. by apply register_workConserving.
  - by apply settle_workConserving.
  - unfold timerFires. destruct (bool_decide (r ∈ timers sc)); simpl; [|done].
    by apply executeDownload_workConserving.
  - by apply cancelDownload_workConserving.
  - unfold retryDownload. destruct (downloads (manager sc) !! downloadId) as [r|]; [|done].
    destruct (tasks (manager sc) !! r) as [d|] eqn:Hd; [|done].
    destruct (status d); try done.
    apply queueDownload_workConserving; simpl.
    + exists (resetForRetry d). by rewrite list_lookup_alter_eq, Hd.
    + apply modify_workConserving; [|done]. intros d'. by repeat split.
  - done.
  - by split.
Qed.

Lemma step_limit ev sc : limit (step ev sc) = limit sc.
Proof.
  destruct ev; simpl.
  - unfold downloadFile. destruct (isInitialized (manager sc)); simpl; [|done].
    match goal with |- context [queueDownload now ?n ?x] =>
      by destruct (queueDownload_gate now n x) as [-> _] end.
  - unfold downloadTextContent. destruct (isInitialized (manager sc)); simpl; [|done].
    destruct converted; simpl; fields_frame; done.
  - by destruct (settle_gate now r outcome sc) as [-> _].
  - unfold timerFires. destruct (bool_decide (r ∈ timers sc)); simpl; [|done].
    match goal with |- context [executeDownload now r ?x] =>
      by destruct (executeDownload_gate now r x) as [-> _] end.
  - by destruct (cancelDownload_frame now downloadId (manager sc)) as (-> & _).
  - unfold retryDownload. destruct (downloads (manager sc) !! downloadId) as [r|]; [|done].
    destruct (tasks (manager sc) !! r) as [d|]; [|done].
    destruct (status d); try done.
    match goal with |- context [queueDownload now ?n ?x] =>
      by destruct (queueDownload_gate now n x) as [-> _] end.
  - done.
  - unfold cleanupDownloads. simpl.
    induction (map_to_list (downloads (manager sc))) as [|kv l IH]; simpl; [done|].
    by destruct (cancelDownload_frame now kv.1
                   (fold_right (fun kv acc => cancelDownload now kv.1 acc) (manager sc) l))
      as (-> & _).
Qed.

(** X17: no task waits while a slot is free. After any sequence of events,
    if the queue is not empty then at least [maxConcurrentDownloads] = 3
    downloads are counted as active: a task is queued only when the limit is
    reached, and every slot that is given back is handed to the head of the
    queue before anything else can take it. *)
Theorem no_task_waits_while_a_slot_is_free evs :
  downloadQueue (manager (run evs start)) ≠ [] →
  (3 ≤ activeDownloads (manager (run evs start)))%Z.
Proof.
  assert (limit (run evs start) = 3%Z ∧ workConserving (manager (run evs start))) as [Hl Hwc].
  { unfold run. assert (limit start = 3%Z ∧ workConserving (manager start)) as Hstart
      by (split; [done|by split]).
    revert Hstart. generalize start.
    induction evs as [|ev evs IH]; intros sc [Hl Hwc]; simpl; [done|].
    apply IH. split; [by rewrite step_limit|by apply step_workConserving]. }
  intros Hne. destruct Hwc as [_ Hfull]. specialize (Hfull Hne). lia.
Qed.

Lemma no_task_waits_while_a_slot_is_free_witness :
  (3 ≤ activeDownloads
         (manager (run [ Submit media 1000 "a" "https://example.com/a.mp4" "a.mp4";
                         Submit media 1100 "b" "https://example.com/b.mp4" "b.mp4";
                         Submit media 1200 "c" "https://example.com/c.mp4" "c.mp4";
                         Submit media 1300 "d" "https://example.com/d.mp4" "d.mp4" ] start)))%Z.
Proof.
  apply (no_task_waits_while_a_slot_is_free
           [ Submit media 1000 "a" "https://example.com/a.mp4" "a.mp4";
             Submit media 1100 "b" "https://example.com/b.mp4" "b.mp4";
             Submit media 1200 "c" "https://example.com/c.mp4" "c.mp4";
             Submit media 1300 "d" "https://example.com/d.mp4" "d.mp4" ]).
  vm_compute. discriminate.
Defined.

(** X18: the slot of a transfer that settles goes to the head of the queue.
    When a transfer in flight settles — with success, for a retry or with a
    final failure — while tasks are queued and the counter is within the
    limit, the first queued task is taken off the queue and started at once:
    it joins the transfers in flight in place of the settled one, the rest of
    the queue keeps its order, and the number of active downloads is the same
    as before. *)
Theorem settled_slot_goes_to_queue_head sc now r outcome next rest :
  r ∈ inflight sc →
  is_Some (tasks (manager sc) !! r) →
  downloadQueue (manager sc) = next :: rest →
  is_Some (tasks (manager sc) !! next) →
  (activeDownloads (manager sc) ≤ maxConcurrentDownloads (manager sc))%Z →
  let sc' := settle now r outcome sc in
  downloadQueue (manager sc') = rest ∧
  inflight sc' = (removeFirst r (inflight sc) ++ [next])%list ∧
  activeDownloads (manager sc') = activeDownloads (manager sc).
Proof.
  intros Hin [d Hd] Hq [dn Hn] Hle.
  assert (∀ sc0, queue sc0 = next :: rest → is_Some (tasks (manager sc0) !! next) →
            (active sc0 ≤ limit sc0)%Z →
            queue (finally now sc0) = rest ∧
            inflight (finally now sc0) = (inflight sc0 ++ [next])%list ∧
            active (finally now sc0) = active sc0) as Hfin.
  { intros sc0 Hq0 Hn0 Hle0. unfold finally, processQueue, onManager. simpl. rewrite Hq0.
    destruct (Z.ltb_spec (active sc0 - 1) (limit sc0)); [|lia].
    match goal with |- context [executeDownload now next ?x] =>
      destruct (executeDownload_started now next x Hn0) as (Ha & Hq' & _ & Hi & _) end.
    simpl in *. rewrite Ha, Hq', Hi. split; [done|]. split; [done|]. lia. }
  assert (∀ dm', keeps (manager sc) dm' → is_Some (tasks dm' !! next)) as Hkept.
  { intros dm' [He _]. destruct (He next dn Hn) as (dn' & Hn' & _). by exists dn'. }
  simpl. unfold settle. rewrite bool_decide_true by done. simpl. rewrite Hd.
  destruct outcome as [[]|e]; [|destruct (retryCount d <? retryAttempts (manager sc))].
  - match goal with |- context [finally now ?x] => destruct (Hfin x) as (H1 & H2 & H3) end.
    + simpl. fields_frame. by destruct (type d).
    + simpl. apply Hkept. eapply keeps_trans; [|apply updateDownloadStatus_keeps].
      destruct (type d); simpl; try apply keeps_refl.
      apply modify_keeps. intros d'. by repeat split.
    + simpl. fields_frame. by destruct (type d).
    + rewrite H1, H2, H3. simpl. fields_frame. by destruct (type d).
  - match goal with |- context [finally now ?x] => destruct (Hfin x) as (H1 & H2 & H3) end.
    + simpl. by fields_frame.
    + simpl. apply Hkept. eapply keeps_trans; [|apply updateDownloadStatus_keeps].
      apply modify_keeps. intros d'. by repeat split.
    + simpl. by fields_frame.
    + rewrite H1, H2, H3. simpl. by fields_frame.
  - match goal with |- context [finally now ?x] => destruct (Hfin x) as (H1 & H2 & H3) end.
    + simpl. by fields_frame.
    + simpl. apply Hkept, updateDownloadStatus_keeps.
    + simpl. by fields_frame.
    + rewrite H1, H2, H3. simpl. by fields_frame.
Qed.

Lemma settled_slot_goes_to_queue_head_witness :
  inflight (settle 2000 0 (Ok ()) Scenarios.threeRunningOneQueued) = [1; 2; 3].
Proof.
  refine (proj1 (proj2 (settled_slot_goes_to_queue_head Scenarios.threeRunningOneQueued
                          2000 0 (Ok ()) 3 [] _ _ _ _ _))).
  - vm_compute. left.
  - vm_compute. eauto.
  - vm_compute. reflexivity.
  - vm_compute. eauto.
  - vm_compute. discriminate.
Defined.

End DownloadManagerExtras.
